(** * The fish tokenizer (src/tokenizer.cpp): a shallow embedding

    Wide characters are code points in [Z]; a [const wchar_t *] that points
    into a NUL-terminated buffer is the buffer (a list of code points) and an
    offset, and reading at or past the end of the list yields the terminating
    NUL.  The tokenizer object is a record that every member function takes
    and gives back. *)

From Stdlib Require Import ZArith List Bool Lia String Ascii Arith.
From Stdlib Require DecimalString.
Import ListNotations.
Local Open Scope Z_scope.

(** ** Wide characters and wide strings *)

Definition wchar := Z.
Definition wcstring := list wchar.

(** The wide string literal [L"..."] of an ASCII text. *)
Fixpoint L (s : string) : wcstring :=
  match s with
  | EmptyString => []
  | String a s' => Z.of_nat (nat_of_ascii a) :: L s'
  end.

(** The character constants the tokenizer compares against. *)
Abbreviation c_nul := 0%Z (only parsing).
Abbreviation c_tab := 9%Z (only parsing).
Abbreviation c_nl := 10%Z (only parsing).
Abbreviation c_cr := 13%Z (only parsing).
Abbreviation c_space := 32%Z (only parsing).
Abbreviation c_dquote := 34%Z (only parsing).
Abbreviation c_hash := 35%Z (only parsing).
Abbreviation c_amp := 38%Z (only parsing).
Abbreviation c_squote := 39%Z (only parsing).
Abbreviation c_lparen := 40%Z (only parsing).
Abbreviation c_rparen := 41%Z (only parsing).
Abbreviation c_comma := 44%Z (only parsing).
Abbreviation c_slash := 47%Z (only parsing).
Abbreviation c_zero := 48%Z (only parsing).
Abbreviation c_nine := 57%Z (only parsing).
Abbreviation c_semi := 59%Z (only parsing).
Abbreviation c_lt := 60%Z (only parsing).
Abbreviation c_eq := 61%Z (only parsing).
Abbreviation c_gt := 62%Z (only parsing).
Abbreviation c_question := 63%Z (only parsing).
Abbreviation c_lbracket := 91%Z (only parsing).
Abbreviation c_backslash := 92%Z (only parsing).
Abbreviation c_rbracket := 93%Z (only parsing).
Abbreviation c_caret := 94%Z (only parsing).
Abbreviation c_lbrace := 123%Z (only parsing).
Abbreviation c_pipe := 124%Z (only parsing).
Abbreviation c_rbrace := 125%Z (only parsing).

Definition INT_MAX : Z := 2147483647.
Definition STDIN_FILENO : Z := 0.
Definition STDOUT_FILENO : Z := 1.
Definition STDERR_FILENO : Z := 2.

(** [p[i]] for a pointer [p] into a NUL-terminated buffer: [s] is what the
    buffer holds from [p] on. *)
Definition wat (s : wcstring) (i : nat) : wchar := nth i s c_nul.

(** [wcslen]: the distance to the first NUL. *)
Fixpoint wcslen (s : wcstring) : nat :=
  match s with
  | [] => O
  | c :: s' => if c =? c_nul then O else S (wcslen s')
  end.

(** The number of leading characters of [s] that satisfy [p]: the distance a
    loop [while (p(buff[0])) buff++] moves.  Every [p] it is used with is
    false on NUL. *)
Fixpoint scan_while (p : wchar -> bool) (s : wcstring) : nat :=
  match s with
  | [] => O
  | c :: s' => if p c then S (scan_while p s') else O
  end.

(** ** The C library's classifiers

    [iswdigit] is the same in every locale.  The others, and the message
    catalogue behind the macro [_], depend on the locale the shell runs in:
    they are an interface, of which ISO C fixes that white space is disjoint
    from the graphic characters: NUL and the printing characters of ASCII
    other than the space are no white space. *)

Definition iswdigit (c : wchar) : bool := (c_zero <=? c) && (c <=? c_nine).

Class wctype := {
  iswspace : wchar -> bool;
  iswalnum : wchar -> bool;
  iswblank : wchar -> bool;
  iswgraph : wchar -> bool;
  wgettext : wcstring -> wcstring;
  iswspace_nul : iswspace c_nul = false;
  iswspace_ascii_graph : forall c, 33 <= c <= 126 -> iswspace c = false
}.

(** The classifiers of the "C" locale, with no message catalogue. *)
Definition C_iswspace (c : wchar) : bool := ((c_tab <=? c) && (c <=? c_cr)) || (c =? c_space).
Definition C_iswalnum (c : wchar) : bool :=
  iswdigit c || ((65 <=? c) && (c <=? 90)) || ((97 <=? c) && (c <=? 122)).
Definition C_iswblank (c : wchar) : bool := (c =? c_space) || (c =? c_tab).
Definition C_iswgraph (c : wchar) : bool := (33 <=? c) && (c <=? 126).

Lemma C_iswspace_ascii_graph : forall c, 33 <= c <= 126 -> C_iswspace c = false.
Proof.
  intros c H. unfold C_iswspace.
  apply orb_false_iff. split.
  - apply andb_false_iff. right. apply Z.leb_gt. lia.
  - apply Z.eqb_neq. lia.
Qed.

#[export] Instance C_locale : wctype := {|
  iswspace := C_iswspace;
  iswalnum := C_iswalnum;
  iswblank := C_iswblank;
  iswgraph := C_iswgraph;
  wgettext := fun s => s;
  iswspace_nul := eq_refl;
  iswspace_ascii_graph := C_iswspace_ascii_graph
|}.

(** ** Token kinds, error kinds, flags (tokenizer.h) *)

Inductive token_type :=
| TOK_NONE
| TOK_ERROR
| TOK_STRING
| TOK_PIPE
| TOK_END
| TOK_REDIRECT_OUT
| TOK_REDIRECT_APPEND
| TOK_REDIRECT_IN
| TOK_REDIRECT_FD
| TOK_REDIRECT_NOCLOB
| TOK_BACKGROUND
| TOK_COMMENT.

Inductive tokenizer_error :=
| TOK_ERROR_NONE
| TOK_UNTERMINATED_QUOTE
| TOK_UNTERMINATED_SUBSHELL
| TOK_UNTERMINATED_SLICE
| TOK_UNTERMINATED_ESCAPE
| TOK_INVALID_REDIRECT
| TOK_INVALID_PIPE.

Definition token_type_eqb (a b : token_type) : bool :=
  match a, b with
  | TOK_NONE, TOK_NONE | TOK_ERROR, TOK_ERROR | TOK_STRING, TOK_STRING
  | TOK_PIPE, TOK_PIPE | TOK_END, TOK_END | TOK_REDIRECT_OUT, TOK_REDIRECT_OUT
  | TOK_REDIRECT_APPEND, TOK_REDIRECT_APPEND | TOK_REDIRECT_IN, TOK_REDIRECT_IN
  | TOK_REDIRECT_FD, TOK_REDIRECT_FD | TOK_REDIRECT_NOCLOB, TOK_REDIRECT_NOCLOB
  | TOK_BACKGROUND, TOK_BACKGROUND | TOK_COMMENT, TOK_COMMENT => true
  | _, _ => false
  end.

(** The flag word of the constructor, one field per bit. *)
Record tok_flags_t := {
  TOK_ACCEPT_UNFINISHED : bool;
  TOK_SHOW_COMMENTS : bool;
  TOK_SQUASH_ERRORS : bool;
  TOK_SHOW_BLANK_LINES : bool
}.

(** [struct tok_t]: what [next] fills in.  Its fields live in a name space
    of their own, as [Tok.text], [Tok.length] and so on. *)
Module Tok.
Record tok_t := {
  text : wcstring;
  type : token_type;
  error : tokenizer_error;
  error_offset : nat;
  offset : nat;
  length : nat
}.
End Tok.
Abbreviation tok_t := Tok.tok_t.

(** ** Character classes of the tokenizer *)

Definition tok_is_string_character (c : wchar) (is_first : bool) : bool :=
  if (c =? c_nul) || (c =? c_space) || (c =? c_nl) || (c =? c_pipe) || (c =? c_tab)
     || (c =? c_semi) || (c =? c_cr) || (c =? c_lt) || (c =? c_gt) || (c =? c_amp)
  then false                                   (* unconditional separators *)
  else if c =? c_caret then negb is_first      (* conditional separator *)
  else true.

Definition myal (c : wchar) : bool :=
  ((97 <=? c) && (c <=? 122)) || ((65 <=? c) && (c <=? 90)).

(** Modelled from the spec: [quote_end] is defined in common.cpp, which is not
    among the sources.  Section 4.2: given a cursor pointing at a quote
    character, scan forward for the matching closer; a backslash escapes the
    one following code point, which then does not terminate the span; the
    result is the position of the closing quote, or not found.  [s] is the
    buffer from the cursor on and the result is relative to the cursor. *)
Fixpoint quote_scan (q : wchar) (s : wcstring) (pos : nat) : option nat :=
  match s with
  | [] => None
  | c :: s' =>
      if c =? c_nul then None
      else if c =? c_backslash then
        match s' with
        | [] => None
        | d :: s'' => if d =? c_nul then None else quote_scan q s'' (S (S pos))
        end
      else if c =? q then Some pos
      else quote_scan q s' (S pos)
  end.

Definition quote_end (s : wcstring) : option nat :=
  match s with
  | [] => None
  | q :: s' => quote_scan q s' 1
  end.

(** Modelled from the spec: [to_string] is declared in common.h, which is not
    among the sources.  Section 3: a redirection token carries the resolved
    fd as decimal text. *)
Definition to_string (fd : Z) : wcstring :=
  L (DecimalString.NilZero.string_of_int (Z.to_int fd)).

(** ** The redirection and fd-pipe reader *)

(** The digit loop of [read_redirection_or_fd_pipe]: how many digits there
    are and the final value of [big_fd].  The accumulator is a [long long];
    it stops growing once it is above [INT_MAX], so it stays below
    [10 * INT_MAX + 10] and never wraps. *)
Fixpoint read_fd_digits (buff : wcstring) (big_fd : Z) : nat * Z :=
  match buff with
  | [] => (O, big_fd)
  | c :: buff' =>
      if iswdigit c then
        let big_fd' := if big_fd <=? INT_MAX then big_fd * 10 + (c - c_zero) else big_fd in
        let '(idx, r) := read_fd_digits buff' big_fd' in
        (S idx, r)
      else (O, big_fd)
  end.

(** The result is (characters consumed, [*out_redirection_mode], [*out_fd]). *)
Definition read_redirection_or_fd_pipe (buff : wcstring) : nat * token_type * Z :=
  let '(idx, big_fd) := read_fd_digits buff 0 in
  let fd := if big_fd >? INT_MAX then -1 else big_fd in
  let '(fd, errored) :=
    if (idx =? 0)%nat then
      if wat buff idx =? c_gt then (STDOUT_FILENO, false)
      else if wat buff idx =? c_lt then (STDIN_FILENO, false)
      else if wat buff idx =? c_caret then (STDERR_FILENO, false)
      else (fd, true)
    else (fd, false) in
  let redirect_char := wat buff idx in
  let idx := S idx in
  let '(redirection_mode, idx, errored) :=
    if (redirect_char =? c_gt) || ((redirect_char =? c_caret) && (idx =? 1)%nat) then
      if wat buff idx =? redirect_char
      then (TOK_REDIRECT_APPEND, S idx, errored)
      else (TOK_REDIRECT_OUT, idx, errored)
    else if redirect_char =? c_lt then (TOK_REDIRECT_IN, idx, errored)
    else (TOK_NONE, idx, true) in
  if errored then (O, TOK_NONE, fd)
  else
    let opt_char := wat buff idx in
    if opt_char =? c_amp then (S idx, TOK_REDIRECT_FD, fd)
    else if opt_char =? c_question then (S idx, TOK_REDIRECT_NOCLOB, fd)
    else if opt_char =? c_pipe then (S idx, TOK_PIPE, fd)
    else (idx, redirection_mode, fd).

Definition redirection_type_for_string (str : wcstring) : token_type * Z :=
  let '(_, mode, fd) := read_redirection_or_fd_pipe str in
  (if token_type_eqb mode TOK_PIPE || (fd <? 0) then TOK_NONE else mode, fd).

(** [str == L"|"] and the like: two strings hold the same characters. *)
Definition wcstring_eqb (a b : wcstring) : bool :=
  if list_eq_dec Z.eq_dec a b then true else false.

Definition fd_redirected_by_pipe (str : wcstring) : Z :=
  if wcstring_eqb str [c_pipe] then STDOUT_FILENO
  else
    let '(_, mode, fd) := read_redirection_or_fd_pipe str in
    if negb (token_type_eqb mode TOK_PIPE) || (fd <? 0) then -1 else fd.

(** ** The tokenizer object *)

Record tokenizer_t := {
  buff : nat;                          (* the cursor, as an offset from [start] *)
  start : wcstring;
  last_token : wcstring;
  last_type : token_type;
  last_pos : nat;
  has_next : bool;
  accept_unfinished : bool;
  show_comments : bool;
  show_blank_lines : bool;
  error : tokenizer_error;
  global_error_offset : Z;             (* a [size_t] *)
  squash_errors : bool;
  continue_line_after_comment : bool
}.

Definition set_buff (t : tokenizer_t) (b : nat) : tokenizer_t :=
  {| buff := b; start := start t; last_token := last_token t; last_type := last_type t;
     last_pos := last_pos t; has_next := has_next t; accept_unfinished := accept_unfinished t;
     show_comments := show_comments t; show_blank_lines := show_blank_lines t;
     error := error t; global_error_offset := global_error_offset t;
     squash_errors := squash_errors t;
     continue_line_after_comment := continue_line_after_comment t |}.

Definition set_last (t : tokenizer_t) (ty : token_type) (tk : wcstring) : tokenizer_t :=
  {| buff := buff t; start := start t; last_token := tk; last_type := ty;
     last_pos := last_pos t; has_next := has_next t; accept_unfinished := accept_unfinished t;
     show_comments := show_comments t; show_blank_lines := show_blank_lines t;
     error := error t; global_error_offset := global_error_offset t;
     squash_errors := squash_errors t;
     continue_line_after_comment := continue_line_after_comment t |}.

Definition set_last_pos (t : tokenizer_t) (p : nat) : tokenizer_t :=
  {| buff := buff t; start := start t; last_token := last_token t; last_type := last_type t;
     last_pos := p; has_next := has_next t; accept_unfinished := accept_unfinished t;
     show_comments := show_comments t; show_blank_lines := show_blank_lines t;
     error := error t; global_error_offset := global_error_offset t;
     squash_errors := squash_errors t;
     continue_line_after_comment := continue_line_after_comment t |}.

Definition set_has_next (t : tokenizer_t) (b : bool) : tokenizer_t :=
  {| buff := buff t; start := start t; last_token := last_token t; last_type := last_type t;
     last_pos := last_pos t; has_next := b; accept_unfinished := accept_unfinished t;
     show_comments := show_comments t; show_blank_lines := show_blank_lines t;
     error := error t; global_error_offset := global_error_offset t;
     squash_errors := squash_errors t;
     continue_line_after_comment := continue_line_after_comment t |}.

Definition set_continue_line_after_comment (t : tokenizer_t) (b : bool) : tokenizer_t :=
  {| buff := buff t; start := start t; last_token := last_token t; last_type := last_type t;
     last_pos := last_pos t; has_next := has_next t; accept_unfinished := accept_unfinished t;
     show_comments := show_comments t; show_blank_lines := show_blank_lines t;
     error := error t; global_error_offset := global_error_offset t;
     squash_errors := squash_errors t;
     continue_line_after_comment := b |}.

(** [*this->buff] and the buffer from the cursor on. *)
Definition cur (t : tokenizer_t) : wchar := wat (start t) (buff t).
Definition rest (t : tokenizer_t) : wcstring := skipn (buff t) (start t).

Section Locale.
Context {LC : wctype}.

Definition QUOTE_ERROR : wcstring :=
  wgettext (L "Unexpected end of string, quotes are not balanced").
Definition PARAN_ERROR : wcstring :=
  wgettext (L "Unexpected end of string, parenthesis do not match").
Definition SQUARE_BRACKET_ERROR : wcstring :=
  wgettext (L "Unexpected end of string, square brackets do not match").
Definition UNTERMINATED_ESCAPE_ERROR : wcstring :=
  wgettext (L "Unexpected end of string, incomplete escape sequence").
Definition REDIRECT_ERROR : wcstring :=
  wgettext (L "Invalid input/output redirection").
Definition PIPE_ERROR : wcstring :=
  wgettext (L "Cannot use stdin (fd 0) as pipe output").

(** The text [call_error] stores when errors are not squashed.  The source
    asserts that the error is not [TOK_ERROR_NONE]. *)
Definition error_message (error_type : tokenizer_error) (otherwise : wcstring) : wcstring :=
  match error_type with
  | TOK_UNTERMINATED_QUOTE => QUOTE_ERROR
  | TOK_UNTERMINATED_SUBSHELL => PARAN_ERROR
  | TOK_UNTERMINATED_SLICE => SQUARE_BRACKET_ERROR
  | TOK_UNTERMINATED_ESCAPE => UNTERMINATED_ESCAPE_ERROR
  | TOK_INVALID_REDIRECT => REDIRECT_ERROR
  | TOK_INVALID_PIPE => PIPE_ERROR
  | TOK_ERROR_NONE => otherwise
  end.

(** [where_] is the pointer [where] as an offset from [start], [None] for a
    null pointer. *)
Definition call_error (t : tokenizer_t) (error_type : tokenizer_error)
    (where_ : option nat) : tokenizer_t :=
  {| buff := buff t; start := start t;
     last_token := if squash_errors t then [] else error_message error_type (last_token t);
     last_type := TOK_ERROR;
     last_pos := last_pos t;
     has_next := false;
     accept_unfinished := accept_unfinished t;
     show_comments := show_comments t; show_blank_lines := show_blank_lines t;
     error := error_type;
     global_error_offset := match where_ with Some w => Z.of_nat w | None => 0 end;
     squash_errors := squash_errors t;
     continue_line_after_comment := continue_line_after_comment t |}.

(** Modelled from the spec: the member initialisers of [tokenizer_t] are in
    tokenizer.h, which is not among the sources.  Section 3: [has_next] is
    false once a fatal error or the end of input has been emitted, so it
    starts true; [continue_line_after_comment] is set by an escaped newline,
    so it starts false; the scratch buffer [last_token] starts empty.  Nothing
    reads the other members before [tok_next] or [call_error] writes them. *)
Definition tokenizer (start_ : wcstring) (flags : tok_flags_t) : tokenizer_t :=
  {| buff := O; start := start_;
     last_token := [];
     last_type := TOK_NONE;
     last_pos := O;
     has_next := true;
     accept_unfinished := TOK_ACCEPT_UNFINISHED flags;
     show_comments := TOK_SHOW_COMMENTS flags;
     show_blank_lines := TOK_SHOW_BLANK_LINES flags;
     error := TOK_ERROR_NONE;
     global_error_offset := 18446744073709551615;
     squash_errors := TOK_SQUASH_ERRORS flags;
     continue_line_after_comment := false |}.

Definition iswspace_not_nl (c : wchar) : bool :=
  if (c =? c_space) || (c =? c_tab) || (c =? c_cr) then true
  else if c =? c_nl then false
  else iswspace c.

(** ** The string scanner *)

Inductive tok_mode_t :=
| mode_regular_text
| mode_subshell
| mode_array_brackets
| mode_array_brackets_and_subshell.

Definition paran_offsets_max : nat := 96.

(** [a[i] = x] on an array held as a list. *)
Fixpoint array_set (a : list nat) (i : nat) (x : nat) : list nat :=
  match a, i with
  | [], _ => []
  | _ :: a', O => x :: a'
  | y :: a', S i' => y :: array_set a' i' x
  end.

(** The locals of [read_string] that the loop changes. *)
Record rs_locals := {
  do_loop : bool;
  paran_count : nat;
  paran_offsets : list nat;
  offset_of_bracket : nat;
  is_first : bool;
  mode : tok_mode_t
}.

Definition rs_initial : rs_locals :=
  {| do_loop := true; paran_count := O; paran_offsets := repeat O paran_offsets_max;
     offset_of_bracket := O; is_first := true; mode := mode_regular_text |}.

Definition set_do_loop (v : rs_locals) (b : bool) : rs_locals :=
  {| do_loop := b; paran_count := paran_count v; paran_offsets := paran_offsets v;
     offset_of_bracket := offset_of_bracket v; is_first := is_first v; mode := mode v |}.

Definition set_is_first (v : rs_locals) (b : bool) : rs_locals :=
  {| do_loop := do_loop v; paran_count := paran_count v; paran_offsets := paran_offsets v;
     offset_of_bracket := offset_of_bracket v; is_first := b; mode := mode v |}.

Definition set_mode (v : rs_locals) (m : tok_mode_t) : rs_locals :=
  {| do_loop := do_loop v; paran_count := paran_count v; paran_offsets := paran_offsets v;
     offset_of_bracket := offset_of_bracket v; is_first := is_first v; mode := m |}.

Definition set_offset_of_bracket (v : rs_locals) (o : nat) : rs_locals :=
  {| do_loop := do_loop v; paran_count := paran_count v; paran_offsets := paran_offsets v;
     offset_of_bracket := o; is_first := is_first v; mode := mode v |}.

Definition set_parans (v : rs_locals) (n : nat) (offs : list nat) : rs_locals :=
  {| do_loop := do_loop v; paran_count := n; paran_offsets := offs;
     offset_of_bracket := offset_of_bracket v; is_first := is_first v; mode := mode v |}.

(** How one round of the [while (1)] loop ends. *)
Inductive rs_outcome :=
| rs_return (t : tokenizer_t)                      (* [return] after [call_error] *)
| rs_break (t : tokenizer_t) (v : rs_locals)       (* [break] *)
| rs_again (t : tokenizer_t) (v : rs_locals).      (* the next round *)

(** The two quote cases of the mode switch, which are the same code. *)
Definition rs_quote (t : tokenizer_t) (v : rs_locals) : tokenizer_t * option rs_locals :=
  match quote_end (rest t) with
  | Some e => (set_buff t (buff t + e), Some v)
  | None =>
      let error_loc := buff t in
      let t := set_buff t (buff t + wcslen (rest t)) in
      if negb (accept_unfinished t)
      then (call_error t TOK_UNTERMINATED_QUOTE (Some error_loc), None)
      else (t, Some (set_do_loop v false))
  end.

(** [switch (mode)]: [None] for the locals when the function returned. *)
Definition rs_switch (buff_start : nat) (t : tokenizer_t) (v : rs_locals)
    : tokenizer_t * option rs_locals :=
  let c := cur t in
  match mode v with
  | mode_regular_text =>
      if c =? c_lparen then
        (t, Some (set_mode (set_parans v 1 (array_set (paran_offsets v) 0 (buff t))) mode_subshell))
      else if c =? c_lbracket then
        if negb (buff t =? buff_start)%nat
        then (t, Some (set_offset_of_bracket (set_mode v mode_array_brackets) (buff t)))
        else (t, Some v)
      else if (c =? c_squote) || (c =? c_dquote) then rs_quote t v
      else if negb (tok_is_string_character c (is_first v))
      then (t, Some (set_do_loop v false))
      else (t, Some v)
  | mode_array_brackets_and_subshell
  | mode_subshell =>
      if (c =? c_squote) || (c =? c_dquote) then rs_quote t v
      else if c =? c_lparen then
        let offs := if (paran_count v <? paran_offsets_max)%nat
                    then array_set (paran_offsets v) (paran_count v) (buff t)
                    else paran_offsets v in
        (t, Some (set_parans v (S (paran_count v)) offs))
      else if c =? c_rparen then
        let v := set_parans v (paran_count v - 1) (paran_offsets v) in
        if (paran_count v =? 0)%nat then
          (t, Some (set_mode v
                      match mode v with
                      | mode_array_brackets_and_subshell => mode_array_brackets
                      | _ => mode_regular_text
                      end))
        else (t, Some v)
      else if c =? c_nul then (t, Some (set_do_loop v false))
      else (t, Some v)
  | mode_array_brackets =>
      if c =? c_lparen then
        (t, Some (set_mode (set_parans v 1 (array_set (paran_offsets v) 0 (buff t)))
                    mode_array_brackets_and_subshell))
      else if c =? c_rbracket then (t, Some (set_mode v mode_regular_text))
      else if c =? c_nul then (t, Some (set_do_loop v false))
      else (t, Some v)
  end.

(** The end of a round: [if (!do_loop) break; buff++; is_first = false;]. *)
Definition rs_round_end (t : tokenizer_t) (v : rs_locals) : rs_outcome :=
  if negb (do_loop v) then rs_break t v
  else rs_again (set_buff t (S (buff t))) (set_is_first v false).

Definition read_string_round (buff_start : nat) (t : tokenizer_t) (v : rs_locals)
    : rs_outcome :=
  if negb (myal (cur t)) then
    if cur t =? c_backslash then
      let error_location := buff t in
      let t := set_buff t (S (buff t)) in
      if cur t =? c_nul then
        if negb (accept_unfinished t)
        then rs_return (call_error t TOK_UNTERMINATED_ESCAPE (Some error_location))
        else
          (* step back, so that the increment does not pass the end; issue 389 *)
          let t := set_buff t (buff t - 1) in
          let v := set_do_loop v false in
          rs_again (set_buff t (S (buff t))) v
      else rs_again (set_buff t (S (buff t))) v
    else
      match rs_switch buff_start t v with
      | (t, None) => rs_return t
      | (t, Some v) => rs_round_end t v
      end
  else rs_round_end t v.

(** The loop, for at most [fuel] rounds; [None] when they do not suffice. *)
Fixpoint read_string_loop (fuel : nat) (buff_start : nat) (t : tokenizer_t) (v : rs_locals)
    : option (tokenizer_t * option rs_locals) :=
  match fuel with
  | O => None
  | S fuel' =>
      match read_string_round buff_start t v with
      | rs_return t' => Some (t', None)
      | rs_break t' v' => Some (t', Some v')
      | rs_again t' v' => read_string_loop fuel' buff_start t' v'
      end
  end.

(** What follows the loop. *)
Definition read_string_finish (buff_start : nat) (t : tokenizer_t) (v : rs_locals)
    : tokenizer_t :=
  match negb (accept_unfinished t), mode v with
  | true, mode_subshell =>
      let offset_of_open_paran :=
        if (paran_count v <=? paran_offsets_max)%nat
        then nth (paran_count v - 1) (paran_offsets v) O
        else O in
      call_error t TOK_UNTERMINATED_SUBSHELL (Some offset_of_open_paran)
  | true, mode_array_brackets
  | true, mode_array_brackets_and_subshell =>
      call_error t TOK_UNTERMINATED_SLICE (Some (offset_of_bracket v))
  | _, _ =>
      let len := (buff t - buff_start)%nat in
      set_last t TOK_STRING (firstn len (skipn buff_start (start t)))
  end.

(** Every round but the last moves the cursor forward, and the cursor never
    passes the terminating NUL, so one round per remaining character and one
    more are enough (lemma [read_string_loop_total]). *)
Definition read_string_fuel (t : tokenizer_t) : nat :=
  S (List.length (start t) - buff t).

Definition read_string (t : tokenizer_t) : tokenizer_t :=
  let buff_start := buff t in
  match read_string_loop (read_string_fuel t) buff_start t rs_initial with
  | Some (t', None) => t'
  | Some (t', Some v) => read_string_finish buff_start t' v
  | None => t
  end.

(** ** The driver *)

(** The first loop of [tok_next]: how far it moves, and whether it met an
    escaped newline. *)
Fixpoint skip_blanks (s : wcstring) : nat * bool :=
  match s with
  | [] => (O, false)
  | c :: s' =>
      if (c =? c_backslash) && (wat s' 0 =? c_nl) then
        match s' with
        | _ :: s'' => let '(n, _) := skip_blanks s'' in (S (S n), true)
        | [] => (O, false)
        end
      else if iswspace_not_nl c then
        let '(n, b) := skip_blanks s' in (S n, b)
      else (O, false)
  end.

Definition not_end_of_line (c : wchar) : bool := negb (c =? c_nl) && negb (c =? c_nul).

(** The comment loop, for at most [fuel] comments; the flag tells that
    [tok_next] returned a comment token from inside it. *)
Fixpoint skip_comments (fuel : nat) (t : tokenizer_t) : option (tokenizer_t * bool) :=
  match fuel with
  | O => None
  | S fuel' =>
      if cur t =? c_hash then
        let comment_start := buff t in
        let t := set_buff t (buff t + scan_while not_end_of_line (rest t)) in
        let comment_len := (buff t - comment_start)%nat in
        let t := if (cur t =? c_nl) && continue_line_after_comment t
                 then set_buff t (S (buff t)) else t in
        if show_comments t then
          let t := set_last_pos t comment_start in
          Some (set_last t TOK_COMMENT (firstn comment_len (skipn comment_start (start t))),
                true)
        else
          let t := set_buff t (buff t + scan_while iswspace_not_nl (rest t)) in
          skip_comments fuel' t
      else Some (t, false)
  end.

Definition is_newline_run (c : wchar) : bool :=
  (c =? c_nl) || (c =? c_cr) || (c =? c_space) || (c =? c_tab).

(** The [switch] of [tok_next] on the character at the cursor. *)
Definition tok_next_dispatch (t : tokenizer_t) : tokenizer_t * bool :=
  let c := cur t in
  if c =? c_nul then
    (set_last (set_has_next t false) TOK_END [], false)
  else if (c =? c_cr) || (c =? c_nl) || (c =? c_semi) then
    let t := set_last t TOK_END [c] in
    let t := set_buff t (S (buff t)) in
    let t := if negb (show_blank_lines t)
             then set_buff t (buff t + scan_while is_newline_run (rest t))
             else t in
    (t, true)
  else if c =? c_amp then
    let t := set_last t TOK_BACKGROUND (last_token t) in
    (set_buff t (S (buff t)), true)
  else if c =? c_pipe then
    let t := set_last t TOK_PIPE (L "1") in
    (set_buff t (S (buff t)), true)
  else if (c =? c_gt) || (c =? c_lt) || (c =? c_caret) then
    let '(consumed, mode, fd) := read_redirection_or_fd_pipe (rest t) in
    if (consumed =? 0)%nat || (fd <? 0)
    then (call_error t TOK_INVALID_REDIRECT (Some (buff t)), true)
    else (set_last (set_buff t (buff t + consumed)) mode (to_string fd), true)
  else
    let error_location := buff t in
    let '(consumed, mode, fd) :=
      if iswdigit c then read_redirection_or_fd_pipe (rest t) else (O, TOK_NONE, -1) in
    if (0 <? consumed)%nat then
      if token_type_eqb mode TOK_PIPE && (fd =? 0)
      then (call_error t TOK_INVALID_PIPE (Some error_location), true)
      else (set_last (set_buff t (buff t + consumed)) mode (to_string fd), true)
    else (read_string t, true).

(** One comment holds at least its [#], so there are no more comments than
    characters left (lemma [skip_comments_total]). *)
Definition skip_comments_fuel (t : tokenizer_t) : nat :=
  S (List.length (start t) - buff t).

Definition tok_next (t : tokenizer_t) : tokenizer_t * bool :=
  if negb (has_next t) then (t, false)
  else
    let '(n, escaped_nl) := skip_blanks (rest t) in
    let t := set_buff t (buff t + n) in
    let t := if escaped_nl then set_continue_line_after_comment t true else t in
    match skip_comments (skip_comments_fuel t) t with
    | None => (t, false)
    | Some (t, true) => (t, true)
    | Some (t, false) =>
        let t := set_continue_line_after_comment t false in
        let t := set_last_pos t (buff t) in
        tok_next_dispatch t
    end.

(** [next]: the tokenizer afterwards and, when the call returned true, what
    it stored in [*result]. *)
Definition next (t : tokenizer_t) : tokenizer_t * option tok_t :=
  let '(t, more) := tok_next t in
  if negb more then (t, None)
  else
    let current_pos := buff t in
    let is_error := token_type_eqb (last_type t) TOK_ERROR in
    (t, Some {|
      Tok.text := last_token t;
      Tok.type := last_type t;
      Tok.offset := last_pos t;
      Tok.error := if is_error then error t else TOK_ERROR_NONE;
      Tok.error_offset :=
        if is_error && (Z.of_nat (last_pos t) <=? global_error_offset t)
                    && (global_error_offset t <? Z.of_nat current_pos)
        then Z.to_nat (global_error_offset t - Z.of_nat (last_pos t))
        else O;
      Tok.length := if (last_pos t <=? current_pos)%nat
                    then (current_pos - last_pos t)%nat else O
    |}).

Definition squash_only : tok_flags_t :=
  {| TOK_ACCEPT_UNFINISHED := false; TOK_SHOW_COMMENTS := false;
     TOK_SQUASH_ERRORS := true; TOK_SHOW_BLANK_LINES := false |}.

Definition tok_first (str : wcstring) : wcstring :=
  let t := tokenizer str squash_only in
  match next t with
  | (_, Some token) => if token_type_eqb (Tok.type token) TOK_STRING then Tok.text token else []
  | (_, None) => []
  end.

(** The tokens of the first [n] calls of [next], and the tokenizer after
    them. *)
Fixpoint next_n (n : nat) (t : tokenizer_t) : list tok_t :=
  match n with
  | O => []
  | S n' =>
      match next t with
      | (t', Some token) => token :: next_n n' t'
      | (t', None) => next_n n' t'
      end
  end.

Fixpoint after_next (n : nat) (t : tokenizer_t) : tokenizer_t :=
  match n with
  | O => t
  | S n' => after_next n' (fst (next t))
  end.

End Locale.

Definition strict_flags : tok_flags_t :=
  {| TOK_ACCEPT_UNFINISHED := false; TOK_SHOW_COMMENTS := false;
     TOK_SQUASH_ERRORS := false; TOK_SHOW_BLANK_LINES := false |}.

Definition unfinished_flags : tok_flags_t :=
  {| TOK_ACCEPT_UNFINISHED := true; TOK_SHOW_COMMENTS := false;
     TOK_SQUASH_ERRORS := false; TOK_SHOW_BLANK_LINES := false |}.

(** ** The word-motion state machines *)

Inductive move_word_style_t :=
| move_word_style_punctuation
| move_word_style_path_components
| move_word_style_whitespace.

(** The member [state] is an [int]; each [consume_char_...] reads it through
    an enumeration of its own. *)
Record move_word_state_machine_t := {
  state : Z;
  style : move_word_style_t
}.

Definition move_word_state_machine (syl : move_word_style_t) : move_word_state_machine_t :=
  {| state := 0; style := syl |}.

(** [wcschr(s, c) != NULL]: the terminating NUL counts as part of [s]. *)
Definition wcschr (s : wcstring) (c : wchar) : bool :=
  existsb (Z.eqb c) s || (c =? c_nul).

Definition is_path_component_character (c : wchar) : bool :=
  tok_is_string_character c true
  && negb (wcschr [c_slash; c_eq; c_lbrace; c_comma; c_rbrace; c_squote; c_dquote] c).

Module Punctuation.
  Abbreviation s_always_one := 0%Z (only parsing).
  Abbreviation s_whitespace := 1%Z (only parsing).
  Abbreviation s_alphanumeric := 2%Z (only parsing).
  Abbreviation s_end := 3%Z (only parsing).
End Punctuation.

Module PathComponents.
  Abbreviation s_initial_punctuation := 0%Z (only parsing).
  Abbreviation s_whitespace := 1%Z (only parsing).
  Abbreviation s_separator := 2%Z (only parsing).
  Abbreviation s_slash := 3%Z (only parsing).
  Abbreviation s_path_component_characters := 4%Z (only parsing).
  Abbreviation s_end := 5%Z (only parsing).
End PathComponents.

Module Whitespace.
  Abbreviation s_always_one := 0%Z (only parsing).
  Abbreviation s_blank := 1%Z (only parsing).
  Abbreviation s_graph := 2%Z (only parsing).
  Abbreviation s_end := 3%Z (only parsing).
End Whitespace.

Section WordMotion.
Context {LC : wctype}.

(** The loop [while (state != s_end && !consumed) switch (state) ...] that
    the three functions share, for at most [fuel] rounds: [round] is the
    [switch], and the result is the state and [consumed] at the end, [None]
    when the rounds do not suffice. *)
Fixpoint consume_loop (s_end : Z) (round : Z -> bool -> Z * bool) (fuel : nat)
    (st : Z) (consumed : bool) : option (Z * bool) :=
  if negb (st =? s_end) && negb consumed then
    match fuel with
    | O => None
    | S fuel' =>
        let '(st', consumed') := round st consumed in
        consume_loop s_end round fuel' st' consumed'
    end
  else Some (st, consumed).

Definition punctuation_round (c : wchar) (st : Z) (consumed : bool) : Z * bool :=
  if st =? Punctuation.s_always_one then (Punctuation.s_whitespace, true)
  else if st =? Punctuation.s_whitespace then
    if iswspace c then (st, true) else (Punctuation.s_alphanumeric, consumed)
  else if st =? Punctuation.s_alphanumeric then
    if iswalnum c then (st, true) else (Punctuation.s_end, consumed)
  else (st, consumed).

Definition path_components_round (c : wchar) (st : Z) (consumed : bool) : Z * bool :=
  if st =? PathComponents.s_initial_punctuation then
    (PathComponents.s_whitespace,
     if negb (is_path_component_character c) then true else consumed)
  else if st =? PathComponents.s_whitespace then
    if iswspace c then (st, true)
    else if (c =? c_slash) || is_path_component_character c
    then (PathComponents.s_slash, consumed)
    else (PathComponents.s_separator, consumed)
  else if st =? PathComponents.s_separator then
    if negb (iswspace c) && negb (is_path_component_character c)
    then (st, true) else (PathComponents.s_end, consumed)
  else if st =? PathComponents.s_slash then
    if c =? c_slash then (st, true)
    else (PathComponents.s_path_component_characters, consumed)
  else if st =? PathComponents.s_path_component_characters then
    if is_path_component_character c then (st, true)
    else (PathComponents.s_end, consumed)
  else (st, consumed).

Definition whitespace_round (c : wchar) (st : Z) (consumed : bool) : Z * bool :=
  if st =? Whitespace.s_always_one then (Whitespace.s_blank, true)
  else if st =? Whitespace.s_blank then
    if iswblank c then (st, true) else (Whitespace.s_graph, consumed)
  else if st =? Whitespace.s_graph then
    if iswgraph c then (st, true) else (Whitespace.s_end, consumed)
  else (st, consumed).

(** A round that does not consume moves to a later state, so a loop runs at
    most once per state of its enumeration (lemma [consume_loop_total]). *)
Definition finish_consume (m : move_word_state_machine_t) (r : option (Z * bool))
    : move_word_state_machine_t * bool :=
  match r with
  | Some (st, consumed) => ({| state := st; style := style m |}, consumed)
  | None => (m, false)
  end.

Definition consume_char_punctuation (m : move_word_state_machine_t) (c : wchar) :=
  finish_consume m
    (consume_loop Punctuation.s_end (punctuation_round c) 4 (state m) false).

Definition consume_char_path_components (m : move_word_state_machine_t) (c : wchar) :=
  finish_consume m
    (consume_loop PathComponents.s_end (path_components_round c) 6 (state m) false).

Definition consume_char_whitespace (m : move_word_state_machine_t) (c : wchar) :=
  finish_consume m
    (consume_loop Whitespace.s_end (whitespace_round c) 4 (state m) false).

Definition consume_char (m : move_word_state_machine_t) (c : wchar)
    : move_word_state_machine_t * bool :=
  match style m with
  | move_word_style_punctuation => consume_char_punctuation m c
  | move_word_style_path_components => consume_char_path_components m c
  | move_word_style_whitespace => consume_char_whitespace m c
  end.

(** The machine after [consume_char] on each character of [cs] in turn. *)
Fixpoint consume_chars (m : move_word_state_machine_t) (cs : list wchar)
    : move_word_state_machine_t :=
  match cs with
  | [] => m
  | c :: cs' => consume_chars (fst (consume_char m c)) cs'
  end.

(** The last state of each enumeration. *)
Definition s_end_of (syl : move_word_style_t) : Z :=
  match syl with
  | move_word_style_punctuation => Punctuation.s_end
  | move_word_style_path_components => PathComponents.s_end
  | move_word_style_whitespace => Whitespace.s_end
  end.

Definition round_of (syl : move_word_style_t) (c : wchar) : Z -> bool -> Z * bool :=
  match syl with
  | move_word_style_punctuation => punctuation_round c
  | move_word_style_path_components => path_components_round c
  | move_word_style_whitespace => whitespace_round c
  end.

End WordMotion.

(** * The vocabulary of the statements

    What the facts below say of the model, in definitions of their own. *)

(** A [switch] that is forward: from a state before the last and with nothing
    consumed, it either consumes and stays below the last state or moves to a
    strictly later state. *)
Definition forward_round (s_end : Z) (round : Z -> bool -> Z * bool) : Prop :=
  forall st, 0 <= st < s_end ->
    let '(st', consumed') := round st false in
    st' <= s_end /\ (if consumed' then st <= st' else st < st').

(** A machine whose state is one of its style's enumeration. *)
Definition valid_machine (m : move_word_state_machine_t) : Prop :=
  0 <= state m <= s_end_of (style m).

(** The redirection kinds and [TOK_PIPE]: what the reader reports when it
    consumed something. *)
Definition is_redirection_or_pipe (mode : token_type) : bool :=
  match mode with
  | TOK_REDIRECT_OUT | TOK_REDIRECT_APPEND | TOK_REDIRECT_IN
  | TOK_REDIRECT_FD | TOK_REDIRECT_NOCLOB | TOK_PIPE => true
  | _ => false
  end.

(** The cursor is inside the buffer or on its terminating NUL. *)
Definition in_bounds (t : tokenizer_t) : Prop :=
  (buff t <= List.length (start t))%nat.

(** The buffer and the flags of [t'] are those of [t]. *)
Definition same_setup (t t' : tokenizer_t) : Prop :=
  start t' = start t
  /\ accept_unfinished t' = accept_unfinished t
  /\ show_comments t' = show_comments t
  /\ show_blank_lines t' = show_blank_lines t
  /\ squash_errors t' = squash_errors t.

(** The token [next] builds from a tokenizer whose [tok_next] returned
    true. *)
Definition token_of (t : tokenizer_t) : tok_t :=
  let is_error := token_type_eqb (last_type t) TOK_ERROR in
  {| Tok.text := last_token t;
     Tok.type := last_type t;
     Tok.offset := last_pos t;
     Tok.error := if is_error then error t else TOK_ERROR_NONE;
     Tok.error_offset :=
       if is_error && (Z.of_nat (last_pos t) <=? global_error_offset t)
                   && (global_error_offset t <? Z.of_nat (buff t))
       then Z.to_nat (global_error_offset t - Z.of_nat (last_pos t))
       else O;
     Tok.length := if (last_pos t <=? buff t)%nat
                   then (buff t - last_pos t)%nat else O |}.

(** The tokenizer as [tok_next] has it when it reaches its [switch] without
    having skipped anything. *)
Definition at_token (t : tokenizer_t) : tokenizer_t :=
  set_last_pos (set_continue_line_after_comment t false) (buff t).

(** The number that a run of decimal digits writes, on top of [acc]. *)
Definition fd_value (acc : Z) (ds : list wchar) : Z :=
  fold_left (fun a c => a * 10 + (c - c_zero)) ds acc.

(** The number that a run of decimal digits writes. *)
Definition decimal_value (ds : list wchar) : Z := fd_value 0 ds.

(** What the reader makes of it as an [int]: the number, or -1 when the
    number does not fit. *)
Definition saturated_fd (ds : list wchar) : Z :=
  if decimal_value ds >? INT_MAX then -1 else decimal_value ds.

(** The text of the first String token of a list of tokens, empty when there
    is none: what the spec says [tok_first] returns. *)
Definition first_string_text (tokens : list tok_t) : wcstring :=
  match find (fun tok => token_type_eqb (Tok.type tok) TOK_STRING) tokens with
  | Some tok => Tok.text tok
  | None => []
  end.

(** The characters that the string scanner passes in regular text without
    changing mode: string characters other than the backslash, the opening
    parenthesis and bracket, and the two quotes. *)
Definition ordinary (c : wchar) : bool :=
  tok_is_string_character c false
  && negb ((c =? c_backslash) || (c =? c_lparen) || (c =? c_lbracket)
           || (c =? c_squote) || (c =? c_dquote)).

(** Reduce the projections of an updated tokenizer, and nothing else. *)
Ltac fields :=
  cbn [buff start last_token last_type last_pos has_next accept_unfinished
       show_comments show_blank_lines error global_error_offset squash_errors
       continue_line_after_comment set_buff set_last set_last_pos set_has_next
       set_continue_line_after_comment call_error] in *.

Section Vocabulary.
Context {LC : wctype}.

(** The text of a redirection token, or of a pipe with an fd: the decimal of
    the fd that the redirection reader returns where the token starts, the
    reader having consumed what the token covers and reported its kind. *)
Definition redirect_text (t : tokenizer_t) : Prop :=
  exists fd,
    read_redirection_or_fd_pipe (skipn (last_pos t) (start t))
      = ((buff t - last_pos t)%nat, last_type t, fd)
    /\ last_token t = to_string fd.

(** What the token in [last_token], [last_type], [last_pos] and the cursor is
    once [tok_next] has returned true: the token lies inside the buffer, and
    its text is related to the characters of the buffer it covers according to
    its kind.  [covered] is the number of those characters. *)
Definition token_well_formed (t : tokenizer_t) : Prop :=
  (last_pos t <= buff t <= List.length (start t))%nat /\
  let covered := (buff t - last_pos t)%nat in
  match last_type t with
  | TOK_STRING =>
      last_token t = firstn covered (skipn (last_pos t) (start t))
  | TOK_COMMENT =>
      last_token t = firstn (List.length (last_token t)) (skipn (last_pos t) (start t))
      /\ (List.length (last_token t) <= covered <= S (List.length (last_token t)))%nat
      /\ wat (start t) (last_pos t) = c_hash
  | TOK_END =>
      last_token t = [wat (start t) (last_pos t)]
      /\ (1 <= covered)%nat
      /\ (show_blank_lines t = true -> covered = 1%nat)
  | TOK_BACKGROUND =>
      wat (start t) (last_pos t) = c_amp /\ covered = 1%nat
  | TOK_PIPE =>
      (wat (start t) (last_pos t) = c_pipe /\ last_token t = L "1" /\ covered = 1%nat)
      \/ redirect_text t
  | TOK_REDIRECT_OUT | TOK_REDIRECT_APPEND | TOK_REDIRECT_IN
  | TOK_REDIRECT_FD | TOK_REDIRECT_NOCLOB =>
      redirect_text t
  | TOK_ERROR =>
      last_token t = (if squash_errors t then [] else error_message (error t) [])
      /\ error t <> TOK_ERROR_NONE
      /\ has_next t = false
  | TOK_NONE => False
  end.

(** C1 as the spec words it: the text of every token is the source it covers,
    but for a bare pipe (text 1), a background token (no text) and an error
    token when errors are not squashed (the message). *)
Definition text_is_source_but_for_listed (src : wcstring) (flags : tok_flags_t)
    (tok : tok_t) : Prop :=
  (Tok.offset tok + Tok.length tok <= List.length src)%nat /\
  let covered := firstn (Tok.length tok) (skipn (Tok.offset tok) src) in
  Tok.text tok = covered
  \/ (Tok.type tok = TOK_PIPE /\ covered = [c_pipe] /\ Tok.text tok = L "1")
  \/ (Tok.type tok = TOK_BACKGROUND /\ Tok.text tok = [])
  \/ (Tok.type tok = TOK_ERROR /\ TOK_SQUASH_ERRORS flags = false
      /\ Tok.text tok = error_message (Tok.error tok) []).

End Vocabulary.

(** [scans_to buff_start t v t' v']: from the tokenizer [t] and the locals
    [v], rounds of the loop of [read_string] that all go on to a next round
    lead to [t'] and [v']. *)
Inductive scans_to {LC : wctype} (buff_start : nat)
    : tokenizer_t -> rs_locals -> tokenizer_t -> rs_locals -> Prop :=
| scans_here (t : tokenizer_t) (v : rs_locals) :
    scans_to buff_start t v t v
| scans_round (t : tokenizer_t) (v : rs_locals) (t1 : tokenizer_t) (v1 : rs_locals)
    (t2 : tokenizer_t) (v2 : rs_locals) :
    read_string_round buff_start t v = rs_again t1 v1 ->
    scans_to buff_start t1 v1 t2 v2 ->
    scans_to buff_start t v t2 v2.

(** ** The vocabulary of the further properties *)

Definition comments_flags : tok_flags_t :=
  {| TOK_ACCEPT_UNFINISHED := false; TOK_SHOW_COMMENTS := true;
     TOK_SQUASH_ERRORS := false; TOK_SHOW_BLANK_LINES := false |}.

(** The flags [flags] with unfinished input accepted. *)
Definition accepting_unfinished (flags : tok_flags_t) : tok_flags_t :=
  {| TOK_ACCEPT_UNFINISHED := true;
     TOK_SHOW_COMMENTS := TOK_SHOW_COMMENTS flags;
     TOK_SQUASH_ERRORS := TOK_SQUASH_ERRORS flags;
     TOK_SHOW_BLANK_LINES := TOK_SHOW_BLANK_LINES flags |}.

(** The tokenizer [t], but one that accepts unfinished input. *)
Definition unfinished (t : tokenizer_t) : tokenizer_t :=
  {| buff := buff t; start := start t; last_token := last_token t;
     last_type := last_type t; last_pos := last_pos t; has_next := has_next t;
     accept_unfinished := true;
     show_comments := show_comments t; show_blank_lines := show_blank_lines t;
     error := error t; global_error_offset := global_error_offset t;
     squash_errors := squash_errors t;
     continue_line_after_comment := continue_line_after_comment t |}.

Definition in_subshell (m : tok_mode_t) : bool :=
  match m with
  | mode_subshell | mode_array_brackets_and_subshell => true
  | _ => false
  end.

Definition in_brackets (m : tok_mode_t) : bool :=
  match m with
  | mode_array_brackets | mode_array_brackets_and_subshell => true
  | _ => false
  end.

(** What the loop of [read_string] keeps true of its locals, for a token that
    started at [buff_start]: inside a subshell the count of open parentheses
    is positive (the source asserts it) and each offset recorded for one of
    them is the place of an opening parenthesis that the cursor has passed;
    inside array brackets [offset_of_bracket] is the place of the opening
    bracket, which the cursor has passed; the array of offsets keeps its
    size. *)
Definition locals_ok (buff_start : nat) (t : tokenizer_t) (v : rs_locals) : Prop :=
  (buff_start <= buff t)%nat
  /\ List.length (paran_offsets v) = paran_offsets_max
  /\ (in_subshell (mode v) = true ->
      (1 <= paran_count v)%nat
      /\ forall i, (i < paran_count v)%nat -> (i < paran_offsets_max)%nat ->
           (buff_start <= nth i (paran_offsets v) O < buff t)%nat
           /\ wat (start t) (nth i (paran_offsets v) O) = c_lparen)
  /\ (in_brackets (mode v) = true ->
      (buff_start <= offset_of_bracket v < buff t)%nat
      /\ wat (start t) (offset_of_bracket v) = c_lbracket).

(** The loop of [read_string] has stopped only on the terminating NUL that
    follows a trailing backslash. *)
Definition stopped_ok (t : tokenizer_t) (v : rs_locals) : Prop :=
  do_loop v = false -> cur t = c_nul.

(** What [call_error] is called with from inside the loop of [read_string]:
    an unterminated escape, at a backslash, or an unterminated quote, at a
    quote character. *)
Definition raised_in_loop (e : tokenizer_error) (c : wchar) : Prop :=
  (e = TOK_UNTERMINATED_ESCAPE /\ c = c_backslash)
  \/ (e = TOK_UNTERMINATED_QUOTE /\ (c = c_squote \/ c = c_dquote)).


(** The characters that the string scanner passes inside a subshell without
    looking further: all but the backslash, the parentheses, the quotes and
    the NUL. *)
Definition plain_in_subshell (c : wchar) : bool :=
  negb ((c =? c_backslash) || (c =? c_lparen) || (c =? c_rparen)
        || (c =? c_squote) || (c =? c_dquote) || (c =? c_nul)).

(** The number of leading characters of [cs] that the machine consumes, fed
    one after the other, before it first refuses one. *)
Fixpoint consumed_run {LC : wctype} (m : move_word_state_machine_t)
    (cs : list wchar) : nat :=
  match cs with
  | [] => O
  | c :: cs' =>
      if snd (consume_char m c)
      then S (consumed_run (fst (consume_char m c)) cs')
      else O
  end.

(** The text that [tok_next] passes without making a token of it: blanks,
    escaped newlines, comments, and the newline after a comment. *)
Inductive skipped {LC : wctype} : wcstring -> Prop :=
| skipped_nothing : skipped []
| skipped_blank (c : wchar) (s : wcstring) :
    iswspace_not_nl c = true -> skipped s -> skipped (c :: s)
| skipped_escaped_newline (s : wcstring) :
    skipped s -> skipped (c_backslash :: c_nl :: s)
| skipped_comment (body s : wcstring) :
    forallb not_end_of_line body = true -> skipped s ->
    skipped (c_hash :: body ++ s)
| skipped_comment_and_newline (body s : wcstring) :
    forallb not_end_of_line body = true -> skipped s ->
    skipped (c_hash :: body ++ c_nl :: s).

(** * Facts about the word-motion state machines *)

Section WordMotionFacts.
Context {LC : wctype}.

Lemma consume_loop_more_fuel (s_end : Z) (round : Z -> bool -> Z * bool) :
  forall fuel st consumed r,
    consume_loop s_end round fuel st consumed = Some r ->
    consume_loop s_end round (S fuel) st consumed = Some r.
Proof.
  induction fuel as [|fuel IH]; intros st consumed r H.
  - simpl in *. destruct (negb (st =? s_end) && negb consumed); [discriminate|exact H].
  - change (consume_loop s_end round (S (S fuel)) st consumed)
      with (if negb (st =? s_end) && negb consumed
            then let '(st', consumed') := round st consumed in
                 consume_loop s_end round (S fuel) st' consumed'
            else Some (st, consumed)).
    change (consume_loop s_end round (S fuel) st consumed)
      with (if negb (st =? s_end) && negb consumed
            then let '(st', consumed') := round st consumed in
                 consume_loop s_end round fuel st' consumed'
            else Some (st, consumed)) in H.
    destruct (negb (st =? s_end) && negb consumed); [|exact H].
    destruct (round st consumed) as [st' consumed']. apply IH, H.
Qed.

(** With a forward [switch] the loop ends within one round per remaining
    state and one more, at a state that is not earlier, and when nothing was
    consumed that state is the last one. *)
Lemma consume_loop_total (s_end : Z) (round : Z -> bool -> Z * bool) :
  forward_round s_end round ->
  forall fuel st,
    0 <= st <= s_end -> (Z.to_nat (s_end - st) < fuel)%nat ->
    exists st' consumed,
      consume_loop s_end round fuel st false = Some (st', consumed)
      /\ st <= st' <= s_end
      /\ (consumed = false -> st' = s_end).
Proof.
  intros Hfwd. induction fuel as [|fuel IH]; intros st Hst Hfuel; [lia|].
  simpl. destruct (Z.eqb_spec st s_end) as [-> | Hne]; simpl.
  - exists s_end, false. repeat split; lia.
  - specialize (Hfwd st ltac:(lia)).
    destruct (round st false) as [st' [|]]; destruct Hfwd as [Hle Hstep].
    + exists st', true.
      destruct fuel; simpl; rewrite andb_false_r;
        repeat split; try lia; discriminate.
    + destruct (IH st' ltac:(lia) ltac:(lia)) as (st'' & b & Hrun & Hrange & Hend).
      exists st'', b. repeat split; try lia; assumption.
Qed.

Lemma punctuation_round_forward (c : wchar) :
  forward_round Punctuation.s_end (punctuation_round c).
Proof.
  intros st Hst. unfold punctuation_round.
  assert (st = 0 \/ st = 1 \/ st = 2) as [-> | [-> | ->]] by lia; simpl;
    try destruct (iswspace c); try destruct (iswalnum c); lia.
Qed.

Lemma path_components_round_forward (c : wchar) :
  forward_round PathComponents.s_end (path_components_round c).
Proof.
  intros st Hst. unfold path_components_round.
  assert (st = 0 \/ st = 1 \/ st = 2 \/ st = 3 \/ st = 4) as [-> | [-> | [-> | [-> | ->]]]] by lia;
    simpl;
    destruct (iswspace c); destruct (is_path_component_character c);
    destruct (c =? 47); simpl; lia.
Qed.

Lemma whitespace_round_forward (c : wchar) :
  forward_round Whitespace.s_end (whitespace_round c).
Proof.
  intros st Hst. unfold whitespace_round.
  assert (st = 0 \/ st = 1 \/ st = 2) as [-> | [-> | ->]] by lia; simpl;
    try destruct (iswblank c); try destruct (iswgraph c); lia.
Qed.

Lemma round_of_forward (syl : move_word_style_t) (c : wchar) :
  forward_round (s_end_of syl) (round_of syl c).
Proof.
  destruct syl; simpl.
  - apply punctuation_round_forward.
  - apply path_components_round_forward.
  - apply whitespace_round_forward.
Qed.

Lemma consume_char_unfold (m : move_word_state_machine_t) (c : wchar) :
  exists fuel,
    (Z.to_nat (s_end_of (style m)) < fuel)%nat /\
    consume_char m c =
    finish_consume m (consume_loop (s_end_of (style m)) (round_of (style m) c)
                        fuel (state m) false).
Proof.
  unfold consume_char. destruct (style m); simpl.
  - exists 4%nat. split; [simpl; lia|reflexivity].
  - exists 6%nat. split; [simpl; lia|reflexivity].
  - exists 4%nat. split; [simpl; lia|reflexivity].
Qed.

Lemma consume_char_forward (m : move_word_state_machine_t) (c : wchar) :
  valid_machine m ->
  valid_machine (fst (consume_char m c))
  /\ style (fst (consume_char m c)) = style m
  /\ state m <= state (fst (consume_char m c))
  /\ (snd (consume_char m c) = false ->
      state (fst (consume_char m c)) = s_end_of (style m)).
Proof.
  intros Hv. destruct (consume_char_unfold m c) as (fuel & Hfuel & ->).
  destruct (consume_loop_total _ _ (round_of_forward (style m) c) fuel (state m) Hv
              ltac:(unfold valid_machine in Hv; lia))
    as (st' & b & -> & Hrange & Hend).
  unfold valid_machine in *. simpl. repeat split; try lia; exact Hend.
Qed.

Lemma consume_char_at_end (m : move_word_state_machine_t) (c : wchar) :
  state m = s_end_of (style m) ->
  snd (consume_char m c) = false
  /\ state (fst (consume_char m c)) = state m
  /\ style (fst (consume_char m c)) = style m.
Proof.
  destruct m as [st sy]. simpl. intros ->.
  unfold consume_char, consume_char_punctuation,
    consume_char_path_components, consume_char_whitespace.
  destruct sy; simpl; auto.
Qed.

Lemma consume_chars_valid (cs : list wchar) :
  forall m, valid_machine m ->
    valid_machine (consume_chars m cs) /\ style (consume_chars m cs) = style m.
Proof.
  induction cs as [|c cs IH]; intros m Hv; simpl; [auto|].
  destruct (consume_char_forward m c Hv) as (Hv' & Hs & _).
  destruct (IH _ Hv') as [Hv'' Hs'']. split; [assumption|congruence].
Qed.

Lemma consume_chars_at_end (cs : list wchar) :
  forall m, state m = s_end_of (style m) ->
    state (consume_chars m cs) = s_end_of (style (consume_chars m cs)).
Proof.
  induction cs as [|c cs IH]; intros m He; simpl; [assumption|].
  destruct (consume_char_at_end m c He) as (_ & Hst & Hsy).
  apply IH. congruence.
Qed.

Lemma fresh_machine_valid (syl : move_word_style_t) :
  valid_machine (move_word_state_machine syl).
Proof. unfold valid_machine. destruct syl; simpl; lia. Qed.

(** C9.  For each of the three styles, after any sequence of [consume_char]
    calls on a fresh machine (no reset in between), one more call leaves the
    state where it was or at a later state of the enumeration; and when that
    call returns false, every later call returns false too, whatever
    characters are consumed in between. *)
Theorem word_motion_states_only_move_forward :
  forall (syl : move_word_style_t) (cs : list wchar) (c : wchar),
    let m := consume_chars (move_word_state_machine syl) cs in
    state m <= state (fst (consume_char m c))
    /\ (snd (consume_char m c) = false ->
        forall (cs' : list wchar) (c' : wchar),
          snd (consume_char (consume_chars (fst (consume_char m c)) cs') c') = false).
Proof.
  intros syl cs c m.
  destruct (consume_chars_valid cs _ (fresh_machine_valid syl)) as [Hv Hs].
  fold m in Hv, Hs.
  destruct (consume_char_forward m c Hv) as (Hv' & Hs' & Hle & Hend).
  split; [exact Hle|].
  intros Hfalse cs' c'.
  apply consume_char_at_end, consume_chars_at_end.
  rewrite Hs'. apply Hend, Hfalse.
Qed.

End WordMotionFacts.

(** * Facts about buffers and scanning *)

Lemma wat_nonzero (s : wcstring) (i : nat) :
  wat s i <> c_nul -> (i < List.length s)%nat.
Proof.
  intros H. destruct (Nat.lt_ge_cases i (List.length s)) as [Hlt|Hge]; [assumption|].
  exfalso. apply H. unfold wat. apply nth_overflow. assumption.
Qed.

Lemma wat_skipn (s : wcstring) (n i : nat) :
  wat (skipn n s) i = wat s (n + i).
Proof.
  unfold wat. revert s. induction n as [|n IH]; intros s; simpl; [reflexivity|].
  destruct s as [|c s]; simpl; [destruct i; reflexivity|apply IH].
Qed.

Lemma cur_rest (t : tokenizer_t) : wat (rest t) 0 = cur t.
Proof. unfold rest, cur. rewrite wat_skipn, Nat.add_0_r. reflexivity. Qed.

Lemma rest_cons (t : tokenizer_t) :
  cur t <> c_nul -> exists s', rest t = cur t :: s'.
Proof.
  intros H. rewrite <- cur_rest in *. destruct (rest t) as [|c s'].
  - exfalso. apply H. reflexivity.
  - exists s'. reflexivity.
Qed.

Lemma length_rest (t : tokenizer_t) :
  List.length (rest t) = (List.length (start t) - buff t)%nat.
Proof. unfold rest. apply length_skipn. Qed.

Lemma scan_while_le (p : wchar -> bool) (s : wcstring) :
  (scan_while p s <= List.length s)%nat.
Proof. induction s as [|c s IH]; simpl; [lia|]. destruct (p c); simpl; lia. Qed.

(** Where a scan stops, the predicate is false. *)
Lemma scan_while_stop (p : wchar -> bool) (s : wcstring) :
  p c_nul = false -> p (wat s (scan_while p s)) = false.
Proof.
  intros H0. induction s as [|c s IH]; simpl; [exact H0|].
  destruct (p c) eqn:E; simpl; [exact IH|exact E].
Qed.

Lemma wcslen_le (s : wcstring) : (wcslen s <= List.length s)%nat.
Proof. induction s as [|c s IH]; simpl; [lia|]. destruct (c =? 0); simpl; lia. Qed.

Lemma wcslen_stop (s : wcstring) : wat s (wcslen s) = c_nul.
Proof.
  induction s as [|c s IH]; simpl; [reflexivity|].
  destruct (Z.eqb_spec c 0) as [-> | Hne]; simpl; [reflexivity|exact IH].
Qed.

(** The closing quote lies after the opening one and inside the buffer. *)
Lemma quote_scan_bounds (q : wchar) :
  forall (n : nat) (s : wcstring) (pos e : nat),
    (List.length s <= n)%nat ->
    quote_scan q s pos = Some e -> (pos <= e < pos + List.length s)%nat.
Proof.
  induction n as [|n IH]; intros s pos e Hn H.
  - destruct s; simpl in *; [discriminate|lia].
  - destruct s as [|c s]; simpl in *; [discriminate|].
    destruct (c =? 0); [discriminate|].
    destruct (c =? 92).
    + destruct s as [|d s]; [discriminate|].
      destruct (d =? 0); [discriminate|].
      apply IH in H; simpl in *; lia.
    + destruct (c =? q).
      * inversion H; subst. lia.
      * apply IH in H; lia.
Qed.

Lemma quote_end_bounds (s : wcstring) (e : nat) :
  quote_end s = Some e -> (0 < e < List.length s)%nat.
Proof.
  unfold quote_end. destruct s as [|q s]; [discriminate|]. intros H.
  apply (quote_scan_bounds q (List.length s)) in H; simpl; lia.
Qed.

Section ScanFacts.
Context {LC : wctype}.

Lemma iswspace_not_nl_nul : iswspace_not_nl c_nul = false.
Proof. unfold iswspace_not_nl. simpl. apply iswspace_nul. Qed.

Lemma iswspace_not_nl_ascii_graph (c : wchar) :
  33 <= c <= 126 -> iswspace_not_nl c = false.
Proof.
  intros H. unfold iswspace_not_nl. pose proof (iswspace_ascii_graph c H) as Hs.
  destruct (Z.eqb_spec c 32); [lia|]. destruct (Z.eqb_spec c 9); [lia|].
  destruct (Z.eqb_spec c 13); [lia|]. destruct (Z.eqb_spec c 10); [lia|].
  simpl. exact Hs.
Qed.

Lemma iswspace_not_nl_digit (c : wchar) :
  iswdigit c = true -> iswspace_not_nl c = false.
Proof.
  intros H. apply iswspace_not_nl_ascii_graph.
  unfold iswdigit in H. apply andb_true_iff in H. destruct H as [H1 H2].
  apply Z.leb_le in H1. apply Z.leb_le in H2. lia.
Qed.

Lemma skip_blanks_le :
  forall (n : nat) (s : wcstring),
    (List.length s <= n)%nat -> (fst (skip_blanks s) <= List.length s)%nat.
Proof.
  induction n as [|n IH]; intros s Hn.
  - destruct s; simpl in *; lia.
  - destruct s as [|c s]; simpl in *; [lia|].
    destruct ((c =? 92) && (wat s 0 =? 10)).
    + destruct s as [|d s]; simpl; [lia|].
      specialize (IH s ltac:(simpl in Hn; lia)).
      destruct (skip_blanks s) as [k b]. simpl in *. lia.
    + destruct (iswspace_not_nl c); simpl; [|lia].
      specialize (IH s ltac:(lia)).
      destruct (skip_blanks s) as [k b]. simpl in *. lia.
Qed.

End ScanFacts.

(** ** The redirection reader *)

Lemma read_fd_digits_le :
  forall (s : wcstring) (acc : Z),
    (fst (read_fd_digits s acc) <= List.length s)%nat.
Proof.
  induction s as [|c s IH]; intros acc; simpl; [lia|].
  destruct (iswdigit c); simpl; [|lia].
  specialize (IH (if acc <=? INT_MAX then acc * 10 + (c - 48) else acc)).
  destruct (read_fd_digits s _) as [k r]. simpl in *. lia.
Qed.

Lemma read_redirection_or_fd_pipe_bounds (s : wcstring) :
  let '(consumed, mode, fd) := read_redirection_or_fd_pipe s in
  (consumed <= List.length s)%nat
  /\ (if (consumed =? 0)%nat then mode = TOK_NONE else is_redirection_or_pipe mode = true).
Proof.
  unfold read_redirection_or_fd_pipe.
  pose proof (read_fd_digits_le s 0) as Hd.
  destruct (read_fd_digits s 0) as [idx big_fd]. simpl in Hd.
  assert (Hnz : forall i c, wat s i = c -> c <> 0 -> (i < List.length s)%nat).
  { intros i c <- Hc. apply wat_nonzero, Hc. }
  cbv zeta.
  repeat (match goal with
  | |- context [Z.eqb ?a ?b] => destruct (Z.eqb_spec a b)
  | |- context [Nat.eqb ?a ?b] => destruct (Nat.eqb_spec a b)
  | |- context [Z.gtb ?a ?b] => destruct (Z.gtb a b)
  end; cbn [andb orb]; cbv beta iota zeta).
  all: repeat match goal with
       | H : wat _ ?i = ?c, H' : wat _ ?j = wat _ ?i |- _ => rewrite H in H'
       end.
  all: repeat match goal with
       | H : wat _ ?i = _, Hnz : forall i c, _ -> _ -> _ |- _ => apply Hnz in H; [|lia]
       end.
  all: split; try reflexivity; try lia.
Qed.

(** * Facts about the tokenizer *)

Section StringScanner.
Context {LC : wctype}.

Lemma set_buff_same (t : tokenizer_t) : set_buff t (buff t) = t.
Proof. destruct t; reflexivity. Qed.

Lemma cur_nonzero_lt (t : tokenizer_t) :
  cur t <> c_nul -> (buff t < List.length (start t))%nat.
Proof. apply wat_nonzero. Qed.

Lemma myal_nonzero (c : wchar) : myal c = true -> c <> c_nul.
Proof. intros H ->. discriminate. Qed.

Lemma tok_is_string_character_nonzero (c : wchar) (b : bool) :
  tok_is_string_character c b = true -> c <> c_nul.
Proof. intros H ->. discriminate. Qed.

(** ** The string scanner *)

Lemma rs_quote_spec (t : tokenizer_t) (v : rs_locals) :
  cur t <> c_nul ->
  match rs_quote t v with
  | (t', Some v') =>
      exists b', t' = set_buff t b' /\ (buff t <= b' <= List.length (start t))%nat
                 /\ (do_loop v' = true -> (b' < List.length (start t))%nat)
  | (t', None) =>
      accept_unfinished t = false /\
      exists b', t' = call_error (set_buff t b') TOK_UNTERMINATED_QUOTE (Some (buff t))
                 /\ (buff t < b' <= List.length (start t))%nat
  end.
Proof.
  intros Hc. pose proof (cur_nonzero_lt t Hc) as Hlt.
  unfold rs_quote. pose proof (length_rest t) as Hlen.
  destruct (quote_end (rest t)) as [e|] eqn:Eq.
  - apply quote_end_bounds in Eq. eexists; split; [reflexivity|]. lia.
  - pose proof (wcslen_le (rest t)) as Hw.
    assert (0 < wcslen (rest t))%nat as Hpos.
    { destruct (rest_cons t Hc) as [s' ->]. simpl.
      destruct (Z.eqb_spec (cur t) 0); [contradiction|lia]. }
    simpl. destruct (accept_unfinished t); simpl.
    + eexists; split; [reflexivity|]. split; [lia|discriminate].
    + split; [reflexivity|]. eexists; split; [reflexivity|]. lia.
Qed.

Lemma rs_switch_spec (buff_start : nat) (t : tokenizer_t) (v : rs_locals) :
  match rs_switch buff_start t v with
  | (t', Some v') =>
      exists b', t' = set_buff t b' /\ (buff t <= b')%nat
                 /\ (in_bounds t -> (b' <= List.length (start t))%nat)
                 /\ (do_loop v' = true -> (b' < List.length (start t))%nat)
  | (t', None) =>
      accept_unfinished t = false /\
      exists b', t' = call_error (set_buff t b') TOK_UNTERMINATED_QUOTE (Some (buff t))
                 /\ (buff t < b' <= List.length (start t))%nat
  end.
Proof.
  assert (Hq : forall c, (c =? 39) || (c =? 34) = true -> c <> 0).
  { intros c H ->. discriminate. }
  assert (Hstay : forall v', (do_loop v' = true -> cur t <> 0) ->
            exists b', t = set_buff t b' /\ (buff t <= b')%nat
                 /\ (in_bounds t -> (b' <= List.length (start t))%nat)
                 /\ (do_loop v' = true -> (b' < List.length (start t))%nat)).
  { intros v' Hnz. exists (buff t). rewrite set_buff_same.
    repeat split; auto. intros. apply cur_nonzero_lt; auto. }
  assert (Hquote :
    cur t <> 0 ->
    match rs_quote t v with
    | (t', Some v') =>
      exists b', t' = set_buff t b' /\ (buff t <= b')%nat
                 /\ (in_bounds t -> (b' <= List.length (start t))%nat)
                 /\ (do_loop v' = true -> (b' < List.length (start t))%nat)
    | (t', None) =>
      accept_unfinished t = false /\
      exists b', t' = call_error (set_buff t b') TOK_UNTERMINATED_QUOTE (Some (buff t))
                 /\ (buff t < b' <= List.length (start t))%nat
    end).
  { intros Hc. pose proof (rs_quote_spec t v Hc) as H.
    destruct (rs_quote t v) as [t' [v'|]]; [|exact H].
    destruct H as (b' & -> & Hb & Hd). exists b'. repeat split; auto; lia. }
  unfold rs_switch.
  destruct (mode v);
    repeat match goal with
    | |- context [if (?c =? 39) || (?c =? 34) then _ else _] =>
        let E := fresh "E" in
        destruct ((c =? 39) || (c =? 34)) eqn:E; [apply Hquote, Hq, E|]
    | |- context [if Z.eqb ?a ?b then _ else _] => destruct (Z.eqb_spec a b)
    | |- context [if negb ?b then _ else _] => destruct b eqn:?; cbn [negb]
    | |- context [if Nat.eqb ?a ?b then _ else _] => destruct (Nat.eqb a b)
    | |- context [if Nat.ltb ?a ?b then _ else _] => destruct (Nat.ltb a b)
    end;
    apply Hstay; simpl; intros;
    first [congruence | lia | eapply tok_is_string_character_nonzero; eassumption].
Qed.

Lemma rs_round_end_spec (t : tokenizer_t) (v : rs_locals) :
  (do_loop v = true -> (buff t < List.length (start t))%nat) ->
  match rs_round_end t v with
  | rs_again t' v' =>
      exists b', t' = set_buff t b' /\ (buff t < b' <= List.length (start t))%nat
  | rs_break t' v' => t' = t
  | rs_return _ => False
  end.
Proof.
  intros H. unfold rs_round_end. destruct (do_loop v); simpl; [|reflexivity].
  eexists; split; [reflexivity|]. specialize (H eq_refl). lia.
Qed.

(** One round: the cursor moves forward and stays inside the buffer; nothing
    else of the tokenizer changes unless an error is raised. *)
Lemma read_string_round_spec (buff_start : nat) (t : tokenizer_t) (v : rs_locals) :
  match read_string_round buff_start t v with
  | rs_again t' v' =>
      exists b', t' = set_buff t b' /\ (buff t < b' <= List.length (start t))%nat
  | rs_break t' v' =>
      exists b', t' = set_buff t b' /\ (buff t <= b')%nat
                 /\ (in_bounds t -> (b' <= List.length (start t))%nat)
  | rs_return t' =>
      accept_unfinished t = false /\
      exists b' e w, t' = call_error (set_buff t b') e (Some w)
                 /\ e <> TOK_ERROR_NONE
                 /\ (buff t < b' <= List.length (start t))%nat
  end.
Proof.
  unfold read_string_round.
  destruct (myal (cur t)) eqn:Ea; cbn [negb].
  - pose proof (rs_round_end_spec t v) as H.
    specialize (H (fun _ => cur_nonzero_lt t (myal_nonzero _ Ea))).
    destruct (rs_round_end t v) as [t'|t' v'|t' v']; [contradiction| |exact H].
    subst t'. exists (buff t). rewrite set_buff_same. auto.
  - destruct (Z.eqb_spec (cur t) 92) as [Eb|Eb].
    + assert (buff t < List.length (start t))%nat as Hlt
          by (apply cur_nonzero_lt; lia).
      cbv zeta.
      destruct (Z.eqb_spec (cur (set_buff t (S (buff t)))) 0) as [En|En].
      * simpl. destruct (accept_unfinished t) eqn:Eu; simpl.
        -- exists (S (buff t)). split; [|lia].
           unfold set_buff; simpl. rewrite Nat.sub_0_r. reflexivity.
        -- split; [reflexivity|].
           exists (S (buff t)), TOK_UNTERMINATED_ESCAPE, (buff t).
           split; [reflexivity|]. split; [discriminate|lia].
      * apply cur_nonzero_lt in En. simpl in En.
        eexists; split; [reflexivity|]. simpl. lia.
    + pose proof (rs_switch_spec buff_start t v) as H.
      destruct (rs_switch buff_start t v) as [t' [v'|]].
      * destruct H as (b' & -> & Hle & Hin & Hdo).
        pose proof (rs_round_end_spec (set_buff t b') v') as H.
        unfold rs_round_end in *.
        destruct (do_loop v') eqn:Ed; cbn [negb] in *.
        -- specialize (Hdo eq_refl). simpl.
           eexists; split; [reflexivity|]. lia.
        -- exists b'. auto.
      * destruct H as (Hu & b' & -> & Hb). split; [exact Hu|].
        exists b', TOK_UNTERMINATED_QUOTE, (buff t).
        split; [reflexivity|]. split; [discriminate|lia].
Qed.

(** The loop ends within its fuel: [read_string] never takes the branch for
    [None]. *)
Lemma read_string_loop_total (buff_start : nat) :
  forall (fuel : nat) (t : tokenizer_t) (v : rs_locals),
    (List.length (start t) - buff t < fuel)%nat ->
    exists t' r,
      read_string_loop fuel buff_start t v = Some (t', r) /\
      match r with
      | Some v' =>
          exists b', t' = set_buff t b' /\ (buff t <= b')%nat
                     /\ (in_bounds t -> (b' <= List.length (start t))%nat)
      | None =>
          accept_unfinished t = false /\
          exists b' e w, t' = call_error (set_buff t b') e (Some w)
                     /\ e <> TOK_ERROR_NONE
                     /\ (buff t < b' <= List.length (start t))%nat
      end.
Proof.
  induction fuel as [|fuel IH]; intros t v Hfuel; [lia|].
  simpl. pose proof (read_string_round_spec buff_start t v) as H.
  destruct (read_string_round buff_start t v) as [t1|t1 v1|t1 v1].
  - exists t1, None. split; [reflexivity|exact H].
  - exists t1, (Some v1). split; [reflexivity|exact H].
  - destruct H as (b1 & -> & Hb1).
    destruct (IH (set_buff t b1) v1 ltac:(simpl; lia)) as (t' & r & Hrun & Hr).
    exists t', r. split; [exact Hrun|].
    destruct r as [v'|]; simpl in Hr.
    + destruct Hr as (b' & -> & Hle & Hin). exists b'.
      split; [reflexivity|]. split; [lia|]. intros _. apply Hin.
      unfold in_bounds; simpl; lia.
    + destruct Hr as (Hu & b' & e & w & -> & He & Hb).
      split; [exact Hu|]. exists b', e, w. split; [reflexivity|].
      split; [exact He|lia].
Qed.

Lemma read_string_loop_more_fuel (buff_start : nat) :
  forall (fuel : nat) (t : tokenizer_t) (v : rs_locals) r,
    read_string_loop fuel buff_start t v = Some r ->
    read_string_loop (S fuel) buff_start t v = Some r.
Proof.
  induction fuel as [|fuel IH]; intros t v r H; [discriminate|].
  change (match read_string_round buff_start t v with
          | rs_return t' => Some (t', None)
          | rs_break t' v' => Some (t', Some v')
          | rs_again t' v' => read_string_loop fuel buff_start t' v'
          end = Some r) in H.
  change (match read_string_round buff_start t v with
          | rs_return t' => Some (t', None)
          | rs_break t' v' => Some (t', Some v')
          | rs_again t' v' => read_string_loop (S fuel) buff_start t' v'
          end = Some r).
  destruct (read_string_round buff_start t v); auto.
Qed.

(** What [read_string] does to the tokenizer: it moves the cursor forward
    inside the buffer, and either stores the characters it passed as a
    string token or raises an error (in strict mode only). *)
Lemma read_string_spec (t : tokenizer_t) :
  in_bounds t ->
  exists b', (buff t <= b' <= List.length (start t))%nat /\
    (read_string t =
       set_last (set_buff t b') TOK_STRING
         (firstn (b' - buff t) (skipn (buff t) (start t)))
     \/ (accept_unfinished t = false /\
         exists e w, e <> TOK_ERROR_NONE
                     /\ read_string t = call_error (set_buff t b') e (Some w))).
Proof.
  intros Hin. unfold read_string, read_string_fuel.
  destruct (read_string_loop_total (buff t) (S (List.length (start t) - buff t)) t
              rs_initial ltac:(lia)) as (t' & r & -> & Hr).
  destruct r as [v'|].
  - destruct Hr as (b' & -> & Hle & Hb). specialize (Hb Hin).
    exists b'. split; [lia|].
    unfold read_string_finish. simpl accept_unfinished.
    destruct (accept_unfinished t) eqn:Eu; cbn [negb].
    + left. reflexivity.
    + destruct (mode v'); [left; reflexivity| | |]; right;
        (split; [reflexivity|]); eexists; eexists; (split; [|reflexivity]);
        discriminate.
  - destruct Hr as (Hu & b' & e & w & -> & He & Hb).
    exists b'. split; [lia|]. right. split; [exact Hu|].
    exists e, w. split; [exact He|reflexivity].
Qed.

End StringScanner.

(** ** The driver *)

Section Driver.
Context {LC : wctype}.

Lemma same_setup_refl (t : tokenizer_t) : same_setup t t.
Proof. unfold same_setup. auto. Qed.

Lemma same_setup_trans (t1 t2 t3 : tokenizer_t) :
  same_setup t1 t2 -> same_setup t2 t3 -> same_setup t1 t3.
Proof. unfold same_setup. intuition congruence. Qed.

Lemma call_error_well_formed (t : tokenizer_t) (e : tokenizer_error) (w : option nat) :
  e <> TOK_ERROR_NONE ->
  (last_pos t <= buff t <= List.length (start t))%nat ->
  token_well_formed (call_error t e w).
Proof.
  intros He Hb. split; [exact Hb|]. simpl.
  split; [|split; [exact He|reflexivity]].
  destruct (squash_errors t); [reflexivity|].
  destruct e; try reflexivity. contradiction.
Qed.

Lemma not_end_of_line_nul : not_end_of_line c_nul = false.
Proof. reflexivity. Qed.

Lemma is_newline_run_nul : is_newline_run c_nul = false.
Proof. reflexivity. Qed.

Lemma firstn_length_le (n : nat) (s : wcstring) :
  (n <= List.length s)%nat -> List.length (firstn n s) = n.
Proof. intros H. rewrite length_firstn. lia. Qed.

(** The comment loop ends within its fuel, with the cursor inside the
    buffer; it either returns one comment as a token or stops at a character
    that is not a hash. *)
Lemma skip_comments_total :
  forall (fuel : nat) (t : tokenizer_t),
    in_bounds t ->
    (List.length (start t) - buff t < fuel)%nat ->
    exists t' returned,
      skip_comments fuel t = Some (t', returned)
      /\ same_setup t t'
      /\ (buff t <= buff t' <= List.length (start t))%nat
      /\ if returned then token_well_formed t' /\ last_type t' = TOK_COMMENT
         else cur t' <> c_hash /\ has_next t' = has_next t
              /\ last_token t' = last_token t.
Proof.
  induction fuel as [|fuel IH]; intros t Hin Hfuel; [lia|].
  simpl. destruct (Z.eqb_spec (cur t) 35) as [Eh|Eh].
  2:{ exists t, false. split; [reflexivity|]. split; [apply same_setup_refl|].
      unfold in_bounds in Hin. repeat split; auto; lia. }
  assert (buff t < List.length (start t))%nat as Hlt by (apply cur_nonzero_lt; lia).
  pose proof (length_rest t) as Hlen.
  pose proof (scan_while_le not_end_of_line (rest t)) as Hn1.
  assert (1 <= scan_while not_end_of_line (rest t))%nat as Hpos.
  { destruct (rest_cons t ltac:(lia)) as [s' ->]. rewrite Eh. simpl. lia. }
  set (n1 := scan_while not_end_of_line (rest t)) in *.
  set (t1 := set_buff t (buff t + n1)).
  match goal with
  | |- context [if ?c then set_buff t1 ?x else t1] =>
      assert (exists b2, (buff t + n1 <= b2 <= S (buff t + n1))%nat
                         /\ (b2 <= List.length (start t))%nat
                         /\ (if c then set_buff t1 x else t1) = set_buff t b2)
        as (b2 & Hb2 & Hb2len & ->)
  end.
  { destruct ((cur t1 =? 10) && continue_line_after_comment t) eqn:E.
    - exists (S (buff t + n1)). split; [lia|]. split; [|reflexivity].
      apply andb_true_iff in E. destruct E as [E _]. apply Z.eqb_eq in E.
      assert (cur t1 <> 0) as Hnz by lia. apply cur_nonzero_lt in Hnz.
      simpl in Hnz. lia.
    - exists (buff t + n1)%nat. split; [lia|]. split; [lia|reflexivity]. }
  simpl show_comments. destruct (show_comments t) eqn:Es.
  - eexists; exists true. split; [reflexivity|].
    split; [unfold same_setup; simpl; auto|].
    simpl. split; [lia|]. split; [|reflexivity].
    unfold token_well_formed. simpl.
    replace (buff t + n1 - buff t)%nat with n1 by lia.
    assert (List.length (firstn n1 (skipn (buff t) (start t))) = n1) as Hl.
    { apply firstn_length_le. fold (rest t). lia. }
    rewrite Hl. repeat split; try lia. exact Eh.
  - pose proof (scan_while_le iswspace_not_nl (rest (set_buff t b2))) as Hn3.
    rewrite length_rest in Hn3. simpl in Hn3.
    set (n3 := scan_while iswspace_not_nl (rest (set_buff t b2))) in *.
    destruct (IH (set_buff (set_buff t b2) (buff (set_buff t b2) + n3)))
      as (t' & r & Hrun & Hsame & Hb & Hr).
    { unfold in_bounds. simpl. lia. }
    { simpl. lia. }
    exists t', r. split; [exact Hrun|].
    split; [exact Hsame|]. simpl in Hb. split; [lia|exact Hr].
Qed.

Lemma redirect_token_well_formed (t : tokenizer_t) (consumed : nat)
    (mode : token_type) (fd : Z) :
  in_bounds t -> last_pos t = buff t ->
  read_redirection_or_fd_pipe (rest t) = (consumed, mode, fd) ->
  consumed <> O ->
  token_well_formed (set_last (set_buff t (buff t + consumed)) mode (to_string fd)).
Proof.
  intros Hin Hpos Hread Hne.
  pose proof (read_redirection_or_fd_pipe_bounds (rest t)) as Hb.
  rewrite Hread in Hb. destruct Hb as [Hle Hmode].
  rewrite length_rest in Hle. unfold in_bounds in Hin.
  destruct (Nat.eqb_spec consumed 0) as [|_]; [contradiction|].
  assert (redirect_text (set_last (set_buff t (buff t + consumed)) mode (to_string fd)))
    as Hred.
  { exists fd. simpl. rewrite Hpos.
    replace (buff t + consumed - buff t)%nat with consumed by lia.
    split; [exact Hread|reflexivity]. }
  split; [simpl; lia|].
  destruct mode; try discriminate; simpl; try exact Hred. right. exact Hred.
Qed.

(** The [switch] on the character at the cursor, entered with [last_pos] at
    the cursor: it leaves a well-formed token, or none at the end of the
    buffer. *)
Lemma tok_next_dispatch_spec (t : tokenizer_t) :
  in_bounds t -> last_pos t = buff t ->
  match tok_next_dispatch t with
  | (t', more) =>
      same_setup t t' /\ (buff t <= buff t' <= List.length (start t))%nat
      /\ if more then token_well_formed t' else has_next t' = false
  end.
Proof.
  intros Hin Hpos. unfold in_bounds in Hin. unfold tok_next_dispatch.
  pose proof (length_rest t) as Hlen.
  destruct (Z.eqb_spec (cur t) 0) as [E0|E0].
  { split; [unfold same_setup; fields; auto|]. fields. split; [lia|reflexivity]. }
  pose proof (cur_nonzero_lt t E0) as Hlt.
  destruct ((cur t =? 13) || (cur t =? 10) || (cur t =? 59)) eqn:Eend.
  { simpl show_blank_lines. destruct (show_blank_lines t) eqn:Esb; cbn [negb].
    - split; [unfold same_setup; fields; auto|]. fields. split; [lia|].
      unfold token_well_formed. fields. rewrite Hpos.
      repeat split; try lia; reflexivity.
    - match goal with
      | |- context [scan_while is_newline_run ?r] =>
          pose proof (scan_while_le is_newline_run r) as Hn;
          set (n := scan_while is_newline_run r) in *
      end.
      rewrite length_rest in Hn. fields.
      split; [unfold same_setup; fields; auto|]. fields. split; [lia|].
      unfold token_well_formed. fields. rewrite Hpos, Esb.
      repeat split; try lia; try reflexivity; discriminate. }
  destruct (Z.eqb_spec (cur t) 38) as [Ea|Ea].
  { split; [unfold same_setup; fields; auto|]. fields. split; [lia|].
    unfold token_well_formed. fields. rewrite Hpos.
    repeat split; try lia. exact Ea. }
  destruct (Z.eqb_spec (cur t) 124) as [Ep|Ep].
  { split; [unfold same_setup; fields; auto|]. fields. split; [lia|].
    unfold token_well_formed. fields. rewrite Hpos.
    split; [lia|]. left. repeat split; try lia. exact Ep. }
  destruct ((cur t =? 62) || (cur t =? 60) || (cur t =? 94)) eqn:Ered.
  { destruct (read_redirection_or_fd_pipe (rest t)) as [[consumed mode] fd] eqn:Er.
    pose proof (read_redirection_or_fd_pipe_bounds (rest t)) as Hb.
    rewrite Er in Hb. destruct Hb as [Hle _]. rewrite Hlen in Hle.
    destruct ((consumed =? 0)%nat || (fd <? 0)) eqn:Ebad.
    - split; [unfold same_setup; fields; auto|]. fields. split; [lia|].
      apply call_error_well_formed; [discriminate|lia].
    - apply orb_false_iff in Ebad. destruct Ebad as [Ec _].
      apply Nat.eqb_neq in Ec.
      split; [unfold same_setup; fields; auto|]. fields. split; [lia|].
      apply redirect_token_well_formed; assumption. }
  assert (Hstring :
    same_setup t (read_string t)
    /\ (buff t <= buff (read_string t) <= List.length (start t))%nat
    /\ token_well_formed (read_string t)).
  { destruct (read_string_spec t Hin) as (b' & Hb' & [Hs|(_ & e & w & He & Hs)]);
      rewrite Hs.
    - split; [unfold same_setup; fields; auto|]. fields. split; [lia|].
      unfold token_well_formed. fields. rewrite Hpos. split; [lia|reflexivity].
    - split; [unfold same_setup; fields; auto|]. fields. split; [lia|].
      apply call_error_well_formed; [exact He|fields; lia]. }
  destruct (iswdigit (cur t)); [|exact Hstring].
  destruct (read_redirection_or_fd_pipe (rest t)) as [[consumed mode] fd] eqn:Er.
  pose proof (read_redirection_or_fd_pipe_bounds (rest t)) as Hb.
  rewrite Er in Hb. destruct Hb as [Hle _]. rewrite Hlen in Hle.
  destruct (Nat.ltb_spec 0 consumed) as [Hc|Hc]; [|exact Hstring].
  destruct (token_type_eqb mode TOK_PIPE && (fd =? 0)).
  - split; [unfold same_setup; fields; auto|]. fields. split; [lia|].
    apply call_error_well_formed; [discriminate|lia].
  - split; [unfold same_setup; fields; auto|]. fields. split; [lia|].
    apply redirect_token_well_formed; try assumption. lia.
Qed.

(** [tok_next] neither runs out of fuel nor leaves the buffer; when it
    returns true the token it leaves is well formed, and when it returns false
    there is no next token any more. *)
Lemma tok_next_spec (t : tokenizer_t) :
  in_bounds t ->
  match tok_next t with
  | (t', more) =>
      same_setup t t' /\ (buff t <= buff t' <= List.length (start t))%nat
      /\ if more then token_well_formed t' else has_next t' = false
  end.
Proof.
  intros Hin. unfold in_bounds in Hin. unfold tok_next.
  destruct (has_next t) eqn:Eh; cbn [negb].
  2:{ split; [apply same_setup_refl|]. split; [lia|exact Eh]. }
  pose proof (skip_blanks_le _ (rest t) (Nat.le_refl _)) as Hn.
  rewrite length_rest in Hn.
  destruct (skip_blanks (rest t)) as [n escaped_nl]. cbn [fst] in Hn.
  set (t1 := set_buff t (buff t + n)).
  set (t2 := if escaped_nl then set_continue_line_after_comment t1 true else t1).
  assert (same_setup t t2 /\ buff t2 = (buff t + n)%nat /\ start t2 = start t)
    as (Hs2 & Hb2 & Hst2).
  { unfold t2, t1. destruct escaped_nl; unfold same_setup; fields; auto 10. }
  destruct (skip_comments_total (skip_comments_fuel t2) t2) as (t3 & r & -> & Hs3 & Hb3 & Hr).
  { unfold in_bounds. rewrite Hb2, Hst2. lia. }
  { unfold skip_comments_fuel. lia. }
  rewrite Hb2, Hst2 in Hb3.
  destruct r.
  - destruct Hr as [Hwf _]. split; [eapply same_setup_trans; eassumption|].
    split; [lia|exact Hwf].
  - pose proof (tok_next_dispatch_spec
                  (set_last_pos (set_continue_line_after_comment t3 false) (buff t3)))
      as Hd.
    fields. destruct Hs3 as (Hst3 & Hfl3).
    specialize (Hd ltac:(unfold in_bounds; fields; rewrite Hst3, Hst2; lia) eq_refl).
    destruct (tok_next_dispatch _) as [t' more].
    destruct Hd as (Hs' & Hb' & Hm). fields.
    split.
    + eapply same_setup_trans; [exact Hs2|].
      eapply same_setup_trans; [split; [exact Hst3|exact Hfl3]|].
      unfold same_setup in *. fields. exact Hs'.
    + rewrite Hst3, Hst2 in Hb'. split; [lia|exact Hm].
Qed.

Lemma next_spec (t : tokenizer_t) :
  in_bounds t ->
  same_setup t (fst (next t)) /\ in_bounds (fst (next t))
  /\ match snd (next t) with
     | Some tok => token_well_formed (fst (next t)) /\ tok = token_of (fst (next t))
     | None => has_next (fst (next t)) = false
     end.
Proof.
  intros Hin. pose proof (tok_next_spec t Hin) as H. unfold next.
  destruct (tok_next t) as [t' more]. destruct H as (Hs & Hb & Hm).
  destruct Hs as (Hst & Hfl).
  destruct more; cbn [negb fst snd].
  - split; [split; assumption|]. split; [unfold in_bounds; rewrite Hst; lia|].
    split; [exact Hm|reflexivity].
  - split; [split; assumption|]. split; [unfold in_bounds; rewrite Hst; lia|exact Hm].
Qed.

(** Every tokenizer that calls of [next] make of a new one has the buffer and
    the flags it was built with, and its cursor inside the buffer. *)
Lemma after_next_spec (src : wcstring) (flags : tok_flags_t) (n : nat) :
  same_setup (tokenizer src flags) (after_next n (tokenizer src flags))
  /\ in_bounds (after_next n (tokenizer src flags)).
Proof.
  assert (forall t, in_bounds t ->
            same_setup t (after_next n t) /\ in_bounds (after_next n t)) as H.
  { induction n as [|n IH]; intros t Hin; simpl.
    - split; [apply same_setup_refl|exact Hin].
    - destruct (next_spec t Hin) as (Hs & Hin' & _).
      destruct (IH _ Hin') as (Hs' & Hin'').
      split; [eapply same_setup_trans; eassumption|exact Hin'']. }
  apply H. unfold in_bounds. simpl. lia.
Qed.

End Driver.

(** ** Tokens and the source *)

Section TokensAndSource.
Context {LC : wctype}.

Lemma firstn_1_skipn (s : wcstring) (i : nat) :
  (i < List.length s)%nat -> firstn 1 (skipn i s) = [wat s i].
Proof.
  revert i. induction s as [|c s IH]; intros i Hi; simpl in Hi; [lia|].
  destruct i as [|i]; [reflexivity|]. simpl. apply IH. lia.
Qed.

Lemma firstn_firstn_le (n m : nat) (s : wcstring) :
  (n <= m)%nat -> firstn n (firstn m s) = firstn n s.
Proof. intros H. rewrite firstn_firstn. f_equal. lia. Qed.

(** C1, as the code has it.  For every token that a successful call of [next]
    emits, on a tokenizer reached from a new one by calls of [next]:
    [offset + length] does not exceed the length of the source, and, with
    [covered] the source characters from [offset] to [offset + length],
    - a String token has [covered] as its text;
    - an End token has the first character of [covered] as its text, the
      rest being the terminators and blanks that were swallowed after it;
      with [TOK_SHOW_BLANK_LINES] nothing is swallowed and the text is
      [covered];
    - a Comment token has as text [covered], or [covered] without its last
      character (the newline swallowed after an escaped newline);
    - a Pipe token has text 1 when [covered] is a bare pipe character, and
      otherwise, like every redirection token, it has as text the decimal fd
      that the redirection reader returns on the source at [offset], where
      the reader consumes [length] characters and reports the token's kind;
    - an Error token has empty text when errors are squashed, and the message
      of its error kind otherwise;
    - a Background token covers one ampersand (nothing is said of its text).
    No token has kind [TOK_NONE]. *)
Theorem emitted_token_and_source :
  forall (src : wcstring) (flags : tok_flags_t) (n : nat)
         (t' : tokenizer_t) (tok : tok_t),
    next (after_next n (tokenizer src flags)) = (t', Some tok) ->
    let covered := firstn (Tok.length tok) (skipn (Tok.offset tok) src) in
    (Tok.offset tok + Tok.length tok <= List.length src)%nat /\
    match Tok.type tok with
    | TOK_STRING => Tok.text tok = covered
    | TOK_END =>
        Tok.text tok = firstn 1 covered /\ (1 <= Tok.length tok)%nat
        /\ (TOK_SHOW_BLANK_LINES flags = true -> Tok.text tok = covered)
    | TOK_COMMENT =>
        Tok.text tok = firstn (List.length (Tok.text tok)) covered
        /\ (Tok.length tok <= S (List.length (Tok.text tok)))%nat
    | TOK_PIPE | TOK_REDIRECT_OUT | TOK_REDIRECT_APPEND | TOK_REDIRECT_IN
    | TOK_REDIRECT_FD | TOK_REDIRECT_NOCLOB =>
        (Tok.type tok = TOK_PIPE /\ covered = [c_pipe] /\ Tok.text tok = L "1")
        \/ (exists fd,
              read_redirection_or_fd_pipe (skipn (Tok.offset tok) src)
                = (Tok.length tok, Tok.type tok, fd)
              /\ Tok.text tok = to_string fd)
    | TOK_ERROR =>
        Tok.error tok <> TOK_ERROR_NONE
        /\ Tok.text tok = if TOK_SQUASH_ERRORS flags then []
                          else error_message (Tok.error tok) []
    | TOK_BACKGROUND => covered = [c_amp]
    | TOK_NONE => False
    end.
Proof.
  intros src flags n t' tok Hnext.
  destruct (after_next_spec src flags n) as (Hs & Hin).
  destruct (next_spec _ Hin) as (Hs' & _ & Htok).
  rewrite Hnext in Hs', Htok. cbn [fst snd] in Hs', Htok.
  destruct Htok as (Hwf & ->).
  pose proof (same_setup_trans _ _ _ Hs Hs') as (Hst & _ & _ & Hsb & Hsq).
  simpl in Hst, Hsb, Hsq.
  destruct Hwf as (Hb & Hk). rewrite Hst in *. cbv zeta in Hk.
  unfold token_of. cbn [Tok.text Tok.type Tok.offset Tok.length Tok.error].
  destruct (Nat.leb_spec (last_pos t') (buff t')) as [_|Hbad]; [|lia].
  split; [lia|].
  assert (Hred : redirect_text t' ->
            exists fd,
              read_redirection_or_fd_pipe (skipn (last_pos t') src)
                = ((buff t' - last_pos t')%nat, last_type t', fd)
              /\ last_token t' = to_string fd).
  { intros (fd & H1 & H2). rewrite Hst in H1. exists fd. auto. }
  destruct (last_type t') eqn:Ety; cbn [token_type_eqb]; try (right; apply Hred; exact Hk).
  - exact Hk.
  - destruct Hk as (Htxt & He & _). split; [exact He|].
    rewrite Htxt, Hsq. reflexivity.
  - exact Hk.
  - destruct Hk as [(Hc & Htxt & Hcov)|Hk]; [left|right; apply Hred; exact Hk].
    split; [reflexivity|]. split; [|exact Htxt].
    rewrite Hcov, firstn_1_skipn, Hc; [reflexivity|].
    apply wat_nonzero. rewrite Hc. discriminate.
  - destruct Hk as (Htxt & Hcov & Hone).
    assert (last_pos t' < List.length src)%nat as Hlt by lia.
    rewrite firstn_firstn_le by lia. rewrite firstn_1_skipn by exact Hlt.
    split; [exact Htxt|]. split; [exact Hcov|].
    intros Hf. rewrite Hone by congruence.
    rewrite firstn_1_skipn by exact Hlt. exact Htxt.
  - destruct Hk as (Hc & Hcov). rewrite Hcov, firstn_1_skipn, Hc; [reflexivity|].
    apply wat_nonzero. rewrite Hc. discriminate.
  - destruct Hk as (Htxt & Hlen & _). split; [|lia].
    rewrite firstn_firstn_le by lia. exact Htxt.
Qed.

End TokensAndSource.
(** A witness: the second token of [echo hi]. *)
Lemma emitted_token_and_source_witness :
  let tok := {| Tok.text := L "hi"; Tok.type := TOK_STRING;
                Tok.error := TOK_ERROR_NONE; Tok.error_offset := 0;
                Tok.offset := 5; Tok.length := 2 |} in
  snd (next (after_next 1 (tokenizer (L "echo hi") strict_flags))) = Some tok
  /\ (Tok.offset tok + Tok.length tok <= 7)%nat
  /\ Tok.text tok = firstn (Tok.length tok) (skipn (Tok.offset tok) (L "echo hi")).
Proof.
  split; [vm_compute; reflexivity|].
  refine (emitted_token_and_source (L "echo hi") strict_flags 1
            (fst (next (after_next 1 (tokenizer (L "echo hi") strict_flags)))) _ _).
  vm_compute. reflexivity.
Defined.

(** The token of the source [>] is a redirection whose text is the fd, 1, and
    not the source it covers. *)
Lemma redirection_text_is_not_its_source :
  let tok := {| Tok.text := L "1"; Tok.type := TOK_REDIRECT_OUT;
                Tok.error := TOK_ERROR_NONE; Tok.error_offset := 0;
                Tok.offset := 0; Tok.length := 1 |} in
  snd (next (tokenizer (L ">") strict_flags)) = Some tok
  /\ ~ text_is_source_but_for_listed (L ">") strict_flags tok.
Proof.
  split; [vm_compute; reflexivity|].
  intros (_ & [H|[(H & _)|[(H & _)|(H & _)]]]); vm_compute in H; discriminate.
Qed.

Section ErrorsEndTheStream.
Context {LC : wctype}.

Lemma next_without_has_next (t : tokenizer_t) :
  has_next t = false -> next t = (t, None).
Proof. intros H. unfold next, tok_next. rewrite H. reflexivity. Qed.

Lemma after_next_without_has_next (n : nat) (t : tokenizer_t) :
  has_next t = false -> after_next n t = t.
Proof.
  intros H. induction n as [|n IH]; simpl; [reflexivity|].
  rewrite next_without_has_next by exact H. exact IH.
Qed.

(** C2.  When a call of [next], on a tokenizer reached from a new one by
    calls of [next], emits a token of kind Error, then [has_next] is false
    afterwards, and however many further calls are made, the next one
    returns false: it emits no token and leaves the tokenizer as it is. *)
Theorem error_token_ends_the_stream :
  forall (src : wcstring) (flags : tok_flags_t) (n : nat)
         (t' : tokenizer_t) (tok : tok_t),
    next (after_next n (tokenizer src flags)) = (t', Some tok) ->
    Tok.type tok = TOK_ERROR ->
    has_next t' = false
    /\ forall k : nat, next (after_next k t') = (t', None).
Proof.
  intros src flags n t' tok Hnext Hty.
  destruct (after_next_spec src flags n) as (_ & Hin).
  destruct (next_spec _ Hin) as (_ & _ & Htok).
  rewrite Hnext in Htok. cbn [fst snd] in Htok. destruct Htok as (Hwf & ->).
  cbn [token_of Tok.type] in Hty. destruct Hwf as (_ & Hk). rewrite Hty in Hk.
  destruct Hk as (_ & _ & Hn). split; [exact Hn|].
  intros k. rewrite after_next_without_has_next by exact Hn.
  apply next_without_has_next, Hn.
Qed.

End ErrorsEndTheStream.

(** A witness: the error token of [0>|]. *)
Lemma error_token_ends_the_stream_witness :
  let t' := fst (next (tokenizer (L "0>|") strict_flags)) in
  has_next t' = false /\ forall k : nat, next (after_next k t') = (t', None).
Proof.
  refine (error_token_ends_the_stream (L "0>|") strict_flags 0 _
            {| Tok.text := PIPE_ERROR; Tok.type := TOK_ERROR;
               Tok.error := TOK_INVALID_PIPE; Tok.error_offset := 0;
               Tok.offset := 0; Tok.length := 0 |} _ eq_refl).
  vm_compute. reflexivity.
Defined.

(** * Redirections with an fd prefix *)

Lemma wat_app (ds r : wcstring) (i : nat) :
  wat (ds ++ r) (List.length ds + i) = wat r i.
Proof. unfold wat. rewrite app_nth2_plus. reflexivity. Qed.

Lemma wat_app_0 (ds r : wcstring) : wat (ds ++ r) (List.length ds) = wat r 0.
Proof. rewrite <- (Nat.add_0_r (List.length ds)) at 1. apply wat_app. Qed.

Lemma wat_app_1 (ds r : wcstring) : wat (ds ++ r) (S (List.length ds)) = wat r 1.
Proof. rewrite <- (Nat.add_1_r (List.length ds)). apply wat_app. Qed.

Lemma wat_app_2 (ds r : wcstring) : wat (ds ++ r) (S (S (List.length ds))) = wat r 2.
Proof.
  replace (S (S (List.length ds))) with (List.length ds + 2)%nat by lia. apply wat_app.
Qed.

Lemma iswdigit_range (c : wchar) : iswdigit c = true -> 48 <= c <= 57.
Proof.
  unfold iswdigit. intros H. apply andb_true_iff in H. destruct H as [H1 H2].
  apply Z.leb_le in H1. apply Z.leb_le in H2. lia.
Qed.

Lemma fd_value_grows (ds : list wchar) :
  forall acc, forallb iswdigit ds = true -> 0 <= acc -> acc <= fd_value acc ds.
Proof.
  unfold fd_value.
  induction ds as [|c ds IH]; intros acc Hd Hacc; simpl in *; [lia|].
  apply andb_true_iff in Hd. destruct Hd as [Hc Hd]. apply iswdigit_range in Hc.
  specialize (IH (acc * 10 + (c - 48)) Hd ltac:(lia)). lia.
Qed.

(** The digit loop passes the whole run; the accumulator ends as the number
    when that fits an [int], and above [INT_MAX] otherwise, always below the
    range of a [long long]. *)
Lemma read_fd_digits_run (ds r : wcstring) :
  iswdigit (wat r 0) = false ->
  forall acc, forallb iswdigit ds = true -> 0 <= acc <= 10 * INT_MAX + 9 ->
    exists big_fd,
      read_fd_digits (ds ++ r) acc = (List.length ds, big_fd)
      /\ 0 <= big_fd <= 10 * INT_MAX + 9
      /\ (if fd_value acc ds >? INT_MAX then (big_fd >? INT_MAX) = true
          else big_fd = fd_value acc ds).
Proof.
  intros Hr. induction ds as [|c ds IH]; intros acc Hd Hacc.
  - exists acc. simpl. split.
    + destruct r as [|c r]; [reflexivity|]. simpl. unfold wat in Hr. simpl in Hr.
      rewrite Hr. reflexivity.
    + split; [exact Hacc|]. destruct (acc >? INT_MAX); reflexivity.
  - simpl in Hd. apply andb_true_iff in Hd. destruct Hd as [Hc Hd].
    simpl. rewrite Hc. pose proof (iswdigit_range c Hc) as Hcr.
    destruct (Z.leb_spec acc INT_MAX) as [Hle|Hgt].
    + destruct (IH (acc * 10 + (c - 48)) Hd ltac:(unfold INT_MAX in *; lia))
        as (big & -> & Hbig & Hv).
      exists big. split; [reflexivity|]. split; [exact Hbig|exact Hv].
    + destruct (IH acc Hd Hacc) as (big & -> & Hbig & Hv).
      exists big. split; [reflexivity|]. split; [exact Hbig|].
      pose proof (fd_value_grows ds acc Hd ltac:(lia)) as Hg1.
      pose proof (fd_value_grows ds (acc * 10 + (c - 48)) Hd ltac:(lia)) as Hg2.
      destruct (Z.gtb_spec (fd_value acc ds) INT_MAX) as [_|Hbad]; [|lia].
      destruct (Z.gtb_spec (fd_value (acc * 10 + (c - 48)) ds) INT_MAX) as [_|Hbad];
        [exact Hv|lia].
Qed.

(** The fd that the reader returns for a run of digits before something that
    is no digit. *)
Lemma read_fd_digits_saturated (ds r : wcstring) :
  iswdigit (wat r 0) = false -> forallb iswdigit ds = true ->
  exists big_fd,
    read_fd_digits (ds ++ r) 0 = (List.length ds, big_fd)
    /\ (if big_fd >? INT_MAX then -1 else big_fd) = saturated_fd ds.
Proof.
  intros Hr Hd.
  destruct (read_fd_digits_run ds r Hr 0 Hd ltac:(unfold INT_MAX; lia))
    as (big & Hrun & _ & Hv).
  exists big. split; [exact Hrun|]. unfold saturated_fd, decimal_value.
  destruct (fd_value 0 ds >? INT_MAX) eqn:E.
  - rewrite Hv. reflexivity.
  - subst big. rewrite E. reflexivity.
Qed.

(** Digits and then [>|]: a pipe of the fd. *)
Lemma read_fd_pipe (ds r : wcstring) :
  ds <> [] -> forallb iswdigit ds = true ->
  read_redirection_or_fd_pipe (ds ++ c_gt :: c_pipe :: r)
  = (S (S (List.length ds)), TOK_PIPE, saturated_fd ds).
Proof.
  intros Hne Hd. unfold read_redirection_or_fd_pipe.
  destruct (read_fd_digits_saturated ds (c_gt :: c_pipe :: r) eq_refl Hd)
    as (big & -> & ->).
  destruct ds as [|d ds]; [contradiction|].
  change ((List.length (d :: ds) =? 0)%nat) with false. cbv iota zeta.
  rewrite wat_app_0. change (wat (62 :: 124 :: r) 0) with 62.
  cbn [Z.eqb Pos.eqb orb]. rewrite wat_app_1.
  change (wat (62 :: 124 :: r) 1) with 124.
  change (124 =? 62) with false. cbv iota beta.
  rewrite wat_app_1. reflexivity.
Qed.

(** Digits and then [>]: the reader passes all the digits and the [>], and
    reports a redirection or a pipe of the fd. *)
Lemma read_fd_redirection (ds r : wcstring) :
  ds <> [] -> forallb iswdigit ds = true ->
  exists consumed mode,
    read_redirection_or_fd_pipe (ds ++ c_gt :: r) = (consumed, mode, saturated_fd ds)
    /\ (List.length ds < consumed)%nat
    /\ is_redirection_or_pipe mode = true.
Proof.
  intros Hne Hd. unfold read_redirection_or_fd_pipe.
  destruct (read_fd_digits_saturated ds (c_gt :: r) eq_refl Hd)
    as (big & -> & ->).
  destruct ds as [|d ds]; [contradiction|].
  change ((List.length (d :: ds) =? 0)%nat) with false. cbv iota zeta.
  rewrite wat_app_0. change (wat (62 :: r) 0) with 62.
  cbn [Z.eqb Pos.eqb orb].
  repeat match goal with
  | |- context [if ?b then _ else _] => destruct b
  end; eexists; eexists; (split; [reflexivity|]); split; try reflexivity; lia.
Qed.

Section FdTokens.
Context {LC : wctype}.

Lemma rest_cur (t : tokenizer_t) (c : wchar) (s : wcstring) :
  rest t = c :: s -> cur t = c.
Proof. intros H. rewrite <- cur_rest, H. reflexivity. Qed.

(** With the cursor on a character that is no blank, no backslash and no
    hash, [tok_next] goes straight to its [switch]. *)
Lemma tok_next_at_token (t : tokenizer_t) (c : wchar) (s : wcstring) :
  has_next t = true -> rest t = c :: s ->
  c <> c_backslash -> iswspace_not_nl c = false -> c <> c_hash ->
  tok_next t = tok_next_dispatch (at_token t).
Proof.
  intros Hn Hrest Hb Hw Hh. unfold tok_next. rewrite Hn. cbn [negb].
  rewrite Hrest. cbn [skip_blanks].
  destruct (Z.eqb_spec c 92) as [|_]; [contradiction|]. cbn [andb]. rewrite Hw.
  rewrite Nat.add_0_r, set_buff_same.
  unfold skip_comments_fuel. cbn [skip_comments].
  rewrite (rest_cur t c s Hrest).
  destruct (Z.eqb_spec c 35) as [|_]; [contradiction|]. reflexivity.
Qed.

(** The [switch] of [tok_next] on a digit. *)
Lemma tok_next_dispatch_digit (t : tokenizer_t) :
  iswdigit (cur t) = true ->
  tok_next_dispatch t =
  let '(consumed, mode, fd) := read_redirection_or_fd_pipe (rest t) in
  if (0 <? consumed)%nat then
    if token_type_eqb mode TOK_PIPE && (fd =? 0)
    then (call_error t TOK_INVALID_PIPE (Some (buff t)), true)
    else (set_last (set_buff t (buff t + consumed)) mode (to_string fd), true)
  else (read_string t, true).
Proof.
  intros Hd. unfold tok_next_dispatch. rewrite Hd.
  apply iswdigit_range in Hd.
  repeat match goal with
  | |- context [Z.eqb (cur t) ?k] => destruct (Z.eqb_spec (cur t) k); [lia|]
  end.
  reflexivity.
Qed.

Lemma digit_starts_token (d : wchar) :
  iswdigit d = true ->
  d <> c_backslash /\ iswspace_not_nl d = false /\ d <> c_hash.
Proof.
  intros H. pose proof (iswdigit_range d H).
  split; [lia|]. split; [apply iswspace_not_nl_digit, H|lia].
Qed.

(** C6.  With the cursor on a run of decimal digits that [>|] follows, [next]
    emits a Pipe token whose text is the decimal of the fd the digits were
    read as, covering the digits and the two characters; except that when this
    fd is 0 it emits an Error token of kind InvalidPipe at the first digit
    (offset of the token there, error offset 0, nothing covered). *)
Theorem fd_pipe_token :
  forall (t : tokenizer_t) (ds r : wcstring),
    has_next t = true ->
    rest t = ds ++ c_gt :: c_pipe :: r ->
    ds <> [] -> forallb iswdigit ds = true ->
    snd (next t) =
    Some (if saturated_fd ds =? 0
          then {| Tok.text := if squash_errors t then [] else PIPE_ERROR;
                  Tok.type := TOK_ERROR;
                  Tok.error := TOK_INVALID_PIPE;
                  Tok.error_offset := 0;
                  Tok.offset := buff t;
                  Tok.length := 0 |}
          else {| Tok.text := to_string (saturated_fd ds);
                  Tok.type := TOK_PIPE;
                  Tok.error := TOK_ERROR_NONE;
                  Tok.error_offset := 0;
                  Tok.offset := buff t;
                  Tok.length := List.length ds + 2 |}).
Proof.
  intros t ds r Hn Hrest Hne Hd.
  pose proof (read_fd_pipe ds r Hne Hd) as Hread.
  destruct ds as [|d ds]; [contradiction|].
  assert (iswdigit d = true) as Hd0.
  { simpl in Hd. apply andb_true_iff in Hd. apply Hd. }
  destruct (digit_starts_token d Hd0) as (Hb & Hw & Hh).
  unfold next.
  rewrite (tok_next_at_token t d _ Hn Hrest Hb Hw Hh).
  rewrite tok_next_dispatch_digit
    by (change (cur (at_token t)) with (cur t);
        rewrite (rest_cur t d _ Hrest); exact Hd0).
  change (rest (at_token t)) with (rest t). rewrite Hrest, Hread.
  cbn [Nat.ltb Nat.leb token_type_eqb andb].
  destruct (saturated_fd (d :: ds) =? 0); cbn [negb snd]; f_equal.
  - unfold at_token. fields. cbn [token_type_eqb andb].
    rewrite Z.ltb_irrefl, andb_false_r, Nat.leb_refl, Nat.sub_diag. reflexivity.
  - unfold at_token. fields. cbn [token_type_eqb andb].
    replace (buff t <=? buff t + S (S (List.length (d :: ds))))%nat with true
      by (symmetry; apply Nat.leb_le; lia).
    f_equal. lia.
Qed.

End FdTokens.

(** A witness: the fd pipe [10>|], and the refused [0>|]. *)
Lemma fd_pipe_token_witness :
  snd (next (tokenizer (L "10>|rest") strict_flags))
  = Some {| Tok.text := L "10"; Tok.type := TOK_PIPE; Tok.error := TOK_ERROR_NONE;
            Tok.error_offset := 0; Tok.offset := 0; Tok.length := 4 |}
  /\ snd (next (tokenizer (L "0>|rest") strict_flags))
     = Some {| Tok.text := PIPE_ERROR; Tok.type := TOK_ERROR;
               Tok.error := TOK_INVALID_PIPE;
               Tok.error_offset := 0; Tok.offset := 0; Tok.length := 0 |}.
Proof.
  split.
  - exact (fd_pipe_token (tokenizer (L "10>|rest") strict_flags) (L "10") (L "rest")
             eq_refl eq_refl ltac:(discriminate) eq_refl).
  - exact (fd_pipe_token (tokenizer (L "0>|rest") strict_flags) (L "0") (L "rest")
             eq_refl eq_refl ltac:(discriminate) eq_refl).
Defined.

Section OverflowingFd.
Context {LC : wctype}.

Lemma saturated_fd_overflow (ds : list wchar) :
  INT_MAX < decimal_value ds -> saturated_fd ds = -1.
Proof.
  intros H. unfold saturated_fd.
  destruct (Z.gtb_spec (decimal_value ds) INT_MAX); [reflexivity|lia].
Qed.

(** C3, as the code has it.  With the cursor on a run of decimal digits whose
    number is above [INT_MAX] and that [>] follows, the redirection reader
    passes all the digits and the [>] and returns the fd -1 with a redirection
    kind (or Pipe, for [>|]); and [next] emits no error: it emits a token of
    that kind, with text -1, that covers what the reader consumed. *)
Theorem overflowing_fd_redirection :
  forall (t : tokenizer_t) (ds r : wcstring),
    has_next t = true ->
    rest t = ds ++ c_gt :: r ->
    ds <> [] -> forallb iswdigit ds = true ->
    INT_MAX < decimal_value ds ->
    exists (consumed : nat) (mode : token_type),
      read_redirection_or_fd_pipe (rest t) = (consumed, mode, -1)
      /\ (List.length ds < consumed)%nat
      /\ is_redirection_or_pipe mode = true
      /\ snd (next t) =
         Some {| Tok.text := L "-1"; Tok.type := mode;
                 Tok.error := TOK_ERROR_NONE; Tok.error_offset := 0;
                 Tok.offset := buff t; Tok.length := consumed |}.
Proof.
  intros t ds r Hn Hrest Hne Hd Hover.
  destruct (read_fd_redirection ds r Hne Hd) as (consumed & mode & Hread & Hlen & Hmode).
  rewrite (saturated_fd_overflow ds Hover) in Hread.
  exists consumed, mode. rewrite Hrest.
  split; [exact Hread|]. split; [exact Hlen|]. split; [exact Hmode|].
  destruct ds as [|d ds]; [contradiction|].
  assert (iswdigit d = true) as Hd0.
  { simpl in Hd. apply andb_true_iff in Hd. apply Hd. }
  destruct (digit_starts_token d Hd0) as (Hb & Hw & Hh).
  unfold next.
  rewrite (tok_next_at_token t d _ Hn Hrest Hb Hw Hh).
  rewrite tok_next_dispatch_digit
    by (change (cur (at_token t)) with (cur t);
        rewrite (rest_cur t d _ Hrest); exact Hd0).
  change (rest (at_token t)) with (rest t). rewrite Hrest, Hread.
  replace (0 <? consumed)%nat with true by (symmetry; apply Nat.ltb_lt; lia).
  change (-1 =? 0) with false. rewrite andb_false_r.
  cbn [negb snd]. f_equal. unfold at_token. fields.
  replace (buff t <=? buff t + consumed)%nat with true
    by (symmetry; apply Nat.leb_le; lia).
  replace (buff t + consumed - buff t)%nat with consumed by lia.
  destruct mode; try discriminate; reflexivity.
Qed.

End OverflowingFd.

(** A witness: eleven nines before [>]. *)
Lemma overflowing_fd_redirection_witness :
  exists (consumed : nat) (mode : token_type),
    read_redirection_or_fd_pipe (L "99999999999>") = (consumed, mode, -1)
    /\ (11 < consumed)%nat
    /\ is_redirection_or_pipe mode = true
    /\ snd (next (tokenizer (L "99999999999>") strict_flags)) =
       Some {| Tok.text := L "-1"; Tok.type := mode;
               Tok.error := TOK_ERROR_NONE; Tok.error_offset := 0;
               Tok.offset := 0; Tok.length := consumed |}.
Proof.
  exact (overflowing_fd_redirection (tokenizer (L "99999999999>") strict_flags)
           (L "99999999999") [] eq_refl eq_refl ltac:(discriminate) eq_refl eq_refl).
Defined.

(** C3 as the spec words it fails on its own example: for [99999999999>] the
    driver emits a redirection token, not an InvalidRedirect error. *)
Lemma overflowing_fd_is_no_invalid_redirect :
  let tok := {| Tok.text := L "-1"; Tok.type := TOK_REDIRECT_OUT;
                Tok.error := TOK_ERROR_NONE; Tok.error_offset := 0;
                Tok.offset := 0; Tok.length := 12 |} in
  read_redirection_or_fd_pipe (L "99999999999>") = (12%nat, TOK_REDIRECT_OUT, -1)
  /\ snd (next (tokenizer (L "99999999999>") strict_flags)) = Some tok
  /\ ~ (Tok.type tok = TOK_ERROR /\ Tok.error tok = TOK_INVALID_REDIRECT).
Proof.
  split; [vm_compute; reflexivity|]. split; [vm_compute; reflexivity|].
  intros [H _]. discriminate.
Qed.

(** * The first token *)

Section FirstToken.
Context {LC : wctype}.

Lemma next_n_without_has_next (n : nat) (t : tokenizer_t) :
  has_next t = false -> next_n n t = [].
Proof.
  intros H. induction n as [|n IH]; simpl; [reflexivity|].
  rewrite next_without_has_next by exact H. exact IH.
Qed.

(** C4, as the code has it.  [tok_first s] looks at one token only: it is the
    text of the first token that tokenizing [s] (errors squashed) produces
    when that token is a String, and it is empty when the first token is of
    another kind or there is no token at all. *)
Theorem tok_first_is_the_first_token :
  forall (s : wcstring) (n : nat),
    tok_first s =
    match next_n (S n) (tokenizer s squash_only) with
    | tok :: _ =>
        if token_type_eqb (Tok.type tok) TOK_STRING then Tok.text tok else []
    | [] => []
    end.
Proof.
  intros s n. unfold tok_first. cbn [next_n].
  destruct (after_next_spec s squash_only 0) as (_ & Hin). cbn [after_next] in Hin.
  destruct (next_spec _ Hin) as (_ & _ & Htok).
  destruct (next (tokenizer s squash_only)) as [t' [tok|]]; cbn [fst snd] in Htok.
  - reflexivity.
  - rewrite next_n_without_has_next by exact Htok. reflexivity.
Qed.

End FirstToken.

(** C4 as the spec words it fails: tokenizing [;a] produces an End token and
    then the String token [a], however many calls are made, and [tok_first]
    returns the empty string. *)
Lemma tok_first_misses_a_later_string :
  tok_first (L ";a") = []
  /\ forall k : nat,
       first_string_text (next_n (2 + k) (tokenizer (L ";a") squash_only)) = L "a".
Proof.
  split; [vm_compute; reflexivity|].
  intros k. change (2 + k)%nat with (S (S k)).
  set (t0 := tokenizer (L ";a") squash_only).
  assert (next t0 = (fst (next t0),
                     Some {| Tok.text := L ";"; Tok.type := TOK_END;
                             Tok.error := TOK_ERROR_NONE; Tok.error_offset := 0;
                             Tok.offset := 0; Tok.length := 1 |})) as H1
    by (vm_compute; reflexivity).
  assert (next (fst (next t0))
          = (fst (next (fst (next t0))),
             Some {| Tok.text := L "a"; Tok.type := TOK_STRING;
                     Tok.error := TOK_ERROR_NONE; Tok.error_offset := 0;
                     Tok.offset := 1; Tok.length := 1 |})) as H2
    by (vm_compute; reflexivity).
  cbn [next_n]. rewrite H1. rewrite H2. reflexivity.
Qed.

(** * Background tokens *)

Section Background.
Context {LC : wctype}.

(** With the cursor on an ampersand, [next] emits a Background token whose
    text is what [last_token] held before the call: the case of the [switch]
    sets the kind and moves the cursor, and leaves [last_token] alone. *)
Lemma background_token_text (t : tokenizer_t) (r : wcstring) :
  has_next t = true -> rest t = c_amp :: r ->
  snd (next t) =
  Some {| Tok.text := last_token t; Tok.type := TOK_BACKGROUND;
          Tok.error := TOK_ERROR_NONE; Tok.error_offset := 0;
          Tok.offset := buff t; Tok.length := 1 |}.
Proof.
  intros Hn Hrest. unfold next.
  rewrite (tok_next_at_token t 38 r Hn Hrest) by
    (try discriminate; apply iswspace_not_nl_ascii_graph; lia).
  unfold tok_next_dispatch. change (cur (at_token t)) with (cur t).
  rewrite (rest_cur t 38 r Hrest). cbn [Z.eqb Pos.eqb orb negb snd].
  unfold at_token. fields. cbn [token_type_eqb andb].
  replace (buff t <=? S (buff t))%nat with true by (symmetry; apply Nat.leb_le; lia).
  f_equal. f_equal. lia.
Qed.

End Background.

(** C5 fails on the code: after the String token [a] of the source [a&], the
    Background token has the text [a], not the empty text. *)
Lemma background_token_has_stale_text :
  next_n 2 (tokenizer (L "a&") strict_flags)
  = [ {| Tok.text := L "a"; Tok.type := TOK_STRING;
         Tok.error := TOK_ERROR_NONE; Tok.error_offset := 0;
         Tok.offset := 0; Tok.length := 1 |};
      {| Tok.text := L "a"; Tok.type := TOK_BACKGROUND;
         Tok.error := TOK_ERROR_NONE; Tok.error_offset := 0;
         Tok.offset := 1; Tok.length := 1 |} ].
Proof. vm_compute. reflexivity. Qed.

(** * Quotes inside a bareword *)

Section Quotes.
Context {LC : wctype}.

(** In the modes for regular text, a subshell and a subshell inside array
    brackets, a quote character hands over to the quote scanner. *)
Lemma quote_starts_the_quote_scanner (buff_start : nat) (t : tokenizer_t)
    (v : rs_locals) :
  mode v <> mode_array_brackets ->
  cur t = c_squote \/ cur t = c_dquote ->
  rs_switch buff_start t v = rs_quote t v.
Proof.
  intros Hm Hc. unfold rs_switch.
  destruct (mode v); try contradiction; destruct Hc as [-> | ->]; reflexivity.
Qed.

(** In the mode for array brackets there is no case for a quote character:
    it is passed like any other character, and the quote scanner does not
    run. *)
Lemma quote_in_array_brackets_is_passed (buff_start : nat) (t : tokenizer_t)
    (v : rs_locals) :
  mode v = mode_array_brackets ->
  cur t = c_squote \/ cur t = c_dquote ->
  rs_switch buff_start t v = (t, Some v).
Proof.
  intros Hm Hc. unfold rs_switch. rewrite Hm.
  destruct Hc as [-> | ->]; reflexivity.
Qed.

End Quotes.

(** C7 fails on the code in the mode for array brackets.  In strict mode the
    unterminated quote of [a['] is reported as an unterminated slice, at the
    bracket, and the unterminated quote of [a[']] is not reported at all: the
    bracket that follows it closes the slice and the word is a String token;
    in regular text the same quote, [a'], is an UnterminatedQuote error. *)
Lemma quote_in_array_brackets_is_not_scanned :
  snd (next (tokenizer (L "a['") strict_flags))
  = Some {| Tok.text := SQUARE_BRACKET_ERROR; Tok.type := TOK_ERROR;
            Tok.error := TOK_UNTERMINATED_SLICE; Tok.error_offset := 1;
            Tok.offset := 0; Tok.length := 3 |}
  /\ snd (next (tokenizer (L "a[']") strict_flags))
     = Some {| Tok.text := L "a[']"; Tok.type := TOK_STRING;
               Tok.error := TOK_ERROR_NONE; Tok.error_offset := 0;
               Tok.offset := 0; Tok.length := 4 |}
  /\ snd (next (tokenizer (L "a'") strict_flags))
     = Some {| Tok.text := QUOTE_ERROR; Tok.type := TOK_ERROR;
               Tok.error := TOK_UNTERMINATED_QUOTE; Tok.error_offset := 1;
               Tok.offset := 0; Tok.length := 2 |}.
Proof. repeat split; vm_compute; reflexivity. Qed.

(** * What the string scanner passes *)

Section Scans.
Context {LC : wctype}.

Lemma scans_to_trans (buff_start : nat) (t : tokenizer_t) (v : rs_locals)
    (t1 : tokenizer_t) (v1 : rs_locals) (t2 : tokenizer_t) (v2 : rs_locals) :
  scans_to buff_start t v t1 v1 -> scans_to buff_start t1 v1 t2 v2 ->
  scans_to buff_start t v t2 v2.
Proof.
  intros H. induction H as [|t v ta va tb vb Hr _ IH]; intros H2; [exact H2|].
  eapply scans_round; [exact Hr|]. apply IH, H2.
Qed.

(** Scanning moves the cursor and nothing else, one character at least per
    round, and the loop of [read_string] goes through the same rounds. *)
Lemma scans_to_loop (buff_start : nat) (t : tokenizer_t) (v : rs_locals)
    (t' : tokenizer_t) (v' : rs_locals) :
  scans_to buff_start t v t' v' ->
  t' = set_buff t (buff t')
  /\ exists k : nat,
       (buff t + k <= buff t')%nat
       /\ forall fuel : nat,
            read_string_loop (k + fuel) buff_start t v
            = read_string_loop fuel buff_start t' v'.
Proof.
  intros H. induction H as [t v|t v t1 v1 t2 v2 Hr _ IH].
  - split; [symmetry; apply set_buff_same|]. exists O. split; [lia|reflexivity].
  - pose proof (read_string_round_spec buff_start t v) as Hs. rewrite Hr in Hs.
    destruct Hs as (b1 & -> & Hb1). destruct IH as (Ht2 & k & Hk & Hloop).
    fields. split; [rewrite Ht2 at 1; reflexivity|].
    exists (S k). split; [lia|]. intros fuel.
    cbn [Nat.add read_string_loop]. rewrite Hr. apply Hloop.
Qed.

End Scans.

(** * A backslash at the end of the input *)

Section TrailingBackslash.
Context {LC : wctype}.





End TrailingBackslash.

(** * Hashes inside a bareword *)

Lemma hash_is_a_string_character (is_first_ : bool) :
  tok_is_string_character c_hash is_first_ = true.
Proof. destruct is_first_; reflexivity. Qed.

Lemma hash_is_ordinary : ordinary c_hash = true.
Proof. reflexivity. Qed.



Lemma not_string_character_any (c : wchar) (is_first_ : bool) :
  tok_is_string_character c false = false ->
  tok_is_string_character c is_first_ = false
  /\ myal c = false /\ c <> c_backslash /\ c <> c_lparen /\ c <> c_lbracket
  /\ c <> c_squote /\ c <> c_dquote.
Proof.
  intros H. split.
  - unfold tok_is_string_character in *.
    destruct ((c =? 0) || (c =? 32) || (c =? 10) || (c =? 124) || (c =? 9)
              || (c =? 59) || (c =? 13) || (c =? 60) || (c =? 62) || (c =? 38));
      [reflexivity|].
    destruct (c =? 94); discriminate.
  - split.
    + destruct (myal c) eqn:E; [|reflexivity]. exfalso.
      unfold myal in E. unfold tok_is_string_character in H.
      repeat match type of H with
      | context [Z.eqb c ?k] => destruct (Z.eqb_spec c k); [subst c; discriminate|]
      end. discriminate.
    + repeat split; intros ->; discriminate.
Qed.

Section HashInBareword.
Context {LC : wctype}.

Lemma rest_step (t : tokenizer_t) (c : wchar) (s : wcstring) :
  rest t = c :: s -> rest (set_buff t (S (buff t))) = s.
Proof.
  unfold rest. fields. intros H.
  change (S (buff t)) with (1 + buff t)%nat.
  rewrite <- skipn_skipn, H. reflexivity.
Qed.

Lemma set_is_first_same (v : rs_locals) :
  is_first v = false -> set_is_first v false = v.
Proof. destruct v. simpl. intros ->. reflexivity. Qed.

(** A hash under the cursor of the string scanner is passed like a letter,
    in every mode. *)
Lemma round_on_hash (buff_start : nat) (t : tokenizer_t) (v : rs_locals) :
  do_loop v = true -> cur t = c_hash ->
  read_string_round buff_start t v
  = rs_again (set_buff t (S (buff t))) (set_is_first v false).
Proof.
  intros Hd Hc. unfold read_string_round, rs_switch, rs_round_end. rewrite Hc.
  cbn [myal Z.leb Z.compare Pos.compare Pos.compare_cont andb orb negb Z.eqb Pos.eqb].
  rewrite hash_is_a_string_character. cbn [negb].
  destruct (mode v); rewrite Hd; reflexivity.
Qed.


(** In regular text a character that is no string character ends the
    loop. *)
Lemma round_on_terminator (buff_start : nat) (t : tokenizer_t) (v : rs_locals) :
  mode v = mode_regular_text ->
  tok_is_string_character (cur t) false = false ->
  read_string_round buff_start t v = rs_break t (set_do_loop v false).
Proof.
  intros Hm Ht.
  destruct (not_string_character_any _ (is_first v) Ht)
    as (Hs & Ha & H1 & H2 & H3 & H4 & H5).
  unfold read_string_round, rs_round_end, rs_switch. rewrite Ha, Hm. cbn [negb].
  destruct (Z.eqb_spec (cur t) 92); [contradiction|].
  destruct (Z.eqb_spec (cur t) 40); [contradiction|].
  destruct (Z.eqb_spec (cur t) 91); [contradiction|].
  destruct (Z.eqb_spec (cur t) 39); [contradiction|].
  destruct (Z.eqb_spec (cur t) 34); [contradiction|]. cbn [orb].
  rewrite Hs. reflexivity.
Qed.



End HashInBareword.



Section BarewordToken.
Context {LC : wctype}.



End BarewordToken.


(** * More of the driver: where a token starts *)

Section TokenStart.
Context {LC : wctype}.

(** Where the first loop of [tok_next] stops there is no blank and no
    escaped newline. *)
Lemma skip_blanks_stop :
  forall (n : nat) (s : wcstring),
    (List.length s <= n)%nat ->
    iswspace_not_nl (wat s (fst (skip_blanks s))) = false
    /\ ((wat s (fst (skip_blanks s)) =? c_backslash)
        && (wat s (S (fst (skip_blanks s))) =? c_nl)) = false.
Proof.
  induction n as [|n IH]; intros s Hn.
  - destruct s; simpl in Hn; [|lia]. simpl. split; [apply iswspace_not_nl_nul|reflexivity].
  - destruct s as [|c s]; [simpl; split; [apply iswspace_not_nl_nul|reflexivity]|].
    simpl in Hn. cbn [skip_blanks].
    destruct ((c =? 92) && (wat s 0 =? 10)) eqn:Eesc.
    + destruct s as [|d s];
        [change (wat [] 0 =? 10) with false in Eesc;
         rewrite andb_false_r in Eesc; discriminate|].
      specialize (IH s ltac:(simpl in Hn; lia)).
      destruct (skip_blanks s) as [k b]. exact IH.
    + destruct (iswspace_not_nl c) eqn:Ew.
      * specialize (IH s ltac:(lia)). destruct (skip_blanks s) as [k b]. exact IH.
      * cbn [fst]. split; [exact Ew|exact Eesc].
Qed.

(** What the comment loop leaves: a comment token, which it returns only
    when comments are shown and which starts at or after the cursor and ends
    after its hash; or a tokenizer that differs in its cursor only, on a
    character that is no hash and no blank. *)
Lemma skip_comments_cases :
  forall (fuel : nat) (t t' : tokenizer_t) (returned : bool),
    skip_comments fuel t = Some (t', returned) ->
    iswspace_not_nl (cur t) = false ->
    if returned
    then show_comments t = true /\ last_type t' = TOK_COMMENT
         /\ (buff t <= last_pos t' < buff t')%nat
    else t' = set_buff t (buff t') /\ cur t' <> c_hash
         /\ iswspace_not_nl (cur t') = false.
Proof.
  induction fuel as [|fuel IH]; intros t t' returned H Hw; [discriminate|].
  cbn [skip_comments] in H.
  destruct (Z.eqb_spec (cur t) 35) as [Eh|Eh].
  2:{ inversion H; subst. rewrite set_buff_same. auto. }
  assert (1 <= scan_while not_end_of_line (rest t))%nat as Hpos.
  { destruct (rest_cons t ltac:(lia)) as [s' ->]. rewrite Eh. simpl. lia. }
  set (n1 := scan_while not_end_of_line (rest t)) in *.
  set (t1 := set_buff t (buff t + n1)) in *.
  match type of H with
  | context [if ?c then set_buff t1 ?x else t1] =>
      assert (exists b2, (buff t + n1 <= b2)%nat
                         /\ (if c then set_buff t1 x else t1) = set_buff t b2)
        as (b2 & Hb2 & Ht2)
  end.
  { destruct ((cur t1 =? 10) && continue_line_after_comment t1).
    - exists (S (buff t + n1)). split; [lia|reflexivity].
    - exists (buff t + n1)%nat. split; [lia|reflexivity]. }
  rewrite Ht2 in H. fields.
  destruct (show_comments t) eqn:Es.
  - inversion H; subst. fields. repeat split; try reflexivity; lia.
  - apply IH in H.
    + destruct returned.
      * fields. destruct H as (Hs & Hty & Hb). rewrite Es in Hs. discriminate.
      * destruct H as (Ht' & Hh & Hw'). fields. rewrite Ht' at 1. auto.
    + unfold cur. fields. rewrite <- wat_skipn.
      apply scan_while_stop, iswspace_not_nl_nul.
Qed.

(** How [tok_next] reaches a token: it returns a comment, when comments are
    shown; or it enters its [switch] on a character that is no blank and no
    hash, with [last_pos] on the cursor and the text of the token before
    still in [last_token]. *)
Lemma tok_next_cases (t : tokenizer_t) :
  in_bounds t -> has_next t = true ->
  (exists t', tok_next t = (t', true) /\ last_type t' = TOK_COMMENT
              /\ show_comments t = true
              /\ (buff t <= last_pos t' < buff t')%nat)
  \/ (exists t3, tok_next t = tok_next_dispatch t3
                 /\ same_setup t t3 /\ has_next t3 = true
                 /\ (buff t <= buff t3 <= List.length (start t))%nat
                 /\ last_pos t3 = buff t3
                 /\ iswspace_not_nl (cur t3) = false /\ cur t3 <> c_hash
                 /\ last_token t3 = last_token t).
Proof.
  intros Hin Hn. unfold in_bounds in Hin. unfold tok_next. rewrite Hn. cbn [negb].
  pose proof (skip_blanks_le _ (rest t) (Nat.le_refl _)) as Hle.
  pose proof (skip_blanks_stop _ (rest t) (Nat.le_refl _)) as [Hstop _].
  rewrite length_rest in Hle.
  destruct (skip_blanks (rest t)) as [n escaped_nl]. cbn [fst] in Hle, Hstop.
  set (t1 := set_buff t (buff t + n)).
  set (t2 := if escaped_nl then set_continue_line_after_comment t1 true else t1).
  assert (same_setup t t2 /\ buff t2 = (buff t + n)%nat /\ start t2 = start t
          /\ has_next t2 = true /\ last_token t2 = last_token t
          /\ show_comments t2 = show_comments t)
    as (Hs2 & Hb2 & Hst2 & Hn2 & Hl2 & Hsc2).
  { unfold t2, t1. destruct escaped_nl; unfold same_setup; fields; auto 10. }
  assert (iswspace_not_nl (cur t2) = false) as Hw2.
  { unfold cur. rewrite Hb2, Hst2, <- wat_skipn. exact Hstop. }
  destruct (skip_comments_total (skip_comments_fuel t2) t2) as (t3 & r & Hrun & Hs3 & Hb3 & _).
  { unfold in_bounds. rewrite Hb2, Hst2. lia. }
  { unfold skip_comments_fuel. lia. }
  rewrite Hrun. pose proof (skip_comments_cases _ _ _ _ Hrun Hw2) as Hc.
  rewrite Hb2, Hst2 in Hb3.
  destruct r.
  - left. exists t3. destruct Hc as (Hsh & Hty & Hpos).
    split; [reflexivity|]. split; [exact Hty|]. split; [congruence|]. lia.
  - right. destruct Hc as (Ht3 & Hh & Hw3).
    exists (set_last_pos (set_continue_line_after_comment t3 false) (buff t3)).
    split; [reflexivity|].
    split.
    { eapply same_setup_trans; [exact Hs2|].
      eapply same_setup_trans; [exact Hs3|]. unfold same_setup; fields; auto. }
    fields. split; [rewrite Ht3; fields; exact Hn2|].
    split; [lia|]. split; [reflexivity|].
    split; [exact Hw3|]. split; [exact Hh|].
    rewrite Ht3. fields. exact Hl2.
Qed.

End TokenStart.

(** * Progress *)

Section Progress.
Context {LC : wctype}.

(** The first round of the string scanner, on a character that may begin a
    string, does not leave the loop without having moved the cursor. *)
Lemma first_round_moves (buff_start : nat) (t : tokenizer_t) (v : rs_locals) :
  mode v = mode_regular_text -> do_loop v = true -> is_first v = true ->
  tok_is_string_character (cur t) true = true ->
  match read_string_round buff_start t v with
  | rs_break t' _ => (buff t < buff t')%nat
  | _ => True
  end.
Proof.
  intros Hm Hd Hf Hs.
  pose proof (tok_is_string_character_nonzero _ _ Hs) as Hnz.
  unfold read_string_round, rs_round_end.
  destruct (myal (cur t)); cbn [negb]; [rewrite Hd; exact I|].
  destruct (Z.eqb_spec (cur t) 92).
  { cbv zeta. destruct (cur (set_buff t (S (buff t))) =? 0); [|exact I].
    fields. destruct (accept_unfinished t); exact I. }
  unfold rs_switch. rewrite Hm, Hf, Hs. cbn [negb].
  destruct (cur t =? 40); [cbn [do_loop set_mode set_parans]; rewrite Hd; exact I|].
  destruct (cur t =? 91).
  { destruct (negb (buff t =? buff_start)%nat);
      cbn [do_loop set_mode set_offset_of_bracket]; rewrite Hd; exact I. }
  destruct ((cur t =? 39) || (cur t =? 34)); [|rewrite Hd; exact I].
  unfold rs_quote. destruct (quote_end (rest t)); [rewrite Hd; exact I|].
  cbv zeta. fields. destruct (accept_unfinished t); cbn [negb]; [|exact I].
  cbn [do_loop set_do_loop negb]. fields.
  destruct (rest_cons t Hnz) as [s' ->]. simpl.
  destruct (Z.eqb_spec (cur t) 0); [contradiction|lia].
Qed.

(** When [read_string] starts on a character that may begin a string and
    stores a String token, the token is not empty. *)
Lemma read_string_moves (t : tokenizer_t) :
  in_bounds t -> tok_is_string_character (cur t) true = true ->
  last_type (read_string t) = TOK_STRING ->
  (buff t < buff (read_string t))%nat.
Proof.
  intros Hin Hs. unfold read_string, read_string_fuel.
  cbn [read_string_loop].
  pose proof (first_round_moves (buff t) t rs_initial eq_refl eq_refl eq_refl Hs) as H1.
  pose proof (read_string_round_spec (buff t) t rs_initial) as H2.
  destruct (read_string_round (buff t) t rs_initial) as [t1|t1 v1|t1 v1].
  - destruct H2 as (_ & b' & e & w & -> & _). discriminate.
  - intros _. destruct H2 as (b' & -> & _).
    unfold read_string_finish.
    match goal with |- context [if ?c then _ else _] => destruct c end;
      destruct (mode v1); fields; exact H1.
  - destruct H2 as (b1 & -> & Hb1).
    destruct (read_string_loop_total (buff t) (List.length (start t) - buff t)
                (set_buff t b1) v1 ltac:(fields; lia)) as (t' & r & -> & Hr).
    destruct r as [v'|].
    + destruct Hr as (b' & -> & Hle & _). fields. intros _.
      unfold read_string_finish.
      match goal with |- context [if ?c then _ else _] => destruct c end;
        destruct (mode v'); fields; lia.
    + destruct Hr as (_ & b' & e & w & -> & _). discriminate.
Qed.

(** The [switch] of [tok_next], entered on a character that is no blank,
    moves the cursor whenever it leaves a token that is no error. *)
Lemma tok_next_dispatch_moves (t t' : tokenizer_t) :
  in_bounds t -> iswspace_not_nl (cur t) = false ->
  tok_next_dispatch t = (t', true) ->
  last_type t' <> TOK_ERROR ->
  (buff t < buff t')%nat.
Proof.
  intros Hin Hw. unfold tok_next_dispatch.
  destruct (Z.eqb_spec (cur t) 0) as [E0|E0]; [discriminate|].
  destruct ((cur t =? 13) || (cur t =? 10) || (cur t =? 59)) eqn:Eend.
  { intros H _. inversion H; subst.
    destruct (negb (show_blank_lines _)); fields; lia. }
  destruct (Z.eqb_spec (cur t) 38) as [Ea|Ea].
  { intros H _. inversion H; subst. fields. lia. }
  destruct (Z.eqb_spec (cur t) 124) as [Ep|Ep].
  { intros H _. inversion H; subst. fields. lia. }
  destruct ((cur t =? 62) || (cur t =? 60) || (cur t =? 94)) eqn:Ered.
  { destruct (read_redirection_or_fd_pipe (rest t)) as [[consumed mode_] fd].
    destruct ((consumed =? 0)%nat || (fd <? 0)) eqn:Ebad.
    - intros H Hne. inversion H; subst. exfalso. apply Hne. reflexivity.
    - intros H _. inversion H; subst. fields.
      apply orb_false_iff in Ebad. destruct Ebad as [Ec _].
      apply Nat.eqb_neq in Ec. lia. }
  assert (Hstring : (read_string t, true) = (t', true) ->
                    last_type t' <> TOK_ERROR -> (buff t < buff t')%nat).
  { intros H Hne. inversion H; subst.
    destruct (read_string_spec t Hin) as (b' & Hb' & [Hs|(_ & e & w & He & Hs)]).
    - apply read_string_moves; [exact Hin| |rewrite Hs; reflexivity].
      unfold tok_is_string_character.
      apply orb_false_iff in Eend. destruct Eend as [Eend E59].
      apply orb_false_iff in Eend. destruct Eend as [E13 E10].
      apply orb_false_iff in Ered. destruct Ered as [Ered E94].
      apply orb_false_iff in Ered. destruct Ered as [E62 E60].
      rewrite E13, E10, E59, E62, E60, E94.
      destruct (Z.eqb_spec (cur t) 0); [contradiction|].
      destruct (Z.eqb_spec (cur t) 38); [contradiction|].
      destruct (Z.eqb_spec (cur t) 124); [contradiction|].
      unfold iswspace_not_nl in Hw.
      destruct (Z.eqb_spec (cur t) 32); [discriminate|].
      destruct (Z.eqb_spec (cur t) 9); [simpl in Hw; discriminate|].
      reflexivity.
    - exfalso. apply Hne. rewrite Hs. reflexivity. }
  destruct (iswdigit (cur t)); [|exact Hstring].
  destruct (read_redirection_or_fd_pipe (rest t)) as [[consumed mode_] fd].
  destruct (Nat.ltb_spec 0 consumed) as [Hc|Hc]; [|exact Hstring].
  destruct (token_type_eqb mode_ TOK_PIPE && (fd =? 0)).
  - intros H Hne. inversion H; subst. exfalso. apply Hne. reflexivity.
  - intros H _. inversion H; subst. fields. lia.
Qed.

Lemma read_string_last_pos (t : tokenizer_t) :
  in_bounds t -> last_pos (read_string t) = last_pos t.
Proof.
  intros Hin.
  destruct (read_string_spec t Hin) as (b' & _ & [-> | (_ & e & w & _ & ->)]);
    reflexivity.
Qed.

Lemma tok_next_dispatch_last_pos (t : tokenizer_t) :
  in_bounds t -> last_pos (fst (tok_next_dispatch t)) = last_pos t.
Proof.
  intros Hin. unfold tok_next_dispatch.
  repeat match goal with
  | |- context [if ?b then _ else _] => destruct b
  | |- context [let '(_, _) := ?x in _] => destruct x as [[? ?] ?]
  end; cbn [fst]; fields; try reflexivity; apply read_string_last_pos, Hin.
Qed.

(** One call of [next] that emits a token: the token starts at or after the
    old cursor and ends on the new one, and unless it is an error it covers
    a character at least. *)
Lemma next_moves (t t' : tokenizer_t) (tok : tok_t) :
  in_bounds t -> next t = (t', Some tok) ->
  (buff t <= Tok.offset tok)%nat
  /\ (Tok.offset tok + Tok.length tok)%nat = buff t'
  /\ (Tok.type tok <> TOK_ERROR -> (1 <= Tok.length tok)%nat /\ (buff t < buff t')%nat).
Proof.
  intros Hin Hnext.
  pose proof (next_spec t Hin) as (_ & _ & Htok). rewrite Hnext in Htok.
  cbn [fst snd] in Htok. destruct Htok as ((Hb & _) & ->).
  unfold next in Hnext. destruct (tok_next t) as [t1 more] eqn:Etn.
  destruct more; cbn [negb] in Hnext; [|discriminate].
  assert (t1 = t') as -> by (inversion Hnext; reflexivity). clear Hnext.
  assert (has_next t = true) as Hn.
  { unfold tok_next in Etn. destruct (has_next t); [reflexivity|discriminate]. }
  cbn [token_of Tok.offset Tok.length Tok.type].
  destruct (Nat.leb_spec (last_pos t') (buff t')) as [_|Hbad]; [|lia].
  destruct (tok_next_cases t Hin Hn) as [(t2 & Hc2 & Hty & _ & Hpos)|
                                          (t3 & Hc3 & Hs3 & _ & Hb3 & Hp3 & Hw3 & _)].
  - rewrite Etn in Hc2. assert (t2 = t') as -> by (inversion Hc2; reflexivity).
    split; [lia|]. split; [lia|]. intros _. lia.
  - rewrite Etn in Hc3. symmetry in Hc3.
    destruct Hs3 as (Hst3 & _).
    assert (in_bounds t3) as Hin3 by (unfold in_bounds; rewrite Hst3; lia).
    pose proof (tok_next_dispatch_last_pos t3 Hin3) as Hlp.
    rewrite Hc3 in Hlp. cbn [fst] in Hlp.
    split; [lia|]. split; [lia|]. intros Hne.
    pose proof (tok_next_dispatch_moves t3 t' Hin3 Hw3 Hc3 Hne). lia.
Qed.

End Progress.

Section TokenStream.
Context {LC : wctype}.

Lemma next_start (t : tokenizer_t) :
  in_bounds t -> start (fst (next t)) = start t.
Proof. intros Hin. destruct (next_spec t Hin) as ((Hst & _) & _). exact Hst. Qed.

Lemma error_token_clears_has_next (t t' : tokenizer_t) (tok : tok_t) :
  in_bounds t -> next t = (t', Some tok) -> Tok.type tok = TOK_ERROR ->
  has_next t' = false.
Proof.
  intros Hin Hnext Hty. destruct (next_spec t Hin) as (_ & _ & Htok).
  rewrite Hnext in Htok. cbn [fst snd] in Htok. destruct Htok as ((_ & Hk) & ->).
  cbn [token_of Tok.type] in Hty. rewrite Hty in Hk. apply Hk.
Qed.

Lemma token_type_error_dec (ty : token_type) : {ty = TOK_ERROR} + {ty <> TOK_ERROR}.
Proof. destruct ty; (left; reflexivity) || (right; discriminate). Qed.

(** X1.  Two successive tokens of a tokenizer do not overlap: when a call of
    [next] emits a token and the call after it emits another, the first
    covers one character at least and the second starts at or after the end
    of the first, so offsets strictly increase. *)
Theorem successive_tokens_do_not_overlap :
  forall (src : wcstring) (flags : tok_flags_t) (n : nat)
         (t1 t2 : tokenizer_t) (tok1 tok2 : tok_t),
    next (after_next n (tokenizer src flags)) = (t1, Some tok1) ->
    next t1 = (t2, Some tok2) ->
    (1 <= Tok.length tok1)%nat
    /\ (Tok.offset tok1 + Tok.length tok1 <= Tok.offset tok2)%nat
    /\ (Tok.offset tok1 < Tok.offset tok2)%nat.
Proof.
  intros src flags n t1 t2 tok1 tok2 H1 H2.
  destruct (after_next_spec src flags n) as (_ & Hin).
  pose proof (next_spec _ Hin) as (_ & Hin1 & _). rewrite H1 in Hin1. cbn [fst] in Hin1.
  destruct (next_moves _ _ _ Hin H1) as (_ & Hend1 & Hlen1).
  destruct (next_moves _ _ _ Hin1 H2) as (Hstart2 & _).
  destruct (token_type_error_dec (Tok.type tok1)) as [He|Hne].
  - pose proof (error_token_clears_has_next _ _ _ Hin H1 He) as Hn.
    rewrite (next_without_has_next t1 Hn) in H2. discriminate.
  - destruct (Hlen1 Hne) as (Hl & _). lia.
Qed.

Lemma next_n_bound (n : nat) :
  forall t : tokenizer_t,
    in_bounds t ->
    (List.length (next_n n t) <= S (List.length (start t) - buff t))%nat.
Proof.
  induction n as [|n IH]; intros t Hin; cbn [next_n]; [simpl; lia|].
  pose proof (next_spec t Hin) as ((Hst & _) & Hin' & Htok).
  pose proof (next_moves t) as Hmv.
  destruct (next t) as [t' [tok|]]; cbn [fst snd] in *.
  - destruct (Hmv t' tok Hin eq_refl) as (_ & _ & Hlen).
    destruct (token_type_error_dec (Tok.type tok)) as [He|Hne].
    + destruct Htok as ((_ & Hk) & ->). cbn [token_of Tok.type] in He.
      rewrite He in Hk. destruct Hk as (_ & _ & Hn).
      rewrite (next_n_without_has_next n t' Hn). simpl. lia.
    + destruct (Hlen Hne) as (_ & Hlt). specialize (IH t' Hin').
      unfold in_bounds in Hin'. rewrite Hst in *. simpl. lia.
  - rewrite (next_n_without_has_next n t' Htok). simpl. lia.
Qed.

Lemma after_next_has_next_or_moves (k : nat) :
  forall t : tokenizer_t,
    in_bounds t ->
    has_next (after_next k t) = false \/ (buff t + k <= buff (after_next k t))%nat.
Proof.
  induction k as [|k IH]; intros t Hin; cbn [after_next]; [right; lia|].
  pose proof (next_spec t Hin) as (_ & Hin' & Htok).
  pose proof (next_moves t) as Hmv.
  destruct (next t) as [t' [tok|]]; cbn [fst snd] in *.
  - destruct (Hmv t' tok Hin eq_refl) as (_ & _ & Hlen).
    destruct (token_type_error_dec (Tok.type tok)) as [He|Hne].
    + left. destruct Htok as ((_ & Hk) & ->). cbn [token_of Tok.type] in He.
      rewrite He in Hk. destruct Hk as (_ & _ & Hn).
      rewrite after_next_without_has_next by exact Hn. exact Hn.
    + destruct (Hlen Hne) as (_ & Hlt).
      destruct (IH t' Hin') as [Hf|Hm]; [left; exact Hf|right; lia].
  - left. rewrite after_next_without_has_next by exact Htok. exact Htok.
Qed.

(** X2.  Tokenizing ends: whatever the number of calls, a tokenizer emits no
    more tokens than its source has characters, and one more; and after one
    call per character and one more, [has_next] is false. *)
Theorem token_stream_is_bounded :
  forall (src : wcstring) (flags : tok_flags_t) (n : nat),
    (List.length (next_n n (tokenizer src flags)) <= S (List.length src))%nat
    /\ has_next (after_next (S (List.length src)) (tokenizer src flags)) = false.
Proof.
  intros src flags n.
  assert (in_bounds (tokenizer src flags)) as Hin by (unfold in_bounds; simpl; lia).
  split.
  - pose proof (next_n_bound n _ Hin) as H. simpl in H. lia.
  - destruct (after_next_has_next_or_moves (S (List.length src)) _ Hin) as [Hf|Hm];
      [exact Hf|].
    destruct (after_next_spec src flags (S (List.length src))) as ((Hst & _) & Hb).
    unfold in_bounds in Hb. rewrite Hst in Hb. simpl in Hb, Hm. lia.
Qed.

End TokenStream.

(** A witness: the two tokens of [echo hi]. *)
Lemma successive_tokens_do_not_overlap_witness :
  let tok1 := {| Tok.text := L "echo"; Tok.type := TOK_STRING;
                 Tok.error := TOK_ERROR_NONE; Tok.error_offset := 0;
                 Tok.offset := 0; Tok.length := 4 |} in
  let tok2 := {| Tok.text := L "hi"; Tok.type := TOK_STRING;
                 Tok.error := TOK_ERROR_NONE; Tok.error_offset := 0;
                 Tok.offset := 5; Tok.length := 2 |} in
  (1 <= Tok.length tok1)%nat
  /\ (Tok.offset tok1 + Tok.length tok1 <= Tok.offset tok2)%nat
  /\ (Tok.offset tok1 < Tok.offset tok2)%nat.
Proof.
  refine (successive_tokens_do_not_overlap (L "echo hi") strict_flags 0
            (fst (next (tokenizer (L "echo hi") strict_flags)))
            (fst (next (fst (next (tokenizer (L "echo hi") strict_flags)))))
            _ _ _ _); vm_compute; reflexivity.
Defined.

(** * The kinds of tokens and of errors *)

(** On a redirection character the reader does not fail: it consumes it and
    returns the fd 0, 1 or 2. *)
Lemma read_redirection_on_sigil (s : wcstring) :
  wat s 0 = c_gt \/ wat s 0 = c_lt \/ wat s 0 = c_caret ->
  let '(consumed, _, fd) := read_redirection_or_fd_pipe s in
  (1 <= consumed)%nat /\ 0 <= fd <= 2.
Proof.
  intros Hc. destruct s as [|c s]; [unfold wat in Hc; simpl in Hc; lia|].
  change (wat (c :: s) 0) with c in Hc.
  unfold read_redirection_or_fd_pipe. cbn [read_fd_digits].
  assert (iswdigit c = false) as Hd by (destruct Hc as [-> | [-> | ->]]; reflexivity).
  rewrite Hd. cbv zeta iota beta. change ((0 =? 0)%nat) with true.
  change (0 >? INT_MAX) with false. change (wat (c :: s) 0) with c.
  cbv iota beta. unfold STDOUT_FILENO, STDIN_FILENO, STDERR_FILENO.
  destruct Hc as [-> | [-> | ->]]; cbn [Z.eqb Pos.eqb orb andb Nat.eqb];
    repeat match goal with
    | |- context [if ?b then _ else _] => destruct b
    end; split; lia.
Qed.

(** * The locals of the string scanner *)

Lemma array_set_length (a : list nat) (i x : nat) :
  List.length (array_set a i x) = List.length a.
Proof.
  revert i. induction a as [|y a IH]; intros i; [reflexivity|].
  destruct i; simpl; [reflexivity|]. rewrite IH. reflexivity.
Qed.

Lemma array_set_nth_same (a : list nat) (i x : nat) :
  (i < List.length a)%nat -> nth i (array_set a i x) O = x.
Proof.
  revert i. induction a as [|y a IH]; intros i Hi; simpl in Hi; [lia|].
  destruct i; simpl; [reflexivity|]. apply IH. lia.
Qed.

Lemma array_set_nth_other (a : list nat) (i j x : nat) :
  i <> j -> nth j (array_set a i x) O = nth j a O.
Proof.
  revert i j. induction a as [|y a IH]; intros i j Hne; [reflexivity|].
  destruct i, j; simpl; try reflexivity; [lia|]. apply IH. lia.
Qed.

Lemma locals_ok_initial (t : tokenizer_t) : locals_ok (buff t) t rs_initial.
Proof.
  unfold locals_ok. simpl. split; [lia|]. split; [reflexivity|].
  split; discriminate.
Qed.

(** Moving the cursor forward keeps the locals right. *)
Lemma locals_ok_forward (buff_start : nat) (t : tokenizer_t) (v : rs_locals) (b' : nat) :
  (buff t <= b')%nat -> locals_ok buff_start t v ->
  locals_ok buff_start (set_buff t b') v.
Proof.
  intros Hb (H1 & H2 & H3 & H4). unfold locals_ok. fields.
  split; [lia|]. split; [exact H2|]. split.
  - intros Hm. destruct (H3 Hm) as (Hp & Hall). split; [exact Hp|].
    intros i Hi Hi'. destruct (Hall i Hi Hi') as (Hr & Hw). split; [lia|exact Hw].
  - intros Hm. destruct (H4 Hm) as (Hr & Hw). split; [lia|exact Hw].
Qed.

Section ScannerLocals.
Context {LC : wctype}.

Lemma locals_ok_set_do_loop (buff_start : nat) (t : tokenizer_t) (v : rs_locals)
    (b : bool) :
  locals_ok buff_start t v -> locals_ok buff_start t (set_do_loop v b).
Proof. intros H. exact H. Qed.

Lemma locals_ok_set_is_first (buff_start : nat) (t : tokenizer_t) (v : rs_locals)
    (b : bool) :
  locals_ok buff_start t v -> locals_ok buff_start t (set_is_first v b).
Proof. intros H. exact H. Qed.

Lemma rs_quote_locals (buff_start : nat) (t : tokenizer_t) (v : rs_locals) :
  locals_ok buff_start t v ->
  match rs_quote t v with
  | (t1, Some v1) =>
      if do_loop v1 then locals_ok buff_start (set_buff t1 (S (buff t1))) v1
      else locals_ok buff_start t1 v1
  | (_, None) => True
  end.
Proof.
  intros Hok. unfold rs_quote.
  destruct (quote_end (rest t)) as [e|].
  - destruct (do_loop v).
    + apply locals_ok_forward; [fields; lia|].
      apply locals_ok_forward; [lia|exact Hok].
    + apply locals_ok_forward; [lia|exact Hok].
  - cbv zeta. fields. destruct (accept_unfinished t); cbn [negb]; [|exact I].
    cbn [do_loop set_do_loop].
    apply locals_ok_set_do_loop, locals_ok_forward; [lia|exact Hok].
Qed.

(** The mode switch keeps the locals right: after it, once the cursor has
    moved on when the loop goes on, or where it is when the loop ends. *)
Lemma rs_switch_locals (buff_start : nat) (t : tokenizer_t) (v : rs_locals) :
  locals_ok buff_start t v ->
  (do_loop v = false -> cur t = c_nul) ->
  match rs_switch buff_start t v with
  | (t1, Some v1) =>
      if do_loop v1 then locals_ok buff_start (set_buff t1 (S (buff t1))) v1
      else locals_ok buff_start t1 v1
  | (_, None) => True
  end.
Proof.
  intros Hok Hstop.
  pose proof (rs_quote_locals buff_start t v Hok) as Hquote.
  assert (Hsame : if do_loop v then locals_ok buff_start (set_buff t (S (buff t))) v
                  else locals_ok buff_start t v).
  { destruct (do_loop v); [apply locals_ok_forward; [lia|exact Hok]|exact Hok]. }
  pose proof Hok as Hok0.
  destruct Hok as (Hbs & Hlen & Hsub & Hbr).
  unfold rs_switch. unfold paran_offsets_max in *.
  destruct (mode v) eqn:Em.
  - (* regular text *)
    destruct (Z.eqb_spec (cur t) 40) as [E|_].
    { cbn [do_loop set_mode set_parans]. destruct (do_loop v) eqn:Ed;
        [|rewrite (Hstop eq_refl) in E; discriminate].
      unfold locals_ok. cbn [mode set_mode set_parans paran_count paran_offsets
                             offset_of_bracket in_subshell in_brackets]. fields.
      split; [lia|]. split; [rewrite array_set_length; exact Hlen|].
      split; [|discriminate]. intros _. split; [lia|].
      intros i Hi _. assert (i = O) as -> by lia.
      rewrite array_set_nth_same by lia. split; [lia|exact E]. }
    destruct (Z.eqb_spec (cur t) 91) as [E|_].
    { destruct (negb (buff t =? buff_start)%nat); [|exact Hsame].
      cbn [do_loop set_mode set_offset_of_bracket]. destruct (do_loop v) eqn:Ed;
        [|rewrite (Hstop eq_refl) in E; discriminate].
      unfold locals_ok. cbn [mode set_mode set_offset_of_bracket paran_count
                             paran_offsets offset_of_bracket in_subshell in_brackets].
      fields. split; [lia|]. split; [exact Hlen|].
      split; [discriminate|]. intros _. split; [lia|exact E]. }
    destruct ((cur t =? 39) || (cur t =? 34)); [exact Hquote|].
    destruct (negb (tok_is_string_character (cur t) (is_first v))); [|exact Hsame].
    exact Hok0.
  - (* subshell *)
    destruct ((cur t =? 39) || (cur t =? 34)); [exact Hquote|].
    destruct (Hsub eq_refl) as (Hpc & Hall).
    destruct (Z.eqb_spec (cur t) 40) as [E|_].
    { cbn [do_loop set_parans]. destruct (do_loop v) eqn:Ed;
        [|rewrite (Hstop eq_refl) in E; discriminate].
      unfold locals_ok. cbn [mode set_parans paran_count paran_offsets
                             offset_of_bracket]. rewrite Em.
      cbn [in_subshell in_brackets]. fields.
      split; [lia|]. split.
      { destruct (paran_count v <? 96)%nat; [rewrite array_set_length|]; exact Hlen. }
      split; [|discriminate]. intros _. split; [lia|].
      intros i Hi Hi96. unfold paran_offsets_max in Hi96.
      destruct (Nat.ltb_spec (paran_count v) 96) as [Hlt|Hge].
      - destruct (Nat.eq_dec i (paran_count v)) as [-> | Hne].
        + rewrite array_set_nth_same by lia. split; [lia|exact E].
        + rewrite array_set_nth_other by lia.
          destruct (Hall i ltac:(lia) Hi96) as (Hr & Hw). split; [lia|exact Hw].
      - destruct (Hall i ltac:(lia) Hi96) as (Hr & Hw). split; [lia|exact Hw]. }
    destruct (Z.eqb_spec (cur t) 41) as [E|_].
    { cbn [paran_count set_parans mode]. rewrite Em.
      destruct (do_loop v) eqn:Ed; [|rewrite (Hstop eq_refl) in E; discriminate].
      destruct (Nat.eqb_spec (paran_count v - 1) 0) as [Hz|Hnz];
        cbn [do_loop set_mode set_parans]; rewrite Ed;
        unfold locals_ok;
        cbn [mode set_mode set_parans paran_count paran_offsets offset_of_bracket];
        try rewrite Em; cbn [in_subshell in_brackets]; fields.
      - split; [lia|]. split; [exact Hlen|]. split; discriminate.
      - split; [lia|]. split; [exact Hlen|]. split; [|discriminate].
        intros _. split; [lia|]. intros i Hi Hi96. unfold paran_offsets_max in Hi96.
        destruct (Hall i ltac:(lia) Hi96) as (Hr & Hw). split; [lia|exact Hw]. }
    destruct (Z.eqb_spec (cur t) 0); [|exact Hsame].
    exact Hok0.
  - (* array brackets *)
    destruct (Hbr eq_refl) as (Hob & Hwb).
    destruct (Z.eqb_spec (cur t) 40) as [E|_].
    { cbn [do_loop set_mode set_parans]. destruct (do_loop v) eqn:Ed;
        [|rewrite (Hstop eq_refl) in E; discriminate].
      unfold locals_ok. cbn [mode set_mode set_parans paran_count paran_offsets
                             offset_of_bracket in_subshell in_brackets]. fields.
      split; [lia|]. split; [rewrite array_set_length; exact Hlen|].
      split.
      - intros _. split; [lia|].
        intros i Hi _. assert (i = O) as -> by lia.
        rewrite array_set_nth_same by lia. split; [lia|exact E].
      - intros _. split; [lia|exact Hwb]. }
    destruct (Z.eqb_spec (cur t) 93) as [E|_].
    { cbn [do_loop set_mode]. destruct (do_loop v) eqn:Ed;
        [|rewrite (Hstop eq_refl) in E; discriminate].
      unfold locals_ok. cbn [mode set_mode paran_count paran_offsets
                             offset_of_bracket in_subshell in_brackets]. fields.
      split; [lia|]. split; [exact Hlen|]. split; discriminate. }
    destruct (Z.eqb_spec (cur t) 0); [|exact Hsame].
    exact Hok0.
  - (* array brackets and subshell *)
    destruct ((cur t =? 39) || (cur t =? 34)); [exact Hquote|].
    destruct (Hsub eq_refl) as (Hpc & Hall).
    destruct (Hbr eq_refl) as (Hob & Hwb).
    destruct (Z.eqb_spec (cur t) 40) as [E|_].
    { cbn [do_loop set_parans]. destruct (do_loop v) eqn:Ed;
        [|rewrite (Hstop eq_refl) in E; discriminate].
      unfold locals_ok. cbn [mode set_parans paran_count paran_offsets
                             offset_of_bracket]. rewrite Em.
      cbn [in_subshell in_brackets]. fields.
      split; [lia|]. split.
      { destruct (paran_count v <? 96)%nat; [rewrite array_set_length|]; exact Hlen. }
      split; [|intros _; split; [lia|exact Hwb]].
      intros _. split; [lia|].
      intros i Hi Hi96. unfold paran_offsets_max in Hi96.
      destruct (Nat.ltb_spec (paran_count v) 96) as [Hlt|Hge].
      - destruct (Nat.eq_dec i (paran_count v)) as [-> | Hne].
        + rewrite array_set_nth_same by lia. split; [lia|exact E].
        + rewrite array_set_nth_other by lia.
          destruct (Hall i ltac:(lia) Hi96) as (Hr & Hw). split; [lia|exact Hw].
      - destruct (Hall i ltac:(lia) Hi96) as (Hr & Hw). split; [lia|exact Hw]. }
    destruct (Z.eqb_spec (cur t) 41) as [E|_].
    { cbn [paran_count set_parans mode]. rewrite Em.
      destruct (do_loop v) eqn:Ed; [|rewrite (Hstop eq_refl) in E; discriminate].
      destruct (Nat.eqb_spec (paran_count v - 1) 0) as [Hz|Hnz];
        cbn [do_loop set_mode set_parans]; rewrite Ed;
        unfold locals_ok;
        cbn [mode set_mode set_parans paran_count paran_offsets offset_of_bracket];
        try rewrite Em; cbn [in_subshell in_brackets]; fields.
      - split; [lia|]. split; [exact Hlen|]. split; [discriminate|].
        intros _. split; [lia|exact Hwb].
      - split; [lia|]. split; [exact Hlen|]. split; [|intros _; split; [lia|exact Hwb]].
        intros _. split; [lia|]. intros i Hi Hi96. unfold paran_offsets_max in Hi96.
        destruct (Hall i ltac:(lia) Hi96) as (Hr & Hw). split; [lia|exact Hw]. }
    destruct (Z.eqb_spec (cur t) 0); [|exact Hsame].
    exact Hok0.
Qed.

End ScannerLocals.

Section ScannerErrors.
Context {LC : wctype}.

Lemma rs_switch_none (buff_start : nat) (t : tokenizer_t) (v : rs_locals)
    (t1 : tokenizer_t) :
  rs_switch buff_start t v = (t1, None) -> cur t = c_squote \/ cur t = c_dquote.
Proof.
  unfold rs_switch.
  destruct (Z.eqb_spec (cur t) 39) as [E1|_]; [left; exact E1|].
  destruct (Z.eqb_spec (cur t) 34) as [E2|_]; [right; exact E2|].
  cbn [orb].
  destruct (mode v);
    repeat match goal with
    | |- context [if ?b then _ else _] => destruct b
    end; discriminate.
Qed.

(** One round keeps the locals right, and an error raised in it is placed
    on the character under the cursor. *)
Lemma round_locals (buff_start : nat) (t : tokenizer_t) (v : rs_locals) :
  locals_ok buff_start t v -> stopped_ok t v ->
  match read_string_round buff_start t v with
  | rs_again t1 v1 => locals_ok buff_start t1 v1 /\ stopped_ok t1 v1
  | rs_break t1 v1 => locals_ok buff_start t1 v1
  | rs_return t1 =>
      exists b' e, t1 = call_error (set_buff t b') e (Some (buff t))
                   /\ raised_in_loop e (cur t)
                   /\ (buff t < b' <= List.length (start t))%nat
  end.
Proof.
  intros Hok Hstop.
  pose proof (read_string_round_spec buff_start t v) as Hspec.
  unfold read_string_round in *.
  destruct (myal (cur t)) eqn:Ea; cbn [negb] in *.
  { unfold rs_round_end. destruct (do_loop v) eqn:Ed; cbn [negb].
    - split; [apply locals_ok_forward; [lia|exact Hok]|].
      intros H. cbn [do_loop set_is_first] in H. congruence.
    - exact Hok. }
  destruct (Z.eqb_spec (cur t) 92) as [Eb|Eb].
  { cbv zeta in *.
    destruct (Z.eqb_spec (cur (set_buff t (S (buff t)))) 0) as [En|En].
    - fields. destruct (accept_unfinished t); cbn [negb] in *.
      + split; [exact (locals_ok_forward buff_start t v (S (S (buff t) - 1))
                         ltac:(lia) Hok)|].
        intros _. unfold cur in *. fields.
        replace (S (S (buff t) - 1)) with (S (buff t)) by lia. exact En.
      + destruct Hspec as (_ & b' & e & w & Heq & _ & Hb).
        exists (S (buff t)), TOK_UNTERMINATED_ESCAPE.
        split; [reflexivity|]. split; [left; auto|].
        assert (buff t < List.length (start t))%nat by (apply cur_nonzero_lt; lia).
        lia.
    - split; [exact (locals_ok_forward buff_start t v (S (S (buff t)))
                       ltac:(lia) Hok)|].
      intros Hd. specialize (Hstop Hd). lia. }
  pose proof (rs_switch_locals buff_start t v Hok Hstop) as Hl.
  pose proof (rs_switch_spec buff_start t v) as Hsw.
  pose proof (rs_switch_none buff_start t v) as Hnone.
  destruct (rs_switch buff_start t v) as [t1 [v1|]].
  - unfold rs_round_end. destruct (do_loop v1) eqn:Ed; cbn [negb].
    + split; [exact Hl|]. intros H. cbn [do_loop set_is_first] in H. congruence.
    + exact Hl.
  - destruct Hsw as (_ & b' & -> & Hb).
    exists b', TOK_UNTERMINATED_QUOTE. split; [reflexivity|].
    split; [right; split; [reflexivity|exact (Hnone _ eq_refl)]|exact Hb].
Qed.

(** The loop keeps the locals right up to where it ends, and an error it
    raises is placed on a character of the token. *)
Lemma loop_locals (buff_start : nat) :
  forall (fuel : nat) (t : tokenizer_t) (v : rs_locals) (t' : tokenizer_t)
         (r : option rs_locals),
    locals_ok buff_start t v -> stopped_ok t v ->
    read_string_loop fuel buff_start t v = Some (t', r) ->
    match r with
    | Some v' => locals_ok buff_start t' v'
    | None =>
        exists w e,
          error t' = e /\ global_error_offset t' = Z.of_nat w
          /\ raised_in_loop e (wat (start t) w)
          /\ (buff t <= w < buff t')%nat
    end.
Proof.
  induction fuel as [|fuel IH]; intros t v t' r Hok Hstop H; [discriminate|].
  cbn [read_string_loop] in H.
  pose proof (round_locals buff_start t v Hok Hstop) as Hr.
  pose proof (read_string_round_spec buff_start t v) as Hspec.
  destruct (read_string_round buff_start t v) as [t1|t1 v1|t1 v1].
  - inversion H; subst. destruct Hr as (b' & e & -> & He & Hb).
    exists (buff t), e. fields. repeat split; try lia. exact He.
  - inversion H; subst. exact Hr.
  - destruct Hr as (Hok1 & Hstop1). destruct Hspec as (b1 & -> & Hb1).
    specialize (IH _ _ _ _ Hok1 Hstop1 H).
    destruct r as [v'|]; [exact IH|].
    destruct IH as (w & e & He & Hg & Hraised & Hw). fields.
    exists w, e. repeat split; try assumption; lia.
Qed.

(** Where the error of [read_string] is placed: on the backslash or the
    quote character that was not terminated; on the opening bracket of the
    slice; on the last opening parenthesis that is still open, or at offset 0
    when more than 96 are open.  That place is inside what the scanner
    passed.  [read_string] raises no other error, and none when unfinished
    input is accepted. *)
Lemma read_string_error_position (t : tokenizer_t) :
  in_bounds t -> last_type (read_string t) = TOK_ERROR ->
  accept_unfinished t = false
  /\ exists w : nat,
       global_error_offset (read_string t) = Z.of_nat w
       /\ match error (read_string t) with
          | TOK_UNTERMINATED_QUOTE =>
              (buff t <= w < buff (read_string t))%nat
              /\ (wat (start t) w = c_squote \/ wat (start t) w = c_dquote)
          | TOK_UNTERMINATED_ESCAPE =>
              (buff t <= w < buff (read_string t))%nat
              /\ wat (start t) w = c_backslash
          | TOK_UNTERMINATED_SLICE =>
              (buff t <= w < buff (read_string t))%nat
              /\ wat (start t) w = c_lbracket
          | TOK_UNTERMINATED_SUBSHELL =>
              ((buff t <= w < buff (read_string t))%nat
               /\ wat (start t) w = c_lparen)
              \/ w = O
          | _ => False
          end.
Proof.
  intros Hin. unfold read_string, read_string_fuel.
  destruct (read_string_loop_total (buff t) (S (List.length (start t) - buff t)) t
              rs_initial ltac:(lia)) as (t' & r & Hrun & Hr).
  rewrite Hrun.
  pose proof (loop_locals (buff t) _ t rs_initial t' r (locals_ok_initial t)
                ltac:(intros H; discriminate) Hrun) as Hl.
  destruct r as [v'|].
  - destruct Hr as (b' & -> & Hle & Hb).
    destruct Hl as (_ & Hlen & Hsub & Hbr). fields.
    unfold read_string_finish. fields.
    destruct (accept_unfinished t) eqn:Eu; cbn [negb]; [discriminate|].
    destruct (mode v') eqn:Em; [discriminate| | |]; intros _; (split; [reflexivity|]);
      fields.
    + destruct (Hsub eq_refl) as (Hpc & Hall).
      destruct (Nat.leb_spec (paran_count v') paran_offsets_max) as [Hc|Hc].
      * eexists. split; [reflexivity|]. left.
        apply Hall; unfold paran_offsets_max in *; lia.
      * exists O. split; [reflexivity|]. right. reflexivity.
    + exists (offset_of_bracket v'). split; [reflexivity|]. apply (Hbr eq_refl).
    + exists (offset_of_bracket v'). split; [reflexivity|]. apply (Hbr eq_refl).
  - destruct Hr as (Hu & _). intros _. split; [exact Hu|].
    destruct Hl as (w & e & He & Hg & Hraised & Hw).
    exists w. split; [exact Hg|]. rewrite He.
    destruct Hraised as [(-> & Hc)|(-> & Hc)]; split; assumption.
Qed.

End ScannerErrors.

Section ErrorTokens.
Context {LC : wctype}.

(** An error left by the [switch] of [tok_next] is InvalidPipe, raised on a
    digit and without moving the cursor, or an error of [read_string]: the
    test for InvalidRedirect never succeeds. *)
Lemma tok_next_dispatch_error (t t' : tokenizer_t) :
  in_bounds t -> tok_next_dispatch t = (t', true) -> last_type t' = TOK_ERROR ->
  (t' = call_error t TOK_INVALID_PIPE (Some (buff t)) /\ iswdigit (cur t) = true)
  \/ t' = read_string t.
Proof.
  intros Hin. unfold tok_next_dispatch.
  destruct (cur t =? 0); [discriminate|].
  destruct ((cur t =? 13) || (cur t =? 10) || (cur t =? 59)).
  { intros H. inversion H; subst.
    destruct (negb (show_blank_lines _)); fields; discriminate. }
  destruct (cur t =? 38).
  { intros H. inversion H; subst. fields. discriminate. }
  destruct (cur t =? 124).
  { intros H. inversion H; subst. fields. discriminate. }
  destruct ((cur t =? 62) || (cur t =? 60) || (cur t =? 94)) eqn:Ered.
  { pose proof (read_redirection_on_sigil (rest t)) as Hs.
    pose proof (read_redirection_or_fd_pipe_bounds (rest t)) as Hb.
    rewrite cur_rest in Hs.
    destruct (read_redirection_or_fd_pipe (rest t)) as [[consumed mode_] fd].
    destruct Hs as (Hc & Hfd).
    { apply orb_true_iff in Ered. destruct Ered as [Ered|E].
      - apply orb_true_iff in Ered. destruct Ered as [E|E]; apply Z.eqb_eq in E; auto.
      - apply Z.eqb_eq in E. auto. }
    destruct Hb as (_ & Hmode).
    destruct (Nat.eqb_spec consumed 0) as [|_]; [lia|].
    destruct (Z.ltb_spec fd 0) as [|_]; [lia|]. cbn [orb].
    intros H. inversion H; subst. fields. intros ->. discriminate. }
  destruct (iswdigit (cur t)) eqn:Ed; [|intros H _; inversion H; right; reflexivity].
  pose proof (read_redirection_or_fd_pipe_bounds (rest t)) as Hb.
  destruct (read_redirection_or_fd_pipe (rest t)) as [[consumed mode_] fd].
  destruct Hb as (_ & Hmode).
  destruct (Nat.ltb_spec 0 consumed) as [Hc|Hc];
    [|intros H _; inversion H; right; reflexivity].
  destruct (token_type_eqb mode_ TOK_PIPE && (fd =? 0)).
  - intros H _. inversion H. left. split; reflexivity.
  - destruct (Nat.eqb_spec consumed 0) as [|_]; [lia|].
    intros H. inversion H; subst. fields. intros ->. discriminate.
Qed.

(** The [switch] of [tok_next] leaves no comment. *)
Lemma tok_next_dispatch_no_comment (t t' : tokenizer_t) :
  in_bounds t -> tok_next_dispatch t = (t', true) -> last_type t' <> TOK_COMMENT.
Proof.
  intros Hin. unfold tok_next_dispatch.
  assert (Hmode : forall consumed mode_ fd,
            read_redirection_or_fd_pipe (rest t) = (consumed, mode_, fd) ->
            consumed <> O -> mode_ <> TOK_COMMENT).
  { intros consumed mode_ fd Hr Hc.
    pose proof (read_redirection_or_fd_pipe_bounds (rest t)) as Hb. rewrite Hr in Hb.
    destruct Hb as (_ & Hm). destruct (Nat.eqb_spec consumed 0); [contradiction|].
    intros ->. discriminate. }
  assert (Hstring : last_type (read_string t) <> TOK_COMMENT).
  { destruct (read_string_spec t Hin) as (b' & _ & [-> | (_ & e & w & _ & ->)]);
      discriminate. }
  destruct (cur t =? 0); [discriminate|].
  destruct ((cur t =? 13) || (cur t =? 10) || (cur t =? 59)).
  { intros H. inversion H; subst.
    destruct (negb (show_blank_lines _)); fields; discriminate. }
  destruct (cur t =? 38).
  { intros H. inversion H; subst. fields. discriminate. }
  destruct (cur t =? 124).
  { intros H. inversion H; subst. fields. discriminate. }
  destruct ((cur t =? 62) || (cur t =? 60) || (cur t =? 94)).
  { destruct (read_redirection_or_fd_pipe (rest t)) as [[consumed mode_] fd] eqn:Er.
    destruct (Nat.eqb_spec consumed 0) as [|Hc]; cbn [orb].
    - intros H. inversion H; subst. fields. discriminate.
    - destruct (fd <? 0); intros H; inversion H; subst; fields; [discriminate|].
      eapply Hmode; [reflexivity|exact Hc]. }
  destruct (iswdigit (cur t)); [|intros H; inversion H; subst; exact Hstring].
  destruct (read_redirection_or_fd_pipe (rest t)) as [[consumed mode_] fd] eqn:Er.
  destruct (Nat.ltb_spec 0 consumed) as [Hc|Hc];
    [|intros H; inversion H; subst; exact Hstring].
  destruct (token_type_eqb mode_ TOK_PIPE && (fd =? 0));
    intros H; inversion H; subst; fields; [discriminate|].
  eapply Hmode; [reflexivity|lia].
Qed.

(** From a call of [next] that emits a token back to [tok_next]. *)
Lemma next_emits (t t' : tokenizer_t) (tok : tok_t) :
  next t = (t', Some tok) ->
  tok_next t = (t', true) /\ tok = token_of t' /\ has_next t = true.
Proof.
  unfold next. destruct (tok_next t) as [t1 more] eqn:Etn.
  destruct more; cbn [negb]; [|discriminate].
  intros H. inversion H; subst. split; [reflexivity|]. split; [reflexivity|].
  unfold tok_next in Etn. destruct (has_next t); [reflexivity|discriminate].
Qed.

(** An Error token comes from the [switch] of [tok_next], entered at the
    offset of the token with the flags of the tokenizer. *)
Lemma error_token_origin (t t' : tokenizer_t) (tok : tok_t) :
  in_bounds t -> next t = (t', Some tok) -> Tok.type tok = TOK_ERROR ->
  exists t3,
    in_bounds t3 /\ same_setup t t3 /\ Tok.offset tok = buff t3
    /\ last_type t' = TOK_ERROR
    /\ ((t' = call_error t3 TOK_INVALID_PIPE (Some (buff t3))
         /\ iswdigit (cur t3) = true)
        \/ t' = read_string t3).
Proof.
  intros Hin Hnext Hty.
  destruct (next_emits _ _ _ Hnext) as (Etn & -> & Hn).
  cbn [token_of Tok.type Tok.offset] in *.
  destruct (tok_next_cases t Hin Hn) as [(t2 & Hc2 & Hty2 & _)|
                                          (t3 & Hc3 & Hs3 & _ & Hb3 & Hp3 & _)].
  - rewrite Etn in Hc2. inversion Hc2; subst. congruence.
  - rewrite Etn in Hc3. symmetry in Hc3.
    assert (in_bounds t3) as Hin3
      by (destruct Hs3 as (Hst3 & _); unfold in_bounds; rewrite Hst3; lia).
    exists t3. split; [exact Hin3|]. split; [exact Hs3|].
    pose proof (tok_next_dispatch_last_pos t3 Hin3) as Hlp.
    rewrite Hc3 in Hlp. cbn [fst] in Hlp.
    split; [congruence|]. split; [exact Hty|].
    apply tok_next_dispatch_error; assumption.
Qed.

End ErrorTokens.

Section ErrorTokenFacts.
Context {LC : wctype}.

(** X3.  The errors a tokenizer can emit: an Error token never has the kind
    InvalidRedirect (nor none), since the redirection reader does not fail on
    a token that begins with a redirection character; and when unfinished
    input is accepted the only error is InvalidPipe. *)
Theorem tokenizer_error_kinds :
  forall (src : wcstring) (flags : tok_flags_t) (n : nat)
         (t' : tokenizer_t) (tok : tok_t),
    next (after_next n (tokenizer src flags)) = (t', Some tok) ->
    Tok.type tok = TOK_ERROR ->
    Tok.error tok <> TOK_ERROR_NONE
    /\ Tok.error tok <> TOK_INVALID_REDIRECT
    /\ (TOK_ACCEPT_UNFINISHED flags = true -> Tok.error tok = TOK_INVALID_PIPE).
Proof.
  intros src flags n t' tok Hnext Hty.
  destruct (after_next_spec src flags n) as (Hs & Hin).
  destruct (error_token_origin _ _ _ Hin Hnext Hty)
    as (t3 & Hin3 & Hs3 & _ & Hty' & Hcase).
  destruct (next_emits _ _ _ Hnext) as (_ & -> & _).
  cbn [token_of Tok.error]. rewrite Hty'. cbn [token_type_eqb].
  pose proof (same_setup_trans _ _ _ Hs Hs3) as (_ & Hacc & _). simpl in Hacc.
  destruct Hcase as [(-> & _)| ->].
  - fields. repeat split; try discriminate.
  - destruct (read_string_error_position t3 Hin3 Hty') as (Hu & w & _ & Hk).
    destruct (error (read_string t3)); try contradiction;
      (split; [discriminate|]); (split; [discriminate|]); intros Hf; congruence.
Qed.

(** X4.  Where the error offset of an Error token points, [offset +
    error_offset] being the place in the source: for an unterminated quote,
    on the quote character that opens it; for an unterminated escape, on the
    backslash; for an unterminated slice, on the opening bracket; for an
    unterminated subshell, on an opening parenthesis, unless the error offset
    is 0; all these inside the token.  For InvalidPipe the token is empty,
    the error offset is 0 and the token's offset is on the first digit. *)
Theorem error_offset_is_on_the_opener :
  forall (src : wcstring) (flags : tok_flags_t) (n : nat)
         (t' : tokenizer_t) (tok : tok_t),
    next (after_next n (tokenizer src flags)) = (t', Some tok) ->
    Tok.type tok = TOK_ERROR ->
    let at_error := wat src (Tok.offset tok + Tok.error_offset tok) in
    match Tok.error tok with
    | TOK_UNTERMINATED_QUOTE =>
        (Tok.error_offset tok < Tok.length tok)%nat
        /\ (at_error = c_squote \/ at_error = c_dquote)
    | TOK_UNTERMINATED_ESCAPE =>
        (Tok.error_offset tok < Tok.length tok)%nat /\ at_error = c_backslash
    | TOK_UNTERMINATED_SLICE =>
        (Tok.error_offset tok < Tok.length tok)%nat /\ at_error = c_lbracket
    | TOK_UNTERMINATED_SUBSHELL =>
        ((Tok.error_offset tok < Tok.length tok)%nat /\ at_error = c_lparen)
        \/ Tok.error_offset tok = O
    | TOK_INVALID_PIPE =>
        Tok.error_offset tok = O /\ Tok.length tok = O /\ iswdigit at_error = true
    | TOK_INVALID_REDIRECT | TOK_ERROR_NONE => False
    end.
Proof.
  intros src flags n t' tok Hnext Hty.
  destruct (after_next_spec src flags n) as (Hs & Hin).
  destruct (error_token_origin _ _ _ Hin Hnext Hty)
    as (t3 & Hin3 & Hs3 & Hoff & Hty' & Hcase).
  destruct (next_emits _ _ _ Hnext) as (_ & -> & _).
  pose proof (same_setup_trans _ _ _ Hs Hs3) as (Hst & _). simpl in Hst.
  cbn [token_of Tok.error Tok.error_offset Tok.offset Tok.length] in *.
  rewrite Hty'. cbn [token_type_eqb andb].
  destruct Hcase as [(-> & Hd)| ->].
  - fields. rewrite Hoff, Z.ltb_irrefl, andb_false_r, Nat.leb_refl, Nat.sub_diag.
    split; [reflexivity|]. split; [reflexivity|].
    rewrite Nat.add_0_r, <- Hst. exact Hd.
  - destruct (read_string_error_position t3 Hin3 Hty') as (_ & w & Hg & Hk).
    rewrite (read_string_last_pos t3 Hin3) in *. rewrite Hg, Hoff. rewrite <- Hst.
    pose proof (read_string_spec t3 Hin3) as (b' & Hb' & Hform).
    assert (buff (read_string t3) = b') as Hbuff
      by (destruct Hform as [-> | (_ & e & w0 & _ & ->)]; reflexivity).
    set (current := buff (read_string t3)) in *.
    assert (Hin_token : (buff t3 <= w < current)%nat ->
              (if (Z.of_nat (buff t3) <=? Z.of_nat w) && (Z.of_nat w <? Z.of_nat current)
               then Z.to_nat (Z.of_nat w - Z.of_nat (buff t3)) else O)
              = (w - buff t3)%nat
              /\ (w - buff t3 < (if (buff t3 <=? current)%nat
                                 then current - buff t3 else O))%nat
              /\ (buff t3 + (w - buff t3))%nat = w).
    { intros Hw.
      destruct (Z.leb_spec (Z.of_nat (buff t3)) (Z.of_nat w)); [|lia].
      destruct (Z.ltb_spec (Z.of_nat w) (Z.of_nat current)); [|lia].
      destruct (Nat.leb_spec (buff t3) current); [|lia]. cbn [andb].
      repeat split; lia. }
    destruct (error (read_string t3)); try contradiction.
    + destruct Hk as (Hw & Hc). destruct (Hin_token Hw) as (-> & Hlt & ->). auto.
    + destruct Hk as [(Hw & Hc)| ->].
      * left. destruct (Hin_token Hw) as (-> & Hlt & ->). auto.
      * right. destruct ((Z.of_nat (buff t3) <=? Z.of_nat 0)
                         && (Z.of_nat 0 <? Z.of_nat current)); [|reflexivity].
        lia.
    + destruct Hk as (Hw & Hc). destruct (Hin_token Hw) as (-> & Hlt & ->). auto.
    + destruct Hk as (Hw & Hc). destruct (Hin_token Hw) as (-> & Hlt & ->). auto.
Qed.

(** X5.  A Comment token is emitted only by a tokenizer that was built with
    [TOK_SHOW_COMMENTS]. *)
Theorem comment_tokens_only_when_shown :
  forall (src : wcstring) (flags : tok_flags_t) (n : nat)
         (t' : tokenizer_t) (tok : tok_t),
    next (after_next n (tokenizer src flags)) = (t', Some tok) ->
    Tok.type tok = TOK_COMMENT ->
    TOK_SHOW_COMMENTS flags = true.
Proof.
  intros src flags n t' tok Hnext Hty.
  destruct (after_next_spec src flags n) as (Hs & Hin).
  destruct (next_emits _ _ _ Hnext) as (Etn & -> & Hn).
  cbn [token_of Tok.type] in Hty.
  destruct Hs as (_ & _ & Hsc & _). simpl in Hsc.
  destruct (tok_next_cases _ Hin Hn) as [(t2 & Hc2 & _ & Hshow & _)|
                                          (t3 & Hc3 & Hs3 & _ & Hb3 & _)].
  - congruence.
  - rewrite Etn in Hc3. symmetry in Hc3. exfalso.
    refine (tok_next_dispatch_no_comment t3 t' _ Hc3 Hty).
    destruct Hs3 as (Hst3 & _). unfold in_bounds. rewrite Hst3. lia.
Qed.

End ErrorTokenFacts.

(** A witness: [0>|] when unfinished input is accepted. *)
Lemma tokenizer_error_kinds_witness :
  let tok := {| Tok.text := PIPE_ERROR; Tok.type := TOK_ERROR;
                Tok.error := TOK_INVALID_PIPE; Tok.error_offset := 0;
                Tok.offset := 0; Tok.length := 0 |} in
  Tok.error tok <> TOK_ERROR_NONE
  /\ Tok.error tok <> TOK_INVALID_REDIRECT
  /\ (TOK_ACCEPT_UNFINISHED unfinished_flags = true -> Tok.error tok = TOK_INVALID_PIPE).
Proof.
  refine (tokenizer_error_kinds (L "0>|") unfinished_flags 0
            (fst (next (tokenizer (L "0>|") unfinished_flags)))
            {| Tok.text := PIPE_ERROR; Tok.type := TOK_ERROR;
               Tok.error := TOK_INVALID_PIPE; Tok.error_offset := 0;
               Tok.offset := 0; Tok.length := 0 |} _ eq_refl).
  vm_compute. reflexivity.
Defined.

(** A witness: the open bracket of [a[b] in strict mode. *)
Lemma error_offset_is_on_the_opener_witness :
  let tok := {| Tok.text := SQUARE_BRACKET_ERROR; Tok.type := TOK_ERROR;
                Tok.error := TOK_UNTERMINATED_SLICE; Tok.error_offset := 1;
                Tok.offset := 0; Tok.length := 3 |} in
  (Tok.error_offset tok < Tok.length tok)%nat
  /\ wat (L "a[b") (Tok.offset tok + Tok.error_offset tok) = c_lbracket.
Proof.
  refine (error_offset_is_on_the_opener (L "a[b") strict_flags 0
            (fst (next (tokenizer (L "a[b") strict_flags)))
            {| Tok.text := SQUARE_BRACKET_ERROR; Tok.type := TOK_ERROR;
               Tok.error := TOK_UNTERMINATED_SLICE; Tok.error_offset := 1;
               Tok.offset := 0; Tok.length := 3 |} _ eq_refl).
  vm_compute. reflexivity.
Defined.

(** A witness: the comment of [#hi], shown. *)
Lemma comment_tokens_only_when_shown_witness :
  TOK_SHOW_COMMENTS comments_flags = true.
Proof.
  refine (comment_tokens_only_when_shown (L "#hi") comments_flags 0
            (fst (next (tokenizer (L "#hi") comments_flags)))
            {| Tok.text := L "#hi"; Tok.type := TOK_COMMENT;
               Tok.error := TOK_ERROR_NONE; Tok.error_offset := 0;
               Tok.offset := 0; Tok.length := 3 |} _ eq_refl).
  vm_compute. reflexivity.
Defined.

Section ScannerInvariant.
Context {LC : wctype}.

Lemma scans_to_locals (buff_start : nat) (t : tokenizer_t) (v : rs_locals)
    (t1 : tokenizer_t) (v1 : rs_locals) :
  scans_to buff_start t v t1 v1 ->
  locals_ok buff_start t v -> stopped_ok t v ->
  locals_ok buff_start t1 v1 /\ stopped_ok t1 v1.
Proof.
  intros H. induction H as [t v|t v ta va tb vb Hr _ IH]; intros Hok Hstop.
  - split; assumption.
  - pose proof (round_locals buff_start t v Hok Hstop) as Hl. rewrite Hr in Hl.
    apply IH; apply Hl.
Qed.

(** X6.  The string scanner keeps its locals right.  Wherever the loop of
    [read_string] has got to from the start of a token: inside a subshell
    (also inside array brackets) the count of open parentheses is positive,
    which is what the source asserts before it decrements the count and
    before it reads the last recorded offset, and the offset recorded for
    each of the first 96 open parentheses is the place of an opening
    parenthesis of the token, before the cursor; inside array brackets
    [offset_of_bracket] is the place of an opening bracket of the token,
    before the cursor; and the array of offsets still has its 96 cells. *)
Theorem scanner_keeps_its_locals :
  forall (t t1 : tokenizer_t) (v1 : rs_locals),
    scans_to (buff t) t rs_initial t1 v1 ->
    List.length (paran_offsets v1) = paran_offsets_max
    /\ (in_subshell (mode v1) = true ->
        (1 <= paran_count v1)%nat
        /\ forall i, (i < paran_count v1)%nat -> (i < paran_offsets_max)%nat ->
             (buff t <= nth i (paran_offsets v1) O < buff t1)%nat
             /\ wat (start t) (nth i (paran_offsets v1) O) = c_lparen)
    /\ (in_brackets (mode v1) = true ->
        (buff t <= offset_of_bracket v1 < buff t1)%nat
        /\ wat (start t) (offset_of_bracket v1) = c_lbracket).
Proof.
  intros t t1 v1 Hscan.
  destruct (scans_to_locals _ _ _ _ _ Hscan (locals_ok_initial t)
              ltac:(intros H; discriminate)) as ((_ & Hlen & Hsub & Hbr) & _).
  destruct (scans_to_loop _ _ _ _ _ Hscan) as (Ht1 & _).
  assert (start t1 = start t) as Hst by (rewrite Ht1; reflexivity).
  rewrite Hst in *. auto.
Qed.

End ScannerInvariant.

(** A witness: after [a[(b] the scanner is inside brackets and a subshell,
    with one parenthesis open, recorded at offset 2, and the bracket recorded
    at offset 1. *)
Lemma scanner_keeps_its_locals_witness :
  let t := tokenizer (L "a[(b") strict_flags in
  let v1 := {| do_loop := true; paran_count := 1;
               paran_offsets := array_set (repeat O paran_offsets_max) 0 2;
               offset_of_bracket := 1; is_first := false;
               mode := mode_array_brackets_and_subshell |} in
  List.length (paran_offsets v1) = paran_offsets_max
  /\ (in_subshell (mode v1) = true ->
      (1 <= paran_count v1)%nat
      /\ forall i, (i < paran_count v1)%nat -> (i < paran_offsets_max)%nat ->
           (buff t <= nth i (paran_offsets v1) O < 4)%nat
           /\ wat (start t) (nth i (paran_offsets v1) O) = c_lparen)
  /\ (in_brackets (mode v1) = true ->
      (buff t <= offset_of_bracket v1 < 4)%nat
      /\ wat (start t) (offset_of_bracket v1) = c_lbracket).
Proof.
  refine (scanner_keeps_its_locals (tokenizer (L "a[(b") strict_flags)
            (set_buff (tokenizer (L "a[(b") strict_flags) 4) _ _).
  apply (scans_round 0 (tokenizer (L "a[(b") strict_flags) rs_initial
           (set_buff (tokenizer (L "a[(b") strict_flags) 1)
           (set_is_first rs_initial false) _ _ eq_refl).
  apply (scans_round 0 (set_buff (tokenizer (L "a[(b") strict_flags) 1)
           (set_is_first rs_initial false)
           (set_buff (tokenizer (L "a[(b") strict_flags) 2)
           {| do_loop := true; paran_count := 0;
              paran_offsets := repeat O paran_offsets_max;
              offset_of_bracket := 1; is_first := false;
              mode := mode_array_brackets |} _ _ eq_refl).
  apply (scans_round 0 (set_buff (tokenizer (L "a[(b") strict_flags) 2)
           {| do_loop := true; paran_count := 0;
              paran_offsets := repeat O paran_offsets_max;
              offset_of_bracket := 1; is_first := false;
              mode := mode_array_brackets |}
           (set_buff (tokenizer (L "a[(b") strict_flags) 3)
           {| do_loop := true; paran_count := 1;
              paran_offsets := array_set (repeat O paran_offsets_max) 0 2;
              offset_of_bracket := 1; is_first := false;
              mode := mode_array_brackets_and_subshell |} _ _ eq_refl).
  apply (scans_round 0 (set_buff (tokenizer (L "a[(b") strict_flags) 3)
           {| do_loop := true; paran_count := 1;
              paran_offsets := array_set (repeat O paran_offsets_max) 0 2;
              offset_of_bracket := 1; is_first := false;
              mode := mode_array_brackets_and_subshell |}
           (set_buff (tokenizer (L "a[(b") strict_flags) 4)
           {| do_loop := true; paran_count := 1;
              paran_offsets := array_set (repeat O paran_offsets_max) 0 2;
              offset_of_bracket := 1; is_first := false;
              mode := mode_array_brackets_and_subshell |} _ _ eq_refl).
  apply scans_here.
Defined.

(** ** More on the redirection reader *)

Lemma wcslen_lower (s : wcstring) :
  forall n, (forall i, (i < n)%nat -> wat s i <> c_nul) -> (n <= wcslen s)%nat.
Proof.
  induction s as [|c s IH]; intros n H.
  - destruct n as [|n]; [lia|]. exfalso. apply (H O); [lia|reflexivity].
  - destruct n as [|n]; [lia|]. simpl.
    destruct (Z.eqb_spec c 0) as [Hc|Hc].
    + exfalso. apply (H O); [lia|exact Hc].
    + apply le_n_S, IH. intros i Hi. apply (H (S i)). lia.
Qed.

(** What the digit loop passes are digits, and it stops on something else. *)
Lemma read_fd_digits_digits (s : wcstring) :
  forall acc i, (i < fst (read_fd_digits s acc))%nat -> iswdigit (wat s i) = true.
Proof.
  induction s as [|c s IH]; intros acc i Hi; simpl in Hi; [lia|].
  destruct (iswdigit c) eqn:Ec; [|simpl in Hi; lia].
  specialize (IH (if acc <=? INT_MAX then acc * 10 + (c - 48) else acc)).
  destruct (read_fd_digits s _) as [k r]. simpl in *.
  destruct i as [|i]; [exact Ec|]. apply IH. lia.
Qed.

Lemma read_fd_digits_stop (s : wcstring) :
  forall acc, iswdigit (wat s (fst (read_fd_digits s acc))) = false.
Proof.
  induction s as [|c s IH]; intros acc; simpl; [reflexivity|].
  destruct (iswdigit c) eqn:Ec; [|exact Ec].
  specialize (IH (if acc <=? INT_MAX then acc * 10 + (c - 48) else acc)).
  destruct (read_fd_digits s _) as [k r]. simpl in *. exact IH.
Qed.

(** The [long long] accumulator of the digit loop stays below
    [10 * INT_MAX + 10], whatever the number of digits. *)
Lemma read_fd_digits_range (s : wcstring) :
  forall acc, 0 <= acc <= 10 * INT_MAX + 9 ->
    0 <= snd (read_fd_digits s acc) <= 10 * INT_MAX + 9.
Proof.
  induction s as [|c s IH]; intros acc Hacc; simpl; [exact Hacc|].
  destruct (iswdigit c) eqn:Ec; [|exact Hacc].
  apply iswdigit_range in Ec.
  assert (0 <= (if acc <=? INT_MAX then acc * 10 + (c - 48) else acc)
          <= 10 * INT_MAX + 9) as Hacc'.
  { destruct (Z.leb_spec acc INT_MAX); unfold INT_MAX in *; lia. }
  specialize (IH _ Hacc').
  destruct (read_fd_digits s _) as [k r]. simpl in *. exact IH.
Qed.

(** The fd that the reader returns is -1 or the fd of an [int]. *)
Lemma read_redirection_or_fd_pipe_fd (s : wcstring) :
  -1 <= snd (read_redirection_or_fd_pipe s) <= INT_MAX.
Proof.
  unfold read_redirection_or_fd_pipe.
  pose proof (read_fd_digits_range s 0 ltac:(unfold INT_MAX; lia)) as Hr.
  destruct (read_fd_digits s 0) as [idx big_fd]. simpl in Hr.
  assert (-1 <= (if big_fd >? INT_MAX then -1 else big_fd) <= INT_MAX) as Hfd.
  { destruct (Z.gtb_spec big_fd INT_MAX); unfold INT_MAX in *; lia. }
  cbv zeta.
  repeat (match goal with
  | |- context [Z.eqb ?a ?b] => destruct (Z.eqb a b)
  | |- context [Nat.eqb ?a ?b] => destruct (Nat.eqb a b)
  end; cbn [andb orb]; cbv beta iota zeta).
  all: cbn [snd]; unfold STDOUT_FILENO, STDIN_FILENO, STDERR_FILENO, INT_MAX in *;
    try lia.
Qed.

(** The reader does not pass the terminating NUL. *)
Lemma read_redirection_or_fd_pipe_wcslen (s : wcstring) :
  (fst (fst (read_redirection_or_fd_pipe s)) <= wcslen s)%nat.
Proof.
  unfold read_redirection_or_fd_pipe.
  pose proof (read_fd_digits_digits s 0) as Hd.
  destruct (read_fd_digits s 0) as [idx big_fd]. simpl in Hd.
  assert (Hdz : forall i, (i < idx)%nat -> wat s i <> 0).
  { intros i Hi Hz. apply Hd in Hi. rewrite Hz in Hi. discriminate. }
  clear Hd. cbv zeta.
  repeat (match goal with
  | |- context [Z.eqb ?a ?b] => destruct (Z.eqb_spec a b)
  | |- context [Nat.eqb ?a ?b] => destruct (Nat.eqb_spec a b)
  | |- context [Z.gtb ?a ?b] => destruct (Z.gtb a b)
  end; cbn [andb orb]; cbv beta iota zeta).
  all: cbn [fst]; try lia.
  all: apply wcslen_lower; intros i Hi Hz;
    destruct (Nat.lt_ge_cases i idx) as [Hlt|Hge]; [exact (Hdz i Hlt Hz)|];
    assert (i = idx \/ i = S idx \/ i = S (S idx)) as [-> | [-> | ->]] by lia;
    try lia; congruence.
Qed.

(** X7.  What the redirection reader returns, for every string.  It does not
    pass the terminating NUL; the fd is -1 (overflow) or the fd of an [int],
    so the accumulation of the digits never wraps; it consumes nothing exactly
    when it reports no kind (nothing that looks valid comes back on error);
    and a kind it reports is a redirection or the pipe. *)
Theorem redirection_reader_result (s : wcstring) :
  let '(consumed, mode, fd) := read_redirection_or_fd_pipe s in
  (consumed <= wcslen s)%nat
  /\ -1 <= fd <= INT_MAX
  /\ (consumed = O <-> mode = TOK_NONE)
  /\ (mode <> TOK_NONE -> is_redirection_or_pipe mode = true).
Proof.
  pose proof (read_redirection_or_fd_pipe_wcslen s) as Hw.
  pose proof (read_redirection_or_fd_pipe_fd s) as Hfd.
  pose proof (read_redirection_or_fd_pipe_bounds s) as Hb.
  destruct (read_redirection_or_fd_pipe s) as [[consumed mode] fd].
  cbn [fst snd] in *. destruct Hb as (_ & Hb).
  split; [exact Hw|]. split; [exact Hfd|].
  destruct (Nat.eqb_spec consumed 0) as [-> | Hne].
  - subst mode. split; [tauto|]. intros H. contradiction.
  - split; [|intros _; exact Hb].
    split; [intros H; contradiction|]. intros ->. discriminate.
Qed.

(** X9.  The two oracles on strings.  [redirection_type_for_string] never
    answers with the pipe; when it answers with a redirection, the fd it
    gives is not negative and [fd_redirected_by_pipe] says -1 of the same
    string: no string is both a redirection and a pipe.
    [fd_redirected_by_pipe] answers -1 or the fd of an [int]. *)
Theorem redirection_and_pipe_oracles (str : wcstring) :
  let '(mode, fd) := redirection_type_for_string str in
  mode <> TOK_PIPE
  /\ (mode = TOK_NONE
      \/ (is_redirection_or_pipe mode = true /\ 0 <= fd <= INT_MAX
          /\ fd_redirected_by_pipe str = -1))
  /\ -1 <= fd_redirected_by_pipe str <= INT_MAX.
Proof.
  unfold redirection_type_for_string, fd_redirected_by_pipe, wcstring_eqb.
  destruct (list_eq_dec Z.eq_dec str [124]) as [-> | Hne].
  - vm_compute. split; [discriminate|]. split; [left; reflexivity|].
    split; discriminate.
  - pose proof (read_redirection_or_fd_pipe_fd str) as Hfd.
    pose proof (read_redirection_or_fd_pipe_bounds str) as Hb.
    destruct (read_redirection_or_fd_pipe str) as [[consumed mode] fd].
    cbn [fst snd] in *. destruct Hb as (_ & Hb).
    destruct (Z.ltb_spec fd 0) as [Hneg|Hpos].
    + rewrite !orb_true_r. split; [discriminate|]. split; [left; reflexivity|].
      unfold INT_MAX. lia.
    + rewrite !orb_false_r.
      destruct (Nat.eqb_spec consumed 0) as [-> | Hc].
      * subst mode. cbn. split; [discriminate|]. split; [left; reflexivity|].
        unfold INT_MAX. lia.
      * destruct mode; try discriminate Hb; cbn [token_type_eqb negb];
          (split; [discriminate|]);
          (split; [first [left; reflexivity
                         |right; split; [reflexivity|split; [lia|reflexivity]]]|]);
          unfold INT_MAX in *; lia.
Qed.

(** X8.  No fd goes with a caret.  Digits and then a caret are no
    redirection: the reader consumes nothing and reports no kind, and each of
    the two oracles says so. *)
Theorem caret_takes_no_fd (ds s : wcstring) :
  ds <> [] -> forallb iswdigit ds = true ->
  read_redirection_or_fd_pipe (ds ++ c_caret :: s) = (O, TOK_NONE, saturated_fd ds)
  /\ fst (redirection_type_for_string (ds ++ c_caret :: s)) = TOK_NONE
  /\ fd_redirected_by_pipe (ds ++ c_caret :: s) = -1.
Proof.
  intros Hne Hd.
  assert (read_redirection_or_fd_pipe (ds ++ c_caret :: s)
          = (O, TOK_NONE, saturated_fd ds)) as Hr.
  { unfold read_redirection_or_fd_pipe.
    destruct (read_fd_digits_saturated ds (c_caret :: s) eq_refl Hd) as (big & -> & ->).
    destruct ds as [|d ds]; [contradiction|].
    change ((List.length (d :: ds) =? 0)%nat) with false. cbv iota zeta.
    rewrite wat_app_0. reflexivity. }
  split; [exact Hr|].
  unfold redirection_type_for_string, fd_redirected_by_pipe, wcstring_eqb.
  rewrite Hr. cbn [token_type_eqb negb orb fst].
  split; [destruct (saturated_fd ds <? 0); reflexivity|].
  destruct (list_eq_dec Z.eq_dec (ds ++ 94 :: s) [124]) as [E|_]; [|reflexivity].
  exfalso. destruct ds as [|d ds]; [contradiction|].
  destruct ds; simpl in E; [discriminate|]. destruct ds; discriminate.
Qed.

(** A witness: [2^]. *)
Lemma caret_takes_no_fd_witness :
  read_redirection_or_fd_pipe (L "2^") = (O, TOK_NONE, saturated_fd (L "2"))
  /\ fst (redirection_type_for_string (L "2^")) = TOK_NONE
  /\ fd_redirected_by_pipe (L "2^") = -1.
Proof.
  apply (caret_takes_no_fd (L "2") []).
  - discriminate.
  - reflexivity.
Defined.

(** ** The reader on the text of a token *)

Lemma wat_firstn (s : wcstring) (n i : nat) :
  wat (firstn n s) i = if (i <? n)%nat then wat s i else c_nul.
Proof.
  unfold wat. revert s i. induction n as [|n IH]; intros s i.
  - simpl. destruct i; reflexivity.
  - destruct s as [|c s];
      [destruct i; simpl; try reflexivity; destruct (S i <? S n)%nat; reflexivity|].
    destruct i as [|i]; [reflexivity|]. simpl firstn. simpl nth. rewrite IH.
    reflexivity.
Qed.

Lemma read_fd_digits_firstn (s : wcstring) :
  forall acc n, (fst (read_fd_digits s acc) < n)%nat ->
    read_fd_digits (firstn n s) acc = read_fd_digits s acc.
Proof.
  induction s as [|c s IH]; intros acc n Hn.
  - rewrite firstn_nil. reflexivity.
  - destruct n as [|n]; [lia|]. simpl in *.
    destruct (iswdigit c); [|reflexivity].
    specialize (IH (if acc <=? INT_MAX then acc * 10 + (c - 48) else acc) n).
    destruct (read_fd_digits s _) as [k r]. simpl in *.
    rewrite IH by lia. reflexivity.
Qed.

(** The reader reads the same of the characters it consumed, alone, as of the
    string they start. *)
Lemma read_redirection_or_fd_pipe_firstn (s : wcstring) (n : nat) :
  fst (fst (read_redirection_or_fd_pipe s)) = n -> n <> O ->
  read_redirection_or_fd_pipe (firstn n s) = read_redirection_or_fd_pipe s.
Proof.
  unfold read_redirection_or_fd_pipe.
  pose proof (read_fd_digits_firstn s 0) as Hd.
  destruct (read_fd_digits s 0) as [idx big_fd]. cbn [fst] in Hd.
  cbv zeta. intros Hn Hne.
  assert (idx < n)%nat as Hlt.
  { revert Hn.
    repeat (match goal with
    | |- context [Z.eqb ?a ?b] => destruct (Z.eqb a b)
    | |- context [Nat.eqb ?a ?b] => destruct (Nat.eqb a b)
    end; cbn [andb orb]; cbv beta iota zeta).
    all: cbn [fst]; lia. }
  rewrite (Hd n Hlt). clear Hd. rewrite !wat_firstn.
  revert Hn.
  repeat (match goal with
  | |- context [Z.eqb (wat s ?i) ?b] => destruct (Z.eqb_spec (wat s i) b)
  | |- context [Nat.eqb ?a ?b] => destruct (Nat.eqb_spec a b)
  end; cbn [andb orb]; cbv beta iota zeta).
  all: cbn [fst]; intros Hn; try lia; subst n.
  all: repeat (rewrite ?wat_firstn;
         repeat match goal with
         | |- context [(?a <? ?b)%nat] => destruct (Nat.ltb_spec a b); try lia
         end;
         repeat match goal with
         | H : wat _ ?i = _ |- context [wat _ ?i] => rewrite H
         end;
         repeat match goal with
         | H : ?a <> ?b |- context [Z.eqb ?a ?b] =>
             destruct (Z.eqb_spec a b); [contradiction|]
         | H : (?a <> ?b)%nat |- context [Nat.eqb ?a ?b] =>
             destruct (Nat.eqb_spec a b); [contradiction|]
         | H : (?a = ?b)%nat |- context [Nat.eqb ?a ?b] =>
             destruct (Nat.eqb_spec a b); [|contradiction]
         end;
         progress (cbn [Z.eqb Pos.eqb andb orb]; cbv beta iota zeta)).
  all: reflexivity.
Qed.

Section RedirectionTokens.
Context {LC : wctype}.

(** What the reader read where a token with [redirect_text] starts, it reads
    of the characters of the token alone. *)
Lemma redirect_text_covered (t : tokenizer_t) :
  redirect_text t -> last_type t <> TOK_NONE ->
  exists fd,
    read_redirection_or_fd_pipe
      (firstn (buff t - last_pos t) (skipn (last_pos t) (start t)))
    = ((buff t - last_pos t)%nat, last_type t, fd)
    /\ last_token t = to_string fd /\ -1 <= fd <= INT_MAX.
Proof.
  intros (fd & Hr & Htext) Hty. exists fd.
  pose proof (read_redirection_or_fd_pipe_bounds (skipn (last_pos t) (start t))) as Hb.
  pose proof (read_redirection_or_fd_pipe_fd (skipn (last_pos t) (start t))) as Hfd.
  rewrite Hr in Hb, Hfd. cbn [snd] in Hfd. destruct Hb as (_ & Hb).
  assert ((buff t - last_pos t)%nat <> O) as Hne.
  { intros E. rewrite E in Hb. cbn in Hb. contradiction. }
  rewrite read_redirection_or_fd_pipe_firstn; [auto| |exact Hne].
  rewrite Hr. reflexivity.
Qed.

(** X10.  A redirection or pipe token reads back.  For a token of the stream
    whose kind is a redirection, [redirection_type_for_string] on the
    characters of the source that the token covers gives the fd that is the
    text of the token, and the kind of the token, unless the fd overflowed
    (it is negative), when it gives no kind.  For a pipe token,
    [fd_redirected_by_pipe] on the characters that the token covers gives the
    fd that is the text of the token. *)
Theorem redirection_token_reads_back :
  forall (src : wcstring) (flags : tok_flags_t) (n : nat)
         (t' : tokenizer_t) (tok : tok_t),
    next (after_next n (tokenizer src flags)) = (t', Some tok) ->
    is_redirection_or_pipe (Tok.type tok) = true ->
    let covered := firstn (Tok.length tok) (skipn (Tok.offset tok) src) in
    if token_type_eqb (Tok.type tok) TOK_PIPE
    then Tok.text tok = to_string (fd_redirected_by_pipe covered)
    else Tok.text tok = to_string (snd (redirection_type_for_string covered))
         /\ fst (redirection_type_for_string covered)
            = (if snd (redirection_type_for_string covered) <? 0
               then TOK_NONE else Tok.type tok).
Proof.
  intros src flags n t' tok Hnext Hty.
  destruct (after_next_spec src flags n) as (Hs & Hin).
  pose proof (next_spec _ Hin) as Hsp. rewrite Hnext in Hsp. cbn [fst snd] in Hsp.
  destruct Hsp as ((Hst & _) & _ & (Hb & Hwf) & ->).
  destruct Hs as (Hst0 & _). simpl in Hst0. rewrite Hst0 in Hst.
  cbn [token_of Tok.type Tok.text Tok.length Tok.offset] in *.
  rewrite Hst in Hb, Hwf.
  assert ((last_pos t' <=? buff t')%nat = true) as -> by (apply Nat.leb_le; lia).
  cbv zeta in Hwf |- *.
  assert (redirect_text t' ->
          exists fd,
            read_redirection_or_fd_pipe
              (firstn (buff t' - last_pos t') (skipn (last_pos t') src))
            = ((buff t' - last_pos t')%nat, last_type t', fd)
            /\ last_token t' = to_string fd /\ -1 <= fd <= INT_MAX) as Hcov.
  { intros Hr. rewrite <- Hst. apply redirect_text_covered; [exact Hr|].
    intros E. rewrite E in Hty. discriminate. }
  destruct (last_type t') eqn:Ety; try discriminate Hty; cbn [token_type_eqb].
  1:{ (* the pipe *)
    destruct Hwf as [(Hc & Htext & Hlen) | Hr].
    - rewrite Hlen, Htext.
      rewrite firstn_1_skipn by (apply wat_nonzero; rewrite Hc; discriminate).
      rewrite Hc. reflexivity.
    - destruct (Hcov Hr) as (fd & Hread & Htext & Hfd).
      unfold fd_redirected_by_pipe, wcstring_eqb.
      destruct (list_eq_dec Z.eq_dec _ [124]) as [E|_].
      + rewrite E in Hread. vm_compute in Hread. discriminate.
      + rewrite Hread. cbn [token_type_eqb negb orb].
        destruct (Z.ltb_spec fd 0); rewrite Htext; [|reflexivity].
        replace fd with (-1) by lia. reflexivity. }
  all: destruct (Hcov Hwf) as (fd & Hread & Htext & Hfd);
    unfold redirection_type_for_string; rewrite Hread;
    cbn [token_type_eqb orb fst snd]; split; [exact Htext|reflexivity].
Qed.

End RedirectionTokens.

(** A witness: the token of [2>>] in [2>>x]. *)
Lemma redirection_token_reads_back_witness :
  let tok := {| Tok.text := L "2"; Tok.type := TOK_REDIRECT_APPEND;
                Tok.error := TOK_ERROR_NONE; Tok.error_offset := 0;
                Tok.offset := 0; Tok.length := 3 |} in
  Tok.text tok = to_string (snd (redirection_type_for_string (L "2>>")))
  /\ fst (redirection_type_for_string (L "2>>"))
     = (if snd (redirection_type_for_string (L "2>>")) <? 0
        then TOK_NONE else Tok.type tok).
Proof.
  refine (redirection_token_reads_back (L "2>>x") strict_flags 0
            (fst (next (tokenizer (L "2>>x") strict_flags)))
            {| Tok.text := L "2"; Tok.type := TOK_REDIRECT_APPEND;
               Tok.error := TOK_ERROR_NONE; Tok.error_offset := 0;
               Tok.offset := 0; Tok.length := 3 |} _ eq_refl).
  vm_compute. reflexivity.
Defined.

(** * More on the word-motion state machines *)

Section WordMotionWords.
Context {LC : wctype}.

Lemma path_component_character_no_slash (c : wchar) :
  is_path_component_character c = true -> (c =? c_slash) = false.
Proof.
  unfold is_path_component_character, wcschr. intros H.
  apply andb_true_iff in H. destruct H as [_ H]. apply negb_true_iff in H.
  apply orb_false_iff in H. destruct H as [H _]. simpl in H.
  apply orb_false_iff in H. destruct H as [H _]. exact H.
Qed.

(** X11.  In each of the three styles, a fresh machine consumes the first
    character it is given, whatever that character is. *)
Theorem first_character_is_consumed :
  forall (syl : move_word_style_t) (c : wchar),
    snd (consume_char (move_word_state_machine syl) c) = true.
Proof.
  intros syl c. destruct syl; try reflexivity.
  unfold consume_char, consume_char_path_components, move_word_state_machine.
  cbn [style state].
  pose proof (path_component_character_no_slash c) as Hs.
  unfold consume_loop, path_components_round.
  destruct (is_path_component_character c); cbn; [|reflexivity].
  rewrite (Hs eq_refl).
  destruct (iswspace c); reflexivity.
Qed.

(** A run of characters that a state consumes without leaving. *)
Lemma consumed_run_stays (m : move_word_state_machine_t) (p : wchar -> bool) :
  (forall c, p c = true -> consume_char m c = (m, true)) ->
  forall cs rest, forallb p cs = true ->
    consumed_run m (cs ++ rest) = (List.length cs + consumed_run m rest)%nat.
Proof.
  intros Hstep. induction cs as [|c cs IH]; intros rest Hcs; [reflexivity|].
  simpl in Hcs. apply andb_true_iff in Hcs. destruct Hcs as [Hc Hcs].
  cbn [app consumed_run List.length]. rewrite (Hstep c Hc). cbn [fst snd].
  rewrite (IH rest Hcs). reflexivity.
Qed.

Lemma consumed_run_step (m m' : move_word_state_machine_t) (c : wchar) (cs : list wchar) :
  consume_char m c = (m', true) -> consumed_run m (c :: cs) = S (consumed_run m' cs).
Proof. intros H. cbn [consumed_run]. rewrite H. reflexivity. Qed.

Lemma consumed_run_stop (m m' : move_word_state_machine_t) (c : wchar) (cs : list wchar) :
  consume_char m c = (m', false) -> consumed_run m (c :: cs) = O.
Proof. intros H. cbn [consumed_run]. rewrite H. reflexivity. Qed.

(** One call of [consume_char], the classes of the character being among the
    hypotheses; and the word of the punctuation and whitespace styles, which
    differ in the two classes of characters only. *)
Ltac machine_step :=
  unfold consume_char, consume_char_punctuation, consume_char_whitespace,
    consume_char_path_components;
  cbn;
  repeat (match goal with
          | H : ?p ?c = _ |- context [?p ?c] => rewrite H
          end; cbn);
  reflexivity.

Ltac two_class_word p1 p2 Hws Hal :=
  match goal with
  | |- consumed_run _ (?c0 :: ?ws ++ ?al ++ ?d :: ?rest) = _ =>
      erewrite consumed_run_step by reflexivity;
      erewrite (consumed_run_stays _ p1) by
        first [exact Hws | intros c Hc; machine_step];
      destruct al as [|a al]; cbn [hd] in *;
      [ cbn [app List.length]; rewrite Nat.add_0_r;
        erewrite consumed_run_stop; [lia|machine_step]
      | cbn [forallb] in Hal; apply andb_true_iff in Hal;
        let Ha := fresh "Ha" in destruct Hal as [Ha Hal];
        cbn [app]; erewrite consumed_run_step by machine_step;
        erewrite (consumed_run_stays _ p2) by
          first [exact Hal | intros c Hc; machine_step];
        erewrite consumed_run_stop; [cbn [List.length]; lia|machine_step] ]
  end.

(** X12.  The word of the punctuation style.  A fresh machine consumes one
    character whatever it is, then a run of white space, then a run of
    alphanumeric characters, and refuses the character after them: of
    [c0 :: ws ++ al ++ d :: rest], where [ws] is white space, [al] is
    alphanumeric and starts with no white space, and [d] is not alphanumeric
    (and no white space when [al] is empty), it consumes [c0], [ws] and
    [al], and no more. *)
Theorem punctuation_word (c0 : wchar) (ws al : list wchar) (d : wchar) (rest : list wchar) :
  forallb iswspace ws = true ->
  forallb iswalnum al = true ->
  iswspace (hd d al) = false ->
  iswalnum d = false ->
  consumed_run (move_word_state_machine move_word_style_punctuation)
    (c0 :: ws ++ al ++ d :: rest)
  = S (List.length ws + List.length al).
Proof.
  intros Hws Hal Hhd Hd.
  two_class_word iswspace iswalnum Hws Hal.
Qed.

(** X13.  The word of the whitespace style.  A fresh machine consumes one
    character whatever it is, then a run of blanks, then a run of printable
    characters, and refuses the character after them: of
    [c0 :: bs ++ gs ++ d :: rest], where [bs] is blank, [gs] is printable and
    starts with no blank, and [d] is not printable (and no blank when [gs] is
    empty), it consumes [c0], [bs] and [gs], and no more. *)
Theorem whitespace_word (c0 : wchar) (bs gs : list wchar) (d : wchar) (rest : list wchar) :
  forallb iswblank bs = true ->
  forallb iswgraph gs = true ->
  iswblank (hd d gs) = false ->
  iswgraph d = false ->
  consumed_run (move_word_state_machine move_word_style_whitespace)
    (c0 :: bs ++ gs ++ d :: rest)
  = S (List.length bs + List.length gs).
Proof.
  intros Hws Hal Hhd Hd.
  two_class_word iswblank iswgraph Hws Hal.
Qed.

Lemma path_word_tail (pcs : list wchar) (d : wchar) (rest : list wchar) :
  forallb is_path_component_character pcs = true ->
  is_path_component_character d = false ->
  consumed_run {| state := PathComponents.s_path_component_characters;
                  style := move_word_style_path_components |}
    (pcs ++ d :: rest)
  = List.length pcs.
Proof.
  intros Hpcs Hd.
  erewrite (consumed_run_stays _ is_path_component_character) by
    first [exact Hpcs | intros c Hc; machine_step].
  erewrite consumed_run_stop; [lia|machine_step].
Qed.

(** X14.  A path component.  Of [p :: pcs ++ d :: rest], where [p] and
    [pcs] are path-component characters, [p] is no white space and [d] is no
    path-component character (a slash, say), a fresh machine of the
    path-components style consumes [p] and [pcs], and no more. *)
Theorem path_component_word (p : wchar) (pcs : list wchar) (d : wchar) (rest : list wchar) :
  is_path_component_character p = true ->
  iswspace p = false ->
  forallb is_path_component_character pcs = true ->
  is_path_component_character d = false ->
  consumed_run (move_word_state_machine move_word_style_path_components)
    (p :: pcs ++ d :: rest)
  = S (List.length pcs).
Proof.
  intros Hp Hsp Hpcs Hd.
  pose proof (path_component_character_no_slash p Hp) as Hslash.
  erewrite consumed_run_step by machine_step.
  rewrite (path_word_tail pcs d rest Hpcs Hd). reflexivity.
Qed.

(** X15.  A path component after punctuation.  Of
    [c0 :: ws ++ sl ++ pcs ++ d :: rest], where [c0] is no path-component
    character, [ws] is white space, [sl] is slashes, [pcs] is path-component
    characters, [sl] and [pcs] are not both empty, and [d] is neither a
    path-component character nor, when [pcs] is empty, a slash, a fresh
    machine of the path-components style consumes [c0], [ws], [sl] and
    [pcs], and no more. *)
Theorem path_component_word_after_punctuation
    (c0 : wchar) (ws sl pcs : list wchar) (d : wchar) (rest : list wchar) :
  is_path_component_character c0 = false ->
  forallb iswspace ws = true ->
  forallb (Z.eqb c_slash) sl = true ->
  forallb is_path_component_character pcs = true ->
  sl ++ pcs <> [] ->
  (sl = [] -> iswspace (hd d pcs) = false) ->
  is_path_component_character d = false ->
  (pcs = [] -> d <> c_slash) ->
  consumed_run (move_word_state_machine move_word_style_path_components)
    (c0 :: ws ++ sl ++ pcs ++ d :: rest)
  = S (List.length ws + List.length sl + List.length pcs).
Proof.
  intros Hc0 Hws Hsl Hpcs Hne Hhd Hd Hdslash.
  erewrite consumed_run_step by machine_step.
  erewrite (consumed_run_stays _ iswspace) by
    first [exact Hws | intros c Hc; machine_step].
  assert (Hspace : iswspace 47 = false) by (apply iswspace_ascii_graph; lia).
  destruct sl as [|s sl].
  - destruct pcs as [|p pcs]; [contradiction|].
    cbn [forallb] in Hpcs. apply andb_true_iff in Hpcs. destruct Hpcs as [Hp Hpcs].
    specialize (Hhd eq_refl). cbn [hd] in Hhd.
    pose proof (path_component_character_no_slash p Hp) as Hslash.
    cbn [app]. erewrite consumed_run_step by machine_step.
    rewrite (path_word_tail pcs d rest Hpcs Hd). cbn [List.length]. lia.
  - cbn [forallb] in Hsl. apply andb_true_iff in Hsl. destruct Hsl as [Hs Hsl].
    apply Z.eqb_eq in Hs. subst s.
    cbn [app]. erewrite consumed_run_step by machine_step.
    erewrite (consumed_run_stays _ (Z.eqb 47)) by
      first [exact Hsl
            |intros c Hc; apply Z.eqb_eq in Hc; subst c; machine_step].
    destruct pcs as [|p pcs].
    + cbn [app]. assert ((d =? 47) = false) as Hdz
        by (apply Z.eqb_neq, Hdslash; reflexivity).
      erewrite consumed_run_stop; [cbn [List.length]; lia|machine_step].
    + cbn [forallb] in Hpcs. apply andb_true_iff in Hpcs. destruct Hpcs as [Hp Hpcs].
      pose proof (path_component_character_no_slash p Hp) as Hslash.
      cbn [app]. erewrite consumed_run_step by machine_step.
      rewrite (path_word_tail pcs d rest Hpcs Hd). cbn [List.length]. lia.
Qed.

End WordMotionWords.

(** A witness: [foo] in [foo bar]. *)
Lemma punctuation_word_witness :
  consumed_run (move_word_state_machine move_word_style_punctuation) (L "foo bar")
  = 3%nat.
Proof.
  exact (punctuation_word 102 [] (L "oo") 32 (L "bar")
           eq_refl eq_refl eq_refl eq_refl).
Defined.

(** A witness: [a  bc] in [a  bc;d]. *)
Lemma whitespace_word_witness :
  consumed_run (move_word_state_machine move_word_style_whitespace) (L "a  bc" ++ [10; 100])
  = 5%nat.
Proof.
  exact (whitespace_word 97 (L "  ") (L "bc") 10 [100]
           eq_refl eq_refl eq_refl eq_refl).
Defined.

(** A witness: [bin] in [bin/local]. *)
Lemma path_component_word_witness :
  consumed_run (move_word_state_machine move_word_style_path_components) (L "bin/local")
  = 3%nat.
Proof.
  exact (path_component_word 98 (L "in") 47 (L "local")
           eq_refl eq_refl eq_refl eq_refl).
Defined.

(** A witness: [/ //usr] in [/ //usr/bin]. *)
Lemma path_component_word_after_punctuation_witness :
  consumed_run (move_word_state_machine move_word_style_path_components)
    (L "/ //usr/bin")
  = 7%nat.
Proof.
  refine (path_component_word_after_punctuation 47 (L " ") (L "//") (L "usr") 47
            (L "bin") eq_refl eq_refl eq_refl eq_refl _ _ eq_refl _).
  - discriminate.
  - discriminate.
  - discriminate.
Defined.

(** * Where the stream ends *)

Section StreamEnd.
Context {LC : wctype}.

Lemma skip_comments_has_next :
  forall (fuel : nat) (t t' : tokenizer_t) (returned : bool),
    skip_comments fuel t = Some (t', returned) -> has_next t' = has_next t.
Proof.
  induction fuel as [|fuel IH]; intros t t' returned H; [discriminate|].
  cbn [skip_comments] in H.
  destruct (cur t =? 35); [|inversion H; reflexivity].
  cbv zeta in H.
  match type of H with
  | context [if ?c then set_buff ?t1 ?x else ?t1] =>
      assert (has_next (if c then set_buff t1 x else t1) = has_next t) as Hh
        by (destruct c; reflexivity);
      assert (show_comments (if c then set_buff t1 x else t1) = show_comments t) as Hs
        by (destruct c; reflexivity);
      set (t2 := if c then set_buff t1 x else t1) in *
  end.
  destruct (show_comments t2).
  - inversion H; subst. fields. exact Hh.
  - apply IH in H. fields. congruence.
Qed.

(** The [switch] of [tok_next] returns false at the NUL only, and leaves
    [has_next] as it is unless it does that or raises an error. *)
Lemma tok_next_dispatch_has_next (t : tokenizer_t) :
  in_bounds t -> has_next t = true ->
  match tok_next_dispatch t with
  | (t', true) => last_type t' = TOK_ERROR \/ has_next t' = true
  | (t', false) => cur t' = c_nul
  end.
Proof.
  intros Hin Hn. unfold tok_next_dispatch.
  destruct (Z.eqb_spec (cur t) 0) as [E0|E0]; [exact E0|].
  destruct ((cur t =? 13) || (cur t =? 10) || (cur t =? 59)).
  { right. destruct (negb (show_blank_lines _)); fields; exact Hn. }
  destruct (cur t =? 38); [right; exact Hn|].
  destruct (cur t =? 124); [right; exact Hn|].
  destruct ((cur t =? 62) || (cur t =? 60) || (cur t =? 94)).
  { destruct (read_redirection_or_fd_pipe (rest t)) as [[consumed mode_] fd].
    destruct ((consumed =? 0)%nat || (fd <? 0)); [left; reflexivity|right; exact Hn]. }
  assert (last_type (read_string t) = TOK_ERROR \/ has_next (read_string t) = true)
    as Hstring.
  { destruct (read_string_spec t Hin) as (b' & _ & [-> | (_ & e & w & _ & ->)]).
    - right. exact Hn.
    - left. reflexivity. }
  destruct (iswdigit (cur t)); [|exact Hstring].
  destruct (read_redirection_or_fd_pipe (rest t)) as [[consumed mode_] fd].
  destruct (0 <? consumed)%nat; [|exact Hstring].
  destruct (token_type_eqb mode_ TOK_PIPE && (fd =? 0));
    [left; reflexivity|right; exact Hn].
Qed.

Lemma tok_next_has_next (t : tokenizer_t) :
  in_bounds t -> has_next t = true ->
  match tok_next t with
  | (t', true) => last_type t' = TOK_ERROR \/ has_next t' = true
  | (t', false) => cur t' = c_nul
  end.
Proof.
  intros Hin Hn. unfold in_bounds in Hin. unfold tok_next. rewrite Hn. cbn [negb].
  pose proof (skip_blanks_le _ (rest t) (Nat.le_refl _)) as Hle.
  rewrite length_rest in Hle.
  destruct (skip_blanks (rest t)) as [n escaped_nl]. cbn [fst] in Hle.
  set (t1 := set_buff t (buff t + n)).
  set (t2 := if escaped_nl then set_continue_line_after_comment t1 true else t1).
  assert (buff t2 = (buff t + n)%nat /\ start t2 = start t /\ has_next t2 = true)
    as (Hb2 & Hst2 & Hn2).
  { unfold t2, t1. destruct escaped_nl; fields; auto. }
  destruct (skip_comments_total (skip_comments_fuel t2) t2)
    as (t3 & r & Hrun & Hs3 & Hb3 & _).
  { unfold in_bounds. rewrite Hb2, Hst2. lia. }
  { unfold skip_comments_fuel. lia. }
  rewrite Hrun. pose proof (skip_comments_has_next _ _ _ _ Hrun) as Hh.
  destruct r.
  - right. congruence.
  - destruct Hs3 as (Hst3 & _).
    apply tok_next_dispatch_has_next.
    + unfold in_bounds. fields. rewrite Hst3, Hst2. rewrite Hst2 in Hb3. lia.
    + fields. congruence.
Qed.

Lemma next_has_next (t : tokenizer_t) :
  in_bounds t -> has_next t = true ->
  match next t with
  | (t', Some tok) => Tok.type tok = TOK_ERROR \/ has_next t' = true
  | (t', None) => cur t' = c_nul
  end.
Proof.
  intros Hin Hn. pose proof (tok_next_has_next t Hin Hn) as H.
  unfold next. destruct (tok_next t) as [t' more].
  destruct more; cbn [negb Tok.type]; exact H.
Qed.

Lemma stream_end (n : nat) :
  forall t : tokenizer_t,
    in_bounds t -> has_next t = true ->
    snd (next (after_next n t)) = None ->
    cur (fst (next (after_next n t))) = c_nul
    \/ exists (k : nat) (t' : tokenizer_t) (tok : tok_t),
         (k < n)%nat /\ next (after_next k t) = (t', Some tok)
         /\ Tok.type tok = TOK_ERROR.
Proof.
  induction n as [|n IH]; intros t Hin Hn Hnone.
  - left. cbn [after_next] in *. pose proof (next_has_next t Hin Hn) as H.
    destruct (next t) as [t' [tok|]]; cbn [fst snd] in *; [discriminate|exact H].
  - cbn [after_next] in *.
    destruct (next_spec t Hin) as (_ & Hin1 & _).
    pose proof (next_has_next t Hin Hn) as H.
    destruct (has_next (fst (next t))) eqn:Hn1.
    + destruct (IH _ Hin1 Hn1 Hnone) as [H'|(k & t' & tok & Hk & Hnext & Hty)];
        [left; exact H'|].
      right. exists (S k), t', tok. split; [lia|]. split; [exact Hnext|exact Hty].
    + rewrite (after_next_without_has_next n _ Hn1) in *.
      rewrite (next_without_has_next _ Hn1) in *. cbn [fst].
      destruct (next t) as [t' [tok|]] eqn:Enext; cbn [fst snd] in *;
        [|left; exact H].
      destruct H as [Herr|Hh]; [|congruence].
      right. exists O, t', tok. split; [lia|]. split; [exact Enext|exact Herr].
Qed.

(** X16.  Where the stream ends.  When a call of [next], on a tokenizer
    reached from a new one by calls of [next], emits no token, then the
    cursor is on the terminating NUL of the source, or one of the calls
    before emitted an Error token: the tokenizer gives up nowhere else. *)
Theorem stream_ends_at_the_nul_or_after_an_error :
  forall (src : wcstring) (flags : tok_flags_t) (n : nat),
    snd (next (after_next n (tokenizer src flags))) = None ->
    wat src (buff (fst (next (after_next n (tokenizer src flags))))) = c_nul
    \/ exists (k : nat) (t' : tokenizer_t) (tok : tok_t),
         (k < n)%nat
         /\ next (after_next k (tokenizer src flags)) = (t', Some tok)
         /\ Tok.type tok = TOK_ERROR.
Proof.
  intros src flags n Hnone.
  destruct (after_next_spec src flags n) as (_ & Hin).
  destruct (next_spec _ Hin) as ((Hst & _) & _).
  destruct (after_next_spec src flags n) as ((Hst0 & _) & _).
  rewrite Hst0 in Hst. simpl in Hst.
  destruct (stream_end n (tokenizer src flags)) as [H|H].
  - unfold in_bounds. simpl. lia.
  - reflexivity.
  - exact Hnone.
  - left. unfold cur in H. rewrite Hst in H. exact H.
  - right. exact H.
Qed.

End StreamEnd.

(** A witness: the second call on [a]. *)
Lemma stream_ends_at_the_nul_or_after_an_error_witness :
  wat (L "a") (buff (fst (next (after_next 1 (tokenizer (L "a") strict_flags))))) = c_nul
  \/ exists (k : nat) (t' : tokenizer_t) (tok : tok_t),
       (k < 1)%nat
       /\ next (after_next k (tokenizer (L "a") strict_flags)) = (t', Some tok)
       /\ Tok.type tok = TOK_ERROR.
Proof.
  apply (stream_ends_at_the_nul_or_after_an_error (L "a") strict_flags 1).
  vm_compute. reflexivity.
Defined.

(** * The extent of End and Comment tokens *)

Lemma scan_while_all (p : wchar -> bool) (s : wcstring) :
  forall i, (i < scan_while p s)%nat -> p (wat s i) = true.
Proof.
  induction s as [|c s IH]; intros i Hi; simpl in Hi; [lia|].
  destruct (p c) eqn:E; [|lia].
  destruct i as [|i]; [exact E|]. apply IH. lia.
Qed.

Section TokenExtent.
Context {LC : wctype}.

(** An End token comes from the branch of the [switch] on a line end or a
    semicolon. *)
Lemma tok_next_dispatch_end (t t' : tokenizer_t) :
  in_bounds t -> tok_next_dispatch t = (t', true) -> last_type t' = TOK_END ->
  (cur t = c_cr \/ cur t = c_nl \/ cur t = c_semi)
  /\ last_token t' = [cur t]
  /\ buff t' = (if show_blank_lines t then S (buff t)
                else S (buff t) + scan_while is_newline_run (skipn (S (buff t)) (start t)))%nat.
Proof.
  intros Hin. unfold tok_next_dispatch.
  assert (Hmode : forall consumed mode_ fd,
            read_redirection_or_fd_pipe (rest t) = (consumed, mode_, fd) ->
            consumed <> O -> mode_ <> TOK_END).
  { intros consumed mode_ fd Hr Hc.
    pose proof (read_redirection_or_fd_pipe_bounds (rest t)) as Hb. rewrite Hr in Hb.
    destruct Hb as (_ & Hb). destruct (Nat.eqb_spec consumed 0); [contradiction|].
    intros ->. discriminate. }
  assert (Hstring : last_type (read_string t) <> TOK_END).
  { destruct (read_string_spec t Hin) as (b' & _ & [-> | (_ & e & w & _ & ->)]);
      discriminate. }
  destruct (cur t =? 0); [discriminate|].
  destruct ((cur t =? 13) || (cur t =? 10) || (cur t =? 59)) eqn:Eend.
  { intros H _. inversion H; subst. clear H. split.
    - apply orb_true_iff in Eend. destruct Eend as [Eend|E].
      + apply orb_true_iff in Eend. destruct Eend as [E|E]; apply Z.eqb_eq in E; auto.
      + apply Z.eqb_eq in E. auto.
    - fields. destruct (show_blank_lines t); cbn [negb]; fields;
        split; reflexivity. }
  destruct (cur t =? 38).
  { intros H. inversion H; subst. fields. discriminate. }
  destruct (cur t =? 124).
  { intros H. inversion H; subst. fields. discriminate. }
  destruct ((cur t =? 62) || (cur t =? 60) || (cur t =? 94)).
  { destruct (read_redirection_or_fd_pipe (rest t)) as [[consumed mode_] fd] eqn:Er.
    destruct (Nat.eqb_spec consumed 0) as [|Hc]; cbn [orb].
    - intros H. inversion H; subst. fields. discriminate.
    - destruct (fd <? 0); intros H; inversion H; subst; fields; [discriminate|].
      intros E. exfalso. exact (Hmode _ _ _ eq_refl Hc E). }
  destruct (iswdigit (cur t)).
  2:{ intros H E. inversion H; subst. contradiction. }
  destruct (read_redirection_or_fd_pipe (rest t)) as [[consumed mode_] fd] eqn:Er.
  destruct (Nat.ltb_spec 0 consumed) as [Hc|Hc].
  2:{ intros H E. inversion H; subst. contradiction. }
  destruct (token_type_eqb mode_ TOK_PIPE && (fd =? 0));
    intros H; inversion H; subst; fields; [discriminate|].
  intros E. exfalso. exact (Hmode _ _ _ eq_refl ltac:(lia) E).
Qed.

(** X17.  The extent of an End token.  An End token of the stream starts on a
    carriage return, a newline or a semicolon, which is its text.  When blank
    lines are shown it covers that character alone.  Otherwise it covers the
    whole run of newlines, carriage returns, spaces and tabs that follows:
    every further character it covers is one of these, and the character
    after the token is none of them. *)
Theorem end_token_extent :
  forall (src : wcstring) (flags : tok_flags_t) (n : nat)
         (t' : tokenizer_t) (tok : tok_t),
    next (after_next n (tokenizer src flags)) = (t', Some tok) ->
    Tok.type tok = TOK_END ->
    let c := wat src (Tok.offset tok) in
    (c = c_cr \/ c = c_nl \/ c = c_semi)
    /\ Tok.text tok = [c]
    /\ if TOK_SHOW_BLANK_LINES flags then Tok.length tok = 1%nat
       else (forall i, (1 <= i < Tok.length tok)%nat ->
               is_newline_run (wat src (Tok.offset tok + i)) = true)
            /\ is_newline_run (wat src (Tok.offset tok + Tok.length tok)) = false.
Proof.
  intros src flags n t' tok Hnext Hty.
  destruct (after_next_spec src flags n) as (Hs & Hin).
  destruct (next_emits _ _ _ Hnext) as (Etn & -> & Hn).
  cbn [token_of Tok.type Tok.text Tok.offset Tok.length] in *.
  destruct Hs as (Hst & _ & _ & Hsb & _). simpl in Hst, Hsb.
  destruct (tok_next_cases _ Hin Hn) as [(t2 & Hc2 & Hty2 & _)|
                                          (t3 & Hc3 & Hs3 & _ & Hb3 & Hp3 & _)].
  { rewrite Etn in Hc2. inversion Hc2; subst. congruence. }
  rewrite Etn in Hc3. symmetry in Hc3.
  destruct Hs3 as (Hst3 & _ & _ & Hsb3 & _).
  assert (in_bounds t3) as Hin3 by (unfold in_bounds; rewrite Hst3; lia).
  pose proof (tok_next_dispatch_last_pos t3 Hin3) as Hlp.
  rewrite Hc3 in Hlp. cbn [fst] in Hlp.
  destruct (tok_next_dispatch_end t3 t' Hin3 Hc3 Hty) as (Hc & Htext & Hbuff).
  rewrite Hlp, Hp3. unfold cur in Hc, Htext. rewrite Hst3, Hst in Hc, Htext, Hbuff.
  rewrite Hsb3, Hsb in Hbuff.
  split; [exact Hc|]. split; [exact Htext|].
  destruct (TOK_SHOW_BLANK_LINES flags).
  - rewrite Hbuff.
    destruct (Nat.leb_spec (buff t3) (S (buff t3))); lia.
  - set (k := scan_while is_newline_run (skipn (S (buff t3)) src)) in *.
    assert ((if (buff t3 <=? buff t')%nat then (buff t' - buff t3)%nat else O)
            = S k) as -> by (destruct (Nat.leb_spec (buff t3) (buff t')); lia).
    split.
    + intros i Hi. replace (buff t3 + i)%nat with (S (buff t3) + (i - 1))%nat by lia.
      rewrite <- wat_skipn. apply scan_while_all. fold k. lia.
    + replace (buff t3 + S k)%nat with (S (buff t3) + k)%nat by lia.
      rewrite <- wat_skipn. apply scan_while_stop. reflexivity.
Qed.

End TokenExtent.

(** A witness: the End token of [a], a newline, a space, a newline and [b]. *)
Lemma end_token_extent_witness :
  let src := [97; 10; 32; 10; 98] in
  let tok := {| Tok.text := [10]; Tok.type := TOK_END;
                Tok.error := TOK_ERROR_NONE; Tok.error_offset := 0;
                Tok.offset := 1; Tok.length := 3 |} in
  let c := wat src (Tok.offset tok) in
  (c = c_cr \/ c = c_nl \/ c = c_semi)
  /\ Tok.text tok = [c]
  /\ (forall i, (1 <= i < Tok.length tok)%nat ->
        is_newline_run (wat src (Tok.offset tok + i)) = true)
  /\ is_newline_run (wat src (Tok.offset tok + Tok.length tok)) = false.
Proof.
  refine (end_token_extent [97; 10; 32; 10; 98] strict_flags 1
            (fst (next (after_next 1 (tokenizer [97; 10; 32; 10; 98] strict_flags))))
            {| Tok.text := [10]; Tok.type := TOK_END;
               Tok.error := TOK_ERROR_NONE; Tok.error_offset := 0;
               Tok.offset := 1; Tok.length := 3 |} _ eq_refl).
  vm_compute. reflexivity.
Defined.

Section CommentExtent.
Context {LC : wctype}.

(** The comment token that the comment loop returns: its text is the line
    from the hash on, and the cursor is after the text, or after the newline
    that follows it. *)
Lemma skip_comments_comment :
  forall (fuel : nat) (t t' : tokenizer_t),
    skip_comments fuel t = Some (t', true) ->
    start t' = start t
    /\ let line := skipn (last_pos t') (start t) in
       let k := scan_while not_end_of_line line in
       last_token t' = firstn k line
       /\ (buff t' = (last_pos t' + k)%nat
           \/ (buff t' = S (last_pos t' + k) /\ wat line k = c_nl)).
Proof.
  induction fuel as [|fuel IH]; intros t t' H; [discriminate|].
  cbn [skip_comments] in H.
  destruct (cur t =? 35); [|discriminate].
  cbv zeta in H.
  set (n1 := scan_while not_end_of_line (rest t)) in *.
  set (t1 := set_buff t (buff t + n1)) in *.
  assert ((buff t1 - buff t)%nat = n1) as Hlen by (unfold t1; fields; lia).
  rewrite Hlen in H.
  assert (cur t1 = wat (rest t) n1) as Hcur.
  { unfold cur, rest, t1. fields. rewrite wat_skipn. reflexivity. }
  match type of H with
  | context [if ?c then set_buff t1 ?x else t1] =>
      assert (start (if c then set_buff t1 x else t1) = start t
              /\ show_comments (if c then set_buff t1 x else t1) = show_comments t
              /\ (buff (if c then set_buff t1 x else t1) = (buff t + n1)%nat
                  \/ (buff (if c then set_buff t1 x else t1) = S (buff t + n1)
                      /\ wat (rest t) n1 = c_nl)))
        as (Hst2 & Hsc2 & Hb2);
      [|set (t2 := if c then set_buff t1 x else t1) in *]
  end.
  { destruct (Z.eqb_spec (cur t1) 10) as [E|E]; cbn [andb].
    - destruct (continue_line_after_comment t1); unfold t1; fields; auto.
      split; [reflexivity|]. split; [reflexivity|]. right.
      split; [reflexivity|]. rewrite <- Hcur. exact E.
    - unfold t1. fields. auto. }
  destruct (show_comments t2) eqn:Es.
  - inversion H; subst. clear H. fields. split; [exact Hst2|].
    cbv zeta. rewrite Hst2. fold (rest t). fold n1. split; [reflexivity|exact Hb2].
  - apply IH in H. fields. destruct H as (Hst & H).
    rewrite Hst2 in Hst, H. split; [exact Hst|exact H].
Qed.

(** A Comment token comes from the comment loop. *)
Lemma tok_next_comment (t t' : tokenizer_t) :
  in_bounds t -> has_next t = true ->
  tok_next t = (t', true) -> last_type t' = TOK_COMMENT ->
  exists fuel t2, skip_comments fuel t2 = Some (t', true) /\ start t2 = start t.
Proof.
  intros Hin Hn. unfold in_bounds in Hin. unfold tok_next. rewrite Hn. cbn [negb].
  pose proof (skip_blanks_le _ (rest t) (Nat.le_refl _)) as Hle.
  rewrite length_rest in Hle.
  destruct (skip_blanks (rest t)) as [m escaped_nl]. cbn [fst] in Hle.
  set (t1 := set_buff t (buff t + m)).
  set (t2 := if escaped_nl then set_continue_line_after_comment t1 true else t1).
  assert (buff t2 = (buff t + m)%nat /\ start t2 = start t) as (Hb2 & Hst2).
  { unfold t2, t1. destruct escaped_nl; fields; auto. }
  destruct (skip_comments_total (skip_comments_fuel t2) t2)
    as (t3 & r & Hrun & Hs3 & Hb3 & _).
  { unfold in_bounds. rewrite Hb2, Hst2. lia. }
  { unfold skip_comments_fuel. lia. }
  rewrite Hrun. destruct r.
  - intros H _. inversion H; subst. exists (skip_comments_fuel t2), t2.
    split; [exact Hrun|exact Hst2].
  - intros H Hty. exfalso. destruct Hs3 as (Hst3 & _).
    refine (tok_next_dispatch_no_comment _ _ _ H Hty).
    unfold in_bounds. fields. rewrite Hst3. lia.
Qed.

(** X18.  The extent of a Comment token.  The text of a Comment token of the
    stream is the source from the hash where the token starts up to the end
    of the line: it holds no newline and no NUL, and the character that
    follows it in the source is a newline or the terminating NUL.  The token
    covers its text, and at most the newline after it besides. *)
Theorem comment_token_extent :
  forall (src : wcstring) (flags : tok_flags_t) (n : nat)
         (t' : tokenizer_t) (tok : tok_t),
    next (after_next n (tokenizer src flags)) = (t', Some tok) ->
    Tok.type tok = TOK_COMMENT ->
    let k := List.length (Tok.text tok) in
    let after := wat src (Tok.offset tok + k) in
    wat src (Tok.offset tok) = c_hash
    /\ Tok.text tok = firstn k (skipn (Tok.offset tok) src)
    /\ (forall i, (i < k)%nat ->
          wat src (Tok.offset tok + i) <> c_nl /\ wat src (Tok.offset tok + i) <> c_nul)
    /\ (after = c_nl \/ after = c_nul)
    /\ (Tok.length tok = k \/ (Tok.length tok = S k /\ after = c_nl)).
Proof.
  intros src flags n t' tok Hnext Hty.
  destruct (after_next_spec src flags n) as (Hs & Hin).
  pose proof (next_spec _ Hin) as Hsp. rewrite Hnext in Hsp. cbn [fst snd] in Hsp.
  destruct Hsp as (_ & _ & (Hb & Hwf) & _).
  destruct (next_emits _ _ _ Hnext) as (Etn & -> & Hn).
  cbn [token_of Tok.type Tok.text Tok.offset Tok.length] in *.
  rewrite Hty in Hwf. destruct Hwf as (_ & _ & Hhash).
  destruct Hs as (Hst & _). simpl in Hst.
  destruct (tok_next_comment _ _ Hin Hn Etn Hty) as (fuel & t2 & Hrun & Hst2).
  rewrite Hst in Hst2.
  destruct (skip_comments_comment _ _ _ Hrun) as (Hst' & Htext & Hbuff).
  rewrite Hst2 in *. cbv zeta in Htext, Hbuff.
  set (line := skipn (last_pos t') src) in *.
  set (k := scan_while not_end_of_line line) in *.
  assert ((k <= List.length line)%nat) as Hk by apply scan_while_le.
  assert (List.length (last_token t') = k) as Hlen.
  { rewrite Htext. apply firstn_length_le. exact Hk. }
  rewrite Hlen. rewrite Hst' in Hhash.
  split; [exact Hhash|]. split; [exact Htext|].
  assert (Hafter : not_end_of_line (wat src (last_pos t' + k)) = false).
  { rewrite <- wat_skipn. apply scan_while_stop. reflexivity. }
  split; [|split].
  - intros i Hi. rewrite <- wat_skipn. fold line.
    pose proof (scan_while_all not_end_of_line line i Hi) as Hp.
    unfold not_end_of_line in Hp. apply andb_true_iff in Hp. destruct Hp as [H1 H2].
    apply negb_true_iff in H1, H2. apply Z.eqb_neq in H1, H2. split; assumption.
  - unfold not_end_of_line in Hafter. apply andb_false_iff in Hafter.
    destruct Hafter as [H|H]; apply negb_false_iff in H; apply Z.eqb_eq in H; auto.
  - destruct Hbuff as [Hb1|(Hb1 & Hnl)].
    + left. destruct (Nat.leb_spec (last_pos t') (buff t')); lia.
    + right. split; [destruct (Nat.leb_spec (last_pos t') (buff t')); lia|].
      rewrite <- wat_skipn. exact Hnl.
Qed.

End CommentExtent.

(** A witness: the comment of [#hi], a newline and [x]. *)
Lemma comment_token_extent_witness :
  let src := [35; 104; 105; 10; 120] in
  let tok := {| Tok.text := [35; 104; 105]; Tok.type := TOK_COMMENT;
                Tok.error := TOK_ERROR_NONE; Tok.error_offset := 0;
                Tok.offset := 0; Tok.length := 3 |} in
  let k := List.length (Tok.text tok) in
  let after := wat src (Tok.offset tok + k) in
  wat src (Tok.offset tok) = c_hash
  /\ Tok.text tok = firstn k (skipn (Tok.offset tok) src)
  /\ (forall i, (i < k)%nat ->
        wat src (Tok.offset tok + i) <> c_nl /\ wat src (Tok.offset tok + i) <> c_nul)
  /\ (after = c_nl \/ after = c_nul)
  /\ (Tok.length tok = k \/ (Tok.length tok = S k /\ after = c_nl)).
Proof.
  refine (comment_token_extent [35; 104; 105; 10; 120] comments_flags 0
            (fst (next (tokenizer [35; 104; 105; 10; 120] comments_flags)))
            {| Tok.text := [35; 104; 105]; Tok.type := TOK_COMMENT;
               Tok.error := TOK_ERROR_NONE; Tok.error_offset := 0;
               Tok.offset := 0; Tok.length := 3 |} _ eq_refl).
  vm_compute. reflexivity.
Defined.

(** * Where a String token starts and ends *)

Section StringExtent.
Context {LC : wctype}.

Lemma rs_switch_stops (buff_start : nat) (t : tokenizer_t) (v : rs_locals)
    (t1 : tokenizer_t) (v1 : rs_locals) :
  stopped_ok t v ->
  rs_switch buff_start t v = (t1, Some v1) -> do_loop v1 = false ->
  tok_is_string_character (cur t1) true = false.
Proof.
  intros Hstop.
  assert (Hsame : do_loop v = false -> tok_is_string_character (cur t) true = false).
  { intros H. rewrite (Hstop H). reflexivity. }
  assert (Hquote : (cur t =? 39) || (cur t =? 34) = true ->
                   rs_quote t v = (t1, Some v1) -> do_loop v1 = false ->
                   tok_is_string_character (cur t1) true = false).
  { intros Hq. unfold rs_quote. destruct (quote_end (rest t)) as [e|].
    - intros H Hd. inversion H; subst. rewrite (Hstop Hd) in Hq. discriminate.
    - cbv zeta. fields. destruct (accept_unfinished t); cbn [negb]; [|discriminate].
      intros H _. inversion H; subst. unfold cur. fields.
      unfold rest. rewrite <- wat_skipn. rewrite wcslen_stop. reflexivity. }
  unfold rs_switch.
  destruct (mode v);
    repeat match goal with
    | |- context [if ?b then _ else _] =>
        lazymatch b with
        | negb (tok_is_string_character _ _) => fail
        | _ => destruct b eqn:?
        end
    end;
    try (apply Hquote; first [reflexivity | assumption]);
    try (intros H Hd; inversion H; subst; cbn [do_loop set_mode set_parans
           set_offset_of_bracket set_do_loop] in Hd;
         first [exact (Hsame Hd)
               |match goal with
                | E : (cur t1 =? 0) = true |- _ =>
                    apply Z.eqb_eq in E; rewrite E; reflexivity
                end]).
  all: destruct (tok_is_string_character (cur t) (is_first v)) eqn:Es; cbn [negb];
    intros H Hd; inversion H; subst; cbn [do_loop set_do_loop] in Hd;
    [exact (Hsame Hd)|].
  all: destruct (is_first v); [exact Es|].
  all: unfold tok_is_string_character in *;
    destruct ((cur t1 =? 0) || (cur t1 =? 32) || (cur t1 =? 10) || (cur t1 =? 124)
              || (cur t1 =? 9) || (cur t1 =? 59) || (cur t1 =? 13) || (cur t1 =? 60)
              || (cur t1 =? 62) || (cur t1 =? 38)); [reflexivity|];
    destruct (cur t1 =? 94); [reflexivity|discriminate].
Qed.

(** The loop of [read_string] is left on a separator, the caret being one. *)
Lemma round_stops (buff_start : nat) (t : tokenizer_t) (v : rs_locals)
    (t1 : tokenizer_t) (v1 : rs_locals) :
  stopped_ok t v ->
  read_string_round buff_start t v = rs_break t1 v1 ->
  tok_is_string_character (cur t1) true = false.
Proof.
  intros Hstop. unfold read_string_round.
  destruct (myal (cur t)) eqn:Ea; cbn [negb].
  { unfold rs_round_end. destruct (do_loop v) eqn:Ed; cbn [negb]; [discriminate|].
    intros H. inversion H; subst. rewrite (Hstop Ed). reflexivity. }
  destruct (cur t =? 92).
  { cbv zeta. destruct (cur (set_buff t (S (buff t))) =? 0); [|discriminate].
    destruct (negb (accept_unfinished _)); discriminate. }
  destruct (rs_switch buff_start t v) as [t2 [v2|]] eqn:Esw; [|discriminate].
  unfold rs_round_end. destruct (do_loop v2) eqn:Ed; cbn [negb]; [discriminate|].
  intros H. inversion H; subst. exact (rs_switch_stops _ _ _ _ _ Hstop Esw Ed).
Qed.

Lemma loop_stops (buff_start : nat) :
  forall (fuel : nat) (t : tokenizer_t) (v : rs_locals) (t' : tokenizer_t)
         (v' : rs_locals),
    locals_ok buff_start t v -> stopped_ok t v ->
    read_string_loop fuel buff_start t v = Some (t', Some v') ->
    tok_is_string_character (cur t') true = false.
Proof.
  induction fuel as [|fuel IH]; intros t v t' v' Hok Hstop H; [discriminate|].
  cbn [read_string_loop] in H.
  pose proof (round_locals buff_start t v Hok Hstop) as Hr.
  destruct (read_string_round buff_start t v) as [t1|t1 v1|t1 v1] eqn:Er.
  - discriminate.
  - inversion H; subst. exact (round_stops _ _ _ _ _ Hstop Er).
  - destruct Hr as (Hok1 & Hstop1). exact (IH _ _ _ _ Hok1 Hstop1 H).
Qed.

Lemma read_string_stops (t : tokenizer_t) :
  in_bounds t -> last_type (read_string t) = TOK_STRING ->
  tok_is_string_character (cur (read_string t)) true = false.
Proof.
  intros Hin. unfold read_string, read_string_fuel.
  destruct (read_string_loop_total (buff t) (S (List.length (start t) - buff t)) t
              rs_initial ltac:(lia)) as (t' & r & Hrun & Hr).
  rewrite Hrun. destruct r as [v'|].
  - pose proof (loop_stops (buff t) _ t rs_initial t' v' (locals_ok_initial t)
                  ltac:(intros H; discriminate) Hrun) as Hs.
    intros _. unfold read_string_finish.
    destruct (negb (accept_unfinished t')); destruct (mode v'); exact Hs.
  - destruct Hr as (_ & b' & e & w & -> & _). discriminate.
Qed.

(** A String token comes from the string scanner, called on a character that
    is a string character at the start of a token. *)
Lemma tok_next_dispatch_string (t t' : tokenizer_t) :
  in_bounds t -> iswspace_not_nl (cur t) = false ->
  tok_next_dispatch t = (t', true) -> last_type t' = TOK_STRING ->
  t' = read_string t /\ tok_is_string_character (cur t) true = true.
Proof.
  intros Hin Hw. unfold tok_next_dispatch.
  assert (Hmode : forall consumed mode_ fd,
            read_redirection_or_fd_pipe (rest t) = (consumed, mode_, fd) ->
            consumed <> O -> mode_ <> TOK_STRING).
  { intros consumed mode_ fd Hr Hc.
    pose proof (read_redirection_or_fd_pipe_bounds (rest t)) as Hb. rewrite Hr in Hb.
    destruct Hb as (_ & Hb). destruct (Nat.eqb_spec consumed 0); [contradiction|].
    intros ->. discriminate. }
  destruct (Z.eqb_spec (cur t) 0) as [|E0]; [discriminate|].
  destruct ((cur t =? 13) || (cur t =? 10) || (cur t =? 59)) eqn:Eend.
  { intros H. inversion H; subst.
    destruct (negb (show_blank_lines _)); fields; discriminate. }
  destruct (Z.eqb_spec (cur t) 38) as [|Ea].
  { intros H. inversion H; subst. fields. discriminate. }
  destruct (Z.eqb_spec (cur t) 124) as [|Ep].
  { intros H. inversion H; subst. fields. discriminate. }
  destruct ((cur t =? 62) || (cur t =? 60) || (cur t =? 94)) eqn:Ered.
  { destruct (read_redirection_or_fd_pipe (rest t)) as [[consumed mode_] fd] eqn:Er.
    destruct (Nat.eqb_spec consumed 0) as [|Hc]; cbn [orb].
    - intros H. inversion H; subst. fields. discriminate.
    - destruct (fd <? 0); intros H; inversion H; subst; fields; [discriminate|].
      intros E. exfalso. exact (Hmode _ _ _ eq_refl Hc E). }
  assert (Hchar : tok_is_string_character (cur t) true = true).
  { unfold tok_is_string_character.
    apply orb_false_iff in Eend. destruct Eend as [Eend E59].
    apply orb_false_iff in Eend. destruct Eend as [E13 E10].
    apply orb_false_iff in Ered. destruct Ered as [Ered E94].
    apply orb_false_iff in Ered. destruct Ered as [E62 E60].
    unfold iswspace_not_nl in Hw.
    destruct (Z.eqb_spec (cur t) 32) as [|E32]; [discriminate|].
    destruct (Z.eqb_spec (cur t) 9) as [|E9]; [discriminate|].
    destruct (Z.eqb_spec (cur t) 0); [contradiction|].
    destruct (Z.eqb_spec (cur t) 124); [contradiction|].
    destruct (Z.eqb_spec (cur t) 38); [contradiction|].
    rewrite E13, E10, E59, E62, E60, E94. reflexivity. }
  destruct (iswdigit (cur t)).
  2:{ intros H _. inversion H; subst. split; [reflexivity|exact Hchar]. }
  destruct (read_redirection_or_fd_pipe (rest t)) as [[consumed mode_] fd] eqn:Er.
  destruct (Nat.ltb_spec 0 consumed) as [Hc|Hc].
  2:{ intros H _. inversion H; subst. split; [reflexivity|exact Hchar]. }
  destruct (token_type_eqb mode_ TOK_PIPE && (fd =? 0));
    intros H; inversion H; subst; fields; [discriminate|].
  intros E. exfalso. exact (Hmode _ _ _ eq_refl ltac:(lia) E).
Qed.

(** X19.  Where a String token starts and ends.  A String token of the
    stream starts on a character that is a string character at the start of a
    token (no NUL, blank, line end, [|], [;], [<], [>], [&] or [^]) and is no
    hash, and the character after the token is none: it is the terminating
    NUL or a separator, the caret being one.  The scanner never stops a word
    anywhere else. *)
Theorem string_token_extent :
  forall (src : wcstring) (flags : tok_flags_t) (n : nat)
         (t' : tokenizer_t) (tok : tok_t),
    next (after_next n (tokenizer src flags)) = (t', Some tok) ->
    Tok.type tok = TOK_STRING ->
    tok_is_string_character (wat src (Tok.offset tok)) true = true
    /\ wat src (Tok.offset tok) <> c_hash
    /\ tok_is_string_character (wat src (Tok.offset tok + Tok.length tok)) true = false.
Proof.
  intros src flags n t' tok Hnext Hty.
  destruct (after_next_spec src flags n) as (Hs & Hin).
  destruct (next_moves _ _ _ Hin Hnext) as (_ & Hend & _).
  destruct (next_spec _ Hin) as ((Hst' & _) & _). rewrite Hnext in Hst'.
  cbn [fst] in Hst'.
  destruct (next_emits _ _ _ Hnext) as (Etn & Htok & Hn).
  destruct Hs as (Hst & _). simpl in Hst. rewrite Hst in Hst'.
  rewrite Hend. subst tok.
  cbn [token_of Tok.type Tok.text Tok.offset Tok.length] in *.
  destruct (tok_next_cases _ Hin Hn) as [(t2 & Hc2 & Hty2 & _)|
                                          (t3 & Hc3 & Hs3 & _ & Hb3 & Hp3 & Hw3 & Hh3 & _)].
  { rewrite Etn in Hc2. inversion Hc2; subst. congruence. }
  rewrite Etn in Hc3. symmetry in Hc3.
  destruct Hs3 as (Hst3 & _). rewrite Hst in Hst3.
  assert (in_bounds t3) as Hin3 by (unfold in_bounds; rewrite Hst3, <- Hst; lia).
  pose proof (tok_next_dispatch_last_pos t3 Hin3) as Hlp.
  rewrite Hc3 in Hlp. cbn [fst] in Hlp.
  destruct (tok_next_dispatch_string t3 t' Hin3 Hw3 Hc3 Hty) as (Heq & Hchar).
  rewrite Hlp, Hp3. unfold cur in Hchar, Hh3. rewrite Hst3 in Hchar, Hh3.
  split; [exact Hchar|]. split; [exact Hh3|].
  pose proof (read_string_stops t3 Hin3) as Hstop. rewrite <- Heq in Hstop.
  specialize (Hstop Hty). unfold cur in Hstop. rewrite Hst' in Hstop. exact Hstop.
Qed.

End StringExtent.

(** A witness: the first token of [ab cd]. *)
Lemma string_token_extent_witness :
  let tok := {| Tok.text := L "ab"; Tok.type := TOK_STRING;
                Tok.error := TOK_ERROR_NONE; Tok.error_offset := 0;
                Tok.offset := 0; Tok.length := 2 |} in
  tok_is_string_character (wat (L "ab cd") (Tok.offset tok)) true = true
  /\ wat (L "ab cd") (Tok.offset tok) <> c_hash
  /\ tok_is_string_character (wat (L "ab cd") (Tok.offset tok + Tok.length tok)) true
     = false.
Proof.
  refine (string_token_extent (L "ab cd") strict_flags 0
            (fst (next (tokenizer (L "ab cd") strict_flags)))
            {| Tok.text := L "ab"; Tok.type := TOK_STRING;
               Tok.error := TOK_ERROR_NONE; Tok.error_offset := 0;
               Tok.offset := 0; Tok.length := 2 |} _ eq_refl).
  vm_compute. reflexivity.
Defined.

(** * What lies between the tokens *)

Lemma firstn_split (s : wcstring) (a b : nat) :
  (a <= b)%nat -> firstn b s = firstn a s ++ firstn (b - a) (skipn a s).
Proof.
  revert a b. induction s as [|c s IH]; intros a b H.
  - rewrite skipn_nil, !firstn_nil. reflexivity.
  - destruct a as [|a]; [rewrite Nat.sub_0_r; reflexivity|].
    destruct b as [|b]; [lia|]. simpl. rewrite (IH a b) by lia. reflexivity.
Qed.

Lemma scan_while_forallb (p : wchar -> bool) (s : wcstring) :
  forallb p (firstn (scan_while p s) s) = true.
Proof.
  induction s as [|c s IH]; simpl; [reflexivity|].
  destruct (p c) eqn:E; simpl; [rewrite E; exact IH|reflexivity].
Qed.

Section Gaps.
Context {LC : wctype}.

Lemma skipped_app (a b : wcstring) : skipped a -> skipped b -> skipped (a ++ b).
Proof.
  intros Ha Hb. induction Ha as [|c s Hc _ IH|s _ IH|body s Hbody _ IH|body s Hbody _ IH].
  - exact Hb.
  - simpl. apply skipped_blank; assumption.
  - simpl. apply skipped_escaped_newline. exact IH.
  - simpl. rewrite <- app_assoc. apply skipped_comment; assumption.
  - simpl. rewrite <- app_assoc. simpl. apply skipped_comment_and_newline; assumption.
Qed.

Lemma skip_blanks_skipped :
  forall (n : nat) (s : wcstring),
    (List.length s <= n)%nat -> skipped (firstn (fst (skip_blanks s)) s).
Proof.
  induction n as [|n IH]; intros s Hn.
  - destruct s; simpl in Hn; [|lia]. apply skipped_nothing.
  - destruct s as [|c s]; [apply skipped_nothing|]. simpl in Hn. simpl skip_blanks.
    destruct (Z.eqb_spec c 92) as [Ec|Ec]; cbn [andb].
    + destruct (Z.eqb_spec (wat s 0) 10) as [En|En].
      * destruct s as [|d s]; [discriminate|]. change (wat (d :: s) 0) with d in En.
        subst c d. specialize (IH s ltac:(simpl in Hn; lia)).
        destruct (skip_blanks s) as [k b]. simpl in *.
        apply skipped_escaped_newline. exact IH.
      * destruct (iswspace_not_nl c) eqn:Ew; [|apply skipped_nothing].
        specialize (IH s ltac:(lia)). destruct (skip_blanks s) as [k b]. simpl in *.
        apply skipped_blank; assumption.
    + destruct (iswspace_not_nl c) eqn:Ew; [|apply skipped_nothing].
      specialize (IH s ltac:(lia)). destruct (skip_blanks s) as [k b]. simpl in *.
      apply skipped_blank; assumption.
Qed.

Lemma scan_blanks_skipped (s : wcstring) :
  skipped (firstn (scan_while iswspace_not_nl s) s).
Proof.
  induction s as [|c s IH]; simpl; [apply skipped_nothing|].
  destruct (iswspace_not_nl c) eqn:E; [|apply skipped_nothing].
  simpl. apply skipped_blank; assumption.
Qed.

(** The characters from [a] to [b] of the buffer. *)
Lemma region_rest (t : tokenizer_t) (a : nat) :
  (buff t <= a)%nat -> skipn (a - buff t) (rest t) = skipn a (start t).
Proof.
  intros H. unfold rest. rewrite skipn_skipn. f_equal. lia.
Qed.

(** What the comment loop passes, up to the comment it returns or to where
    it stops. *)
Lemma skip_comments_skipped :
  forall (fuel : nat) (t t' : tokenizer_t) (returned : bool),
    skip_comments fuel t = Some (t', returned) ->
    let stop := if returned then last_pos t' else buff t' in
    (buff t <= stop)%nat /\ skipped (firstn (stop - buff t) (rest t)).
Proof.
  induction fuel as [|fuel IH]; intros t t' returned H; [discriminate|].
  cbn [skip_comments] in H.
  destruct (Z.eqb_spec (cur t) 35) as [Eh|Eh].
  2:{ inversion H; subst. cbv zeta. rewrite Nat.sub_diag. split; [lia|].
      apply skipped_nothing. }
  cbv zeta in H.
  set (n1 := scan_while not_end_of_line (rest t)) in *.
  set (t1 := set_buff t (buff t + n1)) in *.
  assert (Hline : exists body, firstn n1 (rest t) = 35 :: body
                               /\ forallb not_end_of_line body = true).
  { pose proof (scan_while_forallb not_end_of_line (rest t)) as Hf. fold n1 in Hf.
    destruct (rest_cons t ltac:(lia)) as [s' Hr]. rewrite Eh in Hr.
    unfold n1 in *. rewrite Hr in *. simpl in *.
    eexists. split; [reflexivity|]. exact Hf. }
  destruct Hline as (body & Hbody & Hforall).
  match type of H with
  | context [if ?c then set_buff t1 ?x else t1] =>
      assert (exists nl : wcstring,
                (nl = [] \/ nl = [10])
                /\ firstn (List.length nl) (skipn n1 (rest t)) = nl
                /\ (if c then set_buff t1 x else t1)
                   = set_buff t (buff t + n1 + List.length nl))
        as (nl & Hnl & Hnlr & Ht2)
  end.
  { destruct (Z.eqb_spec (cur t1) 10) as [E|E]; cbn [andb].
    - destruct (continue_line_after_comment t1).
      + exists [10]. split; [right; reflexivity|]. split.
        * unfold cur, t1 in E. fields. unfold rest. rewrite skipn_skipn.
          cbn [List.length]. rewrite (Nat.add_comm n1 (buff t)).
          rewrite firstn_1_skipn by (apply wat_nonzero; rewrite E; discriminate).
          rewrite E. reflexivity.
        * unfold t1. fields. cbn [List.length].
          replace (buff t + n1 + 1)%nat with (S (buff t + n1)) by lia.
          reflexivity.
      + exists []. split; [left; reflexivity|]. split; [reflexivity|].
        unfold t1. simpl. rewrite Nat.add_0_r. reflexivity.
    - exists []. split; [left; reflexivity|]. split; [reflexivity|].
      unfold t1. simpl. rewrite Nat.add_0_r. reflexivity. }
  rewrite Ht2 in H. clear Ht2. fields.
  destruct (show_comments t).
  - inversion H; subst. cbv zeta. fields. rewrite Nat.sub_diag. split; [lia|].
    apply skipped_nothing.
  - set (b2 := (buff t + n1 + List.length nl)%nat) in *.
    set (n3 := scan_while iswspace_not_nl (rest (set_buff t b2))) in *.
    apply IH in H. cbv zeta in H. fields. destruct H as (Hle & Hsk).
    set (stop := if returned then last_pos t' else buff t') in *.
    cbv zeta. split; [lia|].
    assert (rest (set_buff t b2) = skipn (n1 + List.length nl) (rest t)) as Hr2.
    { unfold rest. fields. rewrite skipn_skipn. f_equal. unfold b2. lia. }
    assert (rest (set_buff (set_buff t b2) (b2 + n3))
            = skipn n3 (skipn (n1 + List.length nl) (rest t))) as Hr3.
    { rewrite <- Hr2. unfold rest. fields. rewrite skipn_skipn. f_equal. lia. }
    rewrite Hr3 in Hsk.
    rewrite (firstn_split (rest t) n1 (stop - buff t)) by (unfold b2 in Hle; lia).
    rewrite (firstn_split (skipn n1 (rest t)) (List.length nl) (stop - buff t - n1))
      by (unfold b2 in Hle; lia).
    rewrite skipn_skipn, (Nat.add_comm (List.length nl) n1).
    rewrite (firstn_split (skipn (n1 + List.length nl) (rest t)) n3
               (stop - buff t - n1 - List.length nl))
      by (unfold b2 in Hle; lia).
    replace (stop - buff t - n1 - List.length nl - n3)%nat
      with (stop - (b2 + n3))%nat by (unfold b2; lia).
    rewrite Hbody, Hnlr.
    assert (skipped (firstn n3 (skipn (n1 + List.length nl) (rest t))
                     ++ firstn (stop - (b2 + n3))
                          (skipn n3 (skipn (n1 + List.length nl) (rest t)))))
      as Htail.
    { apply skipped_app; [|exact Hsk]. unfold n3. rewrite Hr2.
      apply scan_blanks_skipped. }
    destruct Hnl as [-> | ->]; simpl app.
    + apply skipped_comment; assumption.
    + apply skipped_comment_and_newline; assumption.
Qed.

Lemma tok_next_dispatch_false (t t' : tokenizer_t) :
  tok_next_dispatch t = (t', false) -> buff t' = buff t.
Proof.
  unfold tok_next_dispatch.
  repeat match goal with
  | |- context [if ?b then _ else _] => destruct b
  | |- context [let '(_, _) := ?x in _] => destruct x as [[? ?] ?]
  end; intros H; inversion H; reflexivity.
Qed.

(** What [tok_next] passes before the token it returns, or before it stops. *)
Lemma tok_next_skipped (t : tokenizer_t) :
  in_bounds t ->
  let stop := if snd (tok_next t) then last_pos (fst (tok_next t))
              else buff (fst (tok_next t)) in
  (buff t <= stop)%nat /\ skipped (firstn (stop - buff t) (rest t)).
Proof.
  intros Hin. unfold in_bounds in Hin. unfold tok_next.
  destruct (has_next t); cbn [negb].
  2:{ cbn [fst snd]. rewrite Nat.sub_diag. split; [lia|apply skipped_nothing]. }
  pose proof (skip_blanks_le _ (rest t) (Nat.le_refl _)) as Hle.
  pose proof (skip_blanks_skipped _ (rest t) (Nat.le_refl _)) as Hsk.
  rewrite length_rest in Hle.
  destruct (skip_blanks (rest t)) as [m escaped_nl]. cbn [fst] in Hle, Hsk.
  set (t1 := set_buff t (buff t + m)).
  set (t2 := if escaped_nl then set_continue_line_after_comment t1 true else t1).
  assert (buff t2 = (buff t + m)%nat /\ start t2 = start t) as (Hb2 & Hst2).
  { unfold t2, t1. destruct escaped_nl; fields; auto. }
  assert (rest t2 = skipn m (rest t)) as Hr2.
  { unfold rest. rewrite Hb2, Hst2, skipn_skipn. f_equal. lia. }
  destruct (skip_comments_total (skip_comments_fuel t2) t2)
    as (t3 & r & Hrun & Hs3 & Hb3 & _).
  { unfold in_bounds. rewrite Hb2, Hst2. lia. }
  { unfold skip_comments_fuel. lia. }
  rewrite Hrun. pose proof (skip_comments_skipped _ _ _ _ Hrun) as Hc.
  cbv zeta in Hc. rewrite Hb2, Hr2 in Hc. destruct Hc as (Hle3 & Hsk3).
  assert (Hjoin : forall stop, (buff t + m <= stop)%nat ->
            skipped (firstn (stop - (buff t + m)) (skipn m (rest t))) ->
            skipped (firstn (stop - buff t) (rest t))).
  { intros stop Hs Hk. rewrite (firstn_split (rest t) m (stop - buff t)) by lia.
    replace (stop - buff t - m)%nat with (stop - (buff t + m))%nat by lia.
    apply skipped_app; assumption. }
  destruct r.
  - cbn [fst snd]. split; [lia|]. apply Hjoin; assumption.
  - set (t4 := set_last_pos (set_continue_line_after_comment t3 false) (buff t3)).
    destruct Hs3 as (Hst3 & _).
    assert (in_bounds t4) as Hin4.
    { unfold in_bounds, t4. fields. rewrite Hst3. lia. }
    change (set_last_pos (set_continue_line_after_comment t3 false)
              (buff (set_continue_line_after_comment t3 false))) with t4.
    pose proof (tok_next_dispatch_last_pos t4 Hin4) as Hlp.
    pose proof (tok_next_dispatch_false t4) as Hfalse.
    destruct (tok_next_dispatch t4) as [t' more]. cbn [fst snd] in *.
    destruct more; cbv iota.
    + rewrite Hlp. unfold t4. fields. split; [lia|]. apply Hjoin; assumption.
    + rewrite (Hfalse t' eq_refl). unfold t4. fields. split; [lia|].
      apply Hjoin; assumption.
Qed.

(** X20.  What lies between the tokens.  From where a call of [next] finds
    the cursor to the offset of the token it emits (to where it leaves the
    cursor, when it emits none), the source holds nothing but blanks, escaped
    newlines, comments, and newlines after comments; and after a token the
    cursor is at the end of the token.  So every character of the source that
    is passed and is in no token is one of these: nothing else is dropped. *)
Theorem only_blanks_and_comments_are_skipped :
  forall (src : wcstring) (flags : tok_flags_t) (n : nat),
    let t := after_next n (tokenizer src flags) in
    let stop := match snd (next t) with
                | Some tok => Tok.offset tok
                | None => buff (fst (next t))
                end in
    (buff t <= stop)%nat
    /\ skipped (firstn (stop - buff t) (skipn (buff t) src))
    /\ (forall tok, snd (next t) = Some tok ->
         buff (fst (next t)) = (Tok.offset tok + Tok.length tok)%nat).
Proof.
  intros src flags n t stop.
  destruct (after_next_spec src flags n) as ((Hst & _) & Hin). fold t in Hst, Hin.
  simpl in Hst.
  pose proof (tok_next_skipped t Hin) as Hsk. cbv zeta in Hsk.
  unfold rest in Hsk. rewrite Hst in Hsk.
  assert (stop = if snd (tok_next t) then last_pos (fst (tok_next t))
                 else buff (fst (tok_next t))) as Hstop.
  { unfold stop, next. destruct (tok_next t) as [t' more].
    destruct more; reflexivity. }
  rewrite <- Hstop in Hsk. destruct Hsk as (Hle & Hsk).
  split; [exact Hle|]. split; [exact Hsk|].
  intros tok Htok. destruct (next t) as [t' o] eqn:Enext. cbn [fst snd] in *.
  subst o. destruct (next_moves _ _ _ Hin Enext) as (_ & Hend & _).
  symmetry. exact Hend.
Qed.

End Gaps.

(** * A caret after an escape at the start of a word *)

Section LeadingEscape.
Context {LC : wctype}.

(** An escape leaves the locals of the scanner as they are: the round ends in
    [continue], before [is_first] is cleared. *)
Lemma round_on_escape (buff_start : nat) (t : tokenizer_t) (v : rs_locals)
    (x : wchar) (s : wcstring) :
  rest t = c_backslash :: x :: s -> x <> c_nul ->
  read_string_round buff_start t v = rs_again (set_buff t (S (S (buff t)))) v.
Proof.
  intros Hrest Hx. unfold read_string_round.
  rewrite (rest_cur t _ _ Hrest). cbn [myal Z.leb Z.compare Pos.compare
    Pos.compare_cont andb orb negb Z.eqb Pos.eqb]. cbv zeta.
  rewrite (rest_cur (set_buff t (S (buff t))) x s (rest_step t _ _ Hrest)).
  destruct (Z.eqb_spec x 0); [contradiction|]. reflexivity.
Qed.

(** A caret under the cursor ends the loop while [is_first] holds. *)
Lemma round_on_first_caret (buff_start : nat) (t : tokenizer_t) (v : rs_locals) :
  mode v = mode_regular_text -> is_first v = true -> cur t = c_caret ->
  read_string_round buff_start t v = rs_break t (set_do_loop v false).
Proof.
  intros Hm Hf Hc. unfold read_string_round, rs_switch, rs_round_end.
  rewrite Hc, Hm, Hf. reflexivity.
Qed.

(** X21.  A caret after an escape at the start of a word.  The escape branch
    of [read_string] goes on to the next round before [is_first] is cleared,
    so a caret that follows a backslash and the character it escapes, at the
    start of a token, still counts as a separator: with the cursor on a
    backslash, a character that is neither NUL nor a newline, and a caret,
    [next] emits a String token of the first two characters only (a caret
    further inside a word does not end it). *)
Theorem caret_after_a_leading_escape :
  forall (t : tokenizer_t) (x : wchar) (r : wcstring),
    has_next t = true ->
    rest t = c_backslash :: x :: c_caret :: r ->
    x <> c_nul -> x <> c_nl ->
    snd (next t) =
    Some {| Tok.text := [c_backslash; x];
            Tok.type := TOK_STRING;
            Tok.error := TOK_ERROR_NONE;
            Tok.error_offset := 0;
            Tok.offset := buff t;
            Tok.length := 2 |}.
Proof.
  intros t x r Hn Hrest Hx0 Hxnl.
  assert (tok_next t = tok_next_dispatch (at_token t)) as Hstart.
  { unfold tok_next. rewrite Hn. cbn [negb]. rewrite Hrest. cbn [skip_blanks].
    change (wat (x :: 94 :: r) 0) with x.
    destruct (Z.eqb_spec x 10) as [|_]; [contradiction|]. cbn [Z.eqb Pos.eqb andb].
    rewrite iswspace_not_nl_ascii_graph by lia.
    rewrite Nat.add_0_r, set_buff_same.
    unfold skip_comments_fuel. cbn [skip_comments].
    rewrite (rest_cur t _ _ Hrest). reflexivity. }
  assert (rest (at_token t) = 92 :: x :: 94 :: r) as Hrest' by exact Hrest.
  assert (tok_next_dispatch (at_token t) = (read_string (at_token t), true)) as Hd.
  { unfold tok_next_dispatch. rewrite (rest_cur _ _ _ Hrest'). reflexivity. }
  assert (read_string (at_token t)
          = set_last (set_buff (at_token t) (S (S (buff t)))) TOK_STRING [92; x]) as Hrs.
  { unfold read_string, read_string_fuel.
    pose proof (length_rest (at_token t)) as Hlen. rewrite Hrest' in Hlen.
    cbn [List.length] in Hlen. rewrite <- Hlen.
    cbn [read_string_loop].
    rewrite (round_on_escape _ _ _ x (94 :: r) Hrest' Hx0).
    rewrite round_on_first_caret; [|reflexivity|reflexivity|].
    2:{ assert (wat (rest t) 2 = 94) as H2 by (rewrite Hrest; reflexivity).
        unfold rest in H2. rewrite wat_skipn in H2.
        replace (buff t + 2)%nat with (S (S (buff t))) in H2 by lia. exact H2. }
    unfold read_string_finish. cbn [mode set_do_loop rs_initial].
    fields.
    replace (S (S (buff (at_token t))) - buff (at_token t))%nat with 2%nat by lia.
    change (skipn (buff (at_token t)) (start (at_token t))) with (rest (at_token t)).
    rewrite Hrest'.
    destruct (negb (accept_unfinished (at_token t))); reflexivity. }
  unfold next. rewrite Hstart, Hd, Hrs. cbn [negb snd]. unfold at_token. fields.
  cbn [token_type_eqb andb].
  replace (buff t <=? S (S (buff t)))%nat with true
    by (symmetry; apply Nat.leb_le; lia).
  f_equal. f_equal. lia.
Qed.

End LeadingEscape.

(** A witness: [\a^b] gives the token [\a]. *)
Lemma caret_after_a_leading_escape_witness :
  snd (next (tokenizer [92; 97; 94; 98] strict_flags))
  = Some {| Tok.text := [92; 97]; Tok.type := TOK_STRING;
            Tok.error := TOK_ERROR_NONE; Tok.error_offset := 0;
            Tok.offset := 0; Tok.length := 2 |}.
Proof.
  exact (caret_after_a_leading_escape (tokenizer [92; 97; 94; 98] strict_flags)
           97 [98] eq_refl eq_refl ltac:(discriminate) ltac:(discriminate)).
Defined.

(** * Strict mode and unfinished input *)

Section Unfinished.
Context {LC : wctype}.

Lemma unfinished_buff (t : tokenizer_t) : buff (unfinished t) = buff t.
Proof. reflexivity. Qed.
Lemma unfinished_start (t : tokenizer_t) : start (unfinished t) = start t.
Proof. reflexivity. Qed.
Lemma unfinished_cur (t : tokenizer_t) : cur (unfinished t) = cur t.
Proof. reflexivity. Qed.
Lemma unfinished_rest (t : tokenizer_t) : rest (unfinished t) = rest t.
Proof. reflexivity. Qed.
Lemma unfinished_show_comments (t : tokenizer_t) :
  show_comments (unfinished t) = show_comments t.
Proof. reflexivity. Qed.
Lemma unfinished_show_blank_lines (t : tokenizer_t) :
  show_blank_lines (unfinished t) = show_blank_lines t.
Proof. reflexivity. Qed.
Lemma unfinished_continue_line (t : tokenizer_t) :
  continue_line_after_comment (unfinished t) = continue_line_after_comment t.
Proof. reflexivity. Qed.
Lemma unfinished_last_token (t : tokenizer_t) :
  last_token (unfinished t) = last_token t.
Proof. reflexivity. Qed.
Lemma set_buff_unfinished (t : tokenizer_t) (b : nat) :
  set_buff (unfinished t) b = unfinished (set_buff t b).
Proof. reflexivity. Qed.
Lemma set_last_unfinished (t : tokenizer_t) (ty : token_type) (tk : wcstring) :
  set_last (unfinished t) ty tk = unfinished (set_last t ty tk).
Proof. reflexivity. Qed.
Lemma set_last_pos_unfinished (t : tokenizer_t) (p : nat) :
  set_last_pos (unfinished t) p = unfinished (set_last_pos t p).
Proof. reflexivity. Qed.
Lemma set_has_next_unfinished (t : tokenizer_t) (b : bool) :
  set_has_next (unfinished t) b = unfinished (set_has_next t b).
Proof. reflexivity. Qed.
Lemma set_continue_line_unfinished (t : tokenizer_t) (b : bool) :
  set_continue_line_after_comment (unfinished t) b
  = unfinished (set_continue_line_after_comment t b).
Proof. reflexivity. Qed.
Lemma call_error_unfinished (t : tokenizer_t) (e : tokenizer_error) (w : option nat) :
  call_error (unfinished t) e w = unfinished (call_error t e w).
Proof. reflexivity. Qed.

Ltac push_unfinished :=
  repeat rewrite ?unfinished_buff, ?unfinished_start, ?unfinished_cur,
    ?unfinished_rest, ?unfinished_show_comments, ?unfinished_show_blank_lines,
    ?unfinished_continue_line, ?unfinished_last_token, ?set_buff_unfinished,
    ?set_last_unfinished, ?set_last_pos_unfinished, ?set_has_next_unfinished,
    ?set_continue_line_unfinished, ?call_error_unfinished.

Lemma rs_quote_unfinished (t : tokenizer_t) (v : rs_locals)
    (t1 : tokenizer_t) (v1 : rs_locals) :
  accept_unfinished t = false ->
  rs_quote t v = (t1, Some v1) ->
  rs_quote (unfinished t) v = (unfinished t1, Some v1).
Proof.
  intros Hu. unfold rs_quote.
  change (rest (unfinished t)) with (rest t).
  destruct (quote_end (rest t)) as [e|].
  - intros H. inversion H; subst. reflexivity.
  - cbv zeta. fields. rewrite Hu. cbn [negb]. discriminate.
Qed.

Lemma rs_switch_unfinished (buff_start : nat) (t : tokenizer_t) (v : rs_locals)
    (t1 : tokenizer_t) (v1 : rs_locals) :
  accept_unfinished t = false ->
  rs_switch buff_start t v = (t1, Some v1) ->
  rs_switch buff_start (unfinished t) v = (unfinished t1, Some v1).
Proof.
  intros Hu. unfold rs_switch.
  change (cur (unfinished t)) with (cur t).
  change (buff (unfinished t)) with (buff t).
  pose proof (rs_quote_unfinished t v t1 v1 Hu) as Hq.
  destruct (mode v);
    repeat match goal with
    | |- context [if ?b then _ else _] => destruct b
    end;
    first [exact Hq | intros H; inversion H; subst; reflexivity].
Qed.

(** A round of the scanner that raises no error in strict mode goes the same
    way when unfinished input is accepted. *)
Lemma round_unfinished (buff_start : nat) (t : tokenizer_t) (v : rs_locals) :
  accept_unfinished t = false ->
  match read_string_round buff_start t v with
  | rs_again t1 v1 =>
      read_string_round buff_start (unfinished t) v = rs_again (unfinished t1) v1
  | rs_break t1 v1 =>
      read_string_round buff_start (unfinished t) v = rs_break (unfinished t1) v1
  | rs_return _ => True
  end.
Proof.
  intros Hu. unfold read_string_round.
  change (cur (unfinished t)) with (cur t).
  destruct (myal (cur t)); cbn [negb].
  { unfold rs_round_end. destruct (negb (do_loop v)); reflexivity. }
  destruct (cur t =? 92).
  { cbv zeta.
    change (cur (set_buff (unfinished t) (S (buff (unfinished t)))))
      with (cur (set_buff t (S (buff t)))).
    destruct (cur (set_buff t (S (buff t))) =? 0); [|reflexivity].
    fields. rewrite Hu. exact I. }
  pose proof (rs_switch_unfinished buff_start t v) as Hs.
  destruct (rs_switch buff_start t v) as [t2 [v2|]]; [|exact I].
  rewrite (Hs t2 v2 Hu eq_refl).
  unfold rs_round_end. destruct (negb (do_loop v2)); reflexivity.
Qed.

Lemma loop_unfinished (buff_start : nat) :
  forall (fuel : nat) (t : tokenizer_t) (v : rs_locals) (t1 : tokenizer_t)
         (v1 : rs_locals),
    accept_unfinished t = false ->
    read_string_loop fuel buff_start t v = Some (t1, Some v1) ->
    read_string_loop fuel buff_start (unfinished t) v = Some (unfinished t1, Some v1)
    /\ accept_unfinished t1 = false.
Proof.
  induction fuel as [|fuel IH]; intros t v t1 v1 Hu H; [discriminate|].
  cbn [read_string_loop] in *.
  pose proof (round_unfinished buff_start t v Hu) as Hr.
  pose proof (read_string_round_spec buff_start t v) as Hspec.
  destruct (read_string_round buff_start t v) as [t2|t2 v2|t2 v2].
  - discriminate.
  - rewrite Hr. inversion H; subst. split; [reflexivity|].
    destruct Hspec as (b' & -> & _). exact Hu.
  - rewrite Hr. destruct Hspec as (b' & -> & _). apply IH; [exact Hu|exact H].
Qed.

Lemma read_string_unfinished (t : tokenizer_t) :
  in_bounds t -> accept_unfinished t = false ->
  last_type (read_string t) <> TOK_ERROR ->
  read_string (unfinished t) = unfinished (read_string t).
Proof.
  intros Hin Hu. unfold read_string, read_string_fuel.
  change (start (unfinished t)) with (start t).
  change (buff (unfinished t)) with (buff t).
  destruct (read_string_loop_total (buff t) (S (List.length (start t) - buff t)) t
              rs_initial ltac:(lia)) as (t' & r & Hrun & Hr).
  rewrite Hrun. destruct r as [v'|].
  - destruct (loop_unfinished _ _ _ _ _ _ Hu Hrun) as (-> & Hu').
    unfold read_string_finish. cbn [accept_unfinished unfinished negb].
    rewrite Hu'. cbn [negb].
    destruct (mode v'); intros H; first [reflexivity | exfalso; apply H; reflexivity].
  - destruct Hr as (_ & b' & e & w & -> & _). intros H. exfalso. apply H. reflexivity.
Qed.

Lemma tok_next_dispatch_false_type (t t' : tokenizer_t) :
  tok_next_dispatch t = (t', false) -> last_type t' = TOK_END.
Proof.
  unfold tok_next_dispatch.
  repeat match goal with
  | |- context [if ?b then _ else _] => destruct b
  | |- context [let '(_, _) := ?x in _] => destruct x as [[? ?] ?]
  end; intros H; inversion H; reflexivity.
Qed.

Lemma tok_next_dispatch_unfinished (t : tokenizer_t) :
  in_bounds t -> accept_unfinished t = false ->
  last_type (fst (tok_next_dispatch t)) <> TOK_ERROR ->
  tok_next_dispatch (unfinished t)
  = (unfinished (fst (tok_next_dispatch t)), snd (tok_next_dispatch t)).
Proof.
  intros Hin Hu. unfold tok_next_dispatch. cbv zeta. push_unfinished.
  pose proof (read_string_unfinished t Hin Hu) as Hrs.
  repeat match goal with
  | |- context [if ?b then _ else _] => destruct b; push_unfinished
  | |- context [let '(_, _) := ?x in _] => destruct x as [[? ?] ?]
  end; cbn [fst snd]; intros H;
    first [reflexivity | rewrite (Hrs H); reflexivity].
Qed.

Lemma skip_comments_unfinished :
  forall (fuel : nat) (t : tokenizer_t),
    skip_comments fuel (unfinished t)
    = match skip_comments fuel t with
      | Some (t', returned) => Some (unfinished t', returned)
      | None => None
      end.
Proof.
  induction fuel as [|fuel IH]; intros t; [reflexivity|].
  cbn [skip_comments]. cbv zeta. push_unfinished.
  destruct (cur t =? 35); [|reflexivity].
  match goal with
  | |- context [(cur ?x =? 10) && continue_line_after_comment ?x] =>
      destruct ((cur x =? 10) && continue_line_after_comment x)
  end; push_unfinished;
  match goal with
  | |- context [if show_comments ?x then _ else _] => destruct (show_comments x)
  end; push_unfinished; first [reflexivity | apply IH].
Qed.

Lemma tok_next_unfinished (t : tokenizer_t) :
  in_bounds t -> accept_unfinished t = false ->
  (snd (tok_next t) = true -> last_type (fst (tok_next t)) <> TOK_ERROR) ->
  tok_next (unfinished t) = (unfinished (fst (tok_next t)), snd (tok_next t)).
Proof.
  intros Hin Hu. unfold in_bounds in Hin. unfold tok_next.
  change (has_next (unfinished t)) with (has_next t).
  change (rest (unfinished t)) with (rest t).
  destruct (has_next t); cbn [negb]; [|reflexivity].
  pose proof (skip_blanks_le _ (rest t) (Nat.le_refl _)) as Hle.
  rewrite length_rest in Hle.
  destruct (skip_blanks (rest t)) as [m escaped_nl]. cbn [fst] in Hle.
  set (t1 := set_buff t (buff t + m)).
  set (t2 := if escaped_nl then set_continue_line_after_comment t1 true else t1).
  assert (buff t2 = (buff t + m)%nat /\ start t2 = start t
          /\ accept_unfinished t2 = false) as (Hb2 & Hst2 & Hu2).
  { unfold t2, t1. destruct escaped_nl; fields; auto. }
  assert ((if escaped_nl
           then set_continue_line_after_comment
                  (set_buff (unfinished t) (buff (unfinished t) + m)) true
           else set_buff (unfinished t) (buff (unfinished t) + m))
          = unfinished t2) as ->.
  { unfold t2, t1. destruct escaped_nl; reflexivity. }
  change (skip_comments_fuel (unfinished t2)) with (skip_comments_fuel t2).
  rewrite skip_comments_unfinished.
  destruct (skip_comments_total (skip_comments_fuel t2) t2)
    as (t3 & r & Hrun & Hs3 & Hb3 & _).
  { unfold in_bounds. rewrite Hb2, Hst2. lia. }
  { unfold skip_comments_fuel. lia. }
  rewrite Hrun. destruct r; [reflexivity|].
  destruct Hs3 as (Hst3 & Hu3 & _).
  set (t4 := set_last_pos (set_continue_line_after_comment t3 false)
               (buff (set_continue_line_after_comment t3 false))).
  change (set_last_pos (set_continue_line_after_comment (unfinished t3) false)
            (buff (set_continue_line_after_comment (unfinished t3) false)))
    with (unfinished t4).
  intros Hne. apply tok_next_dispatch_unfinished.
  - unfold in_bounds, t4. fields. rewrite Hst3. lia.
  - unfold t4. fields. congruence.
  - pose proof (tok_next_dispatch_false_type t4) as Hf.
    destruct (tok_next_dispatch t4) as [t' more]. cbn [fst snd] in *.
    destruct more; [apply Hne; reflexivity|].
    rewrite (Hf t' eq_refl). discriminate.
Qed.

Lemma next_unfinished (t : tokenizer_t) :
  in_bounds t -> accept_unfinished t = false ->
  (forall tok, snd (next t) = Some tok -> Tok.type tok <> TOK_ERROR) ->
  next (unfinished t) = (unfinished (fst (next t)), snd (next t)).
Proof.
  intros Hin Hu Hne. pose proof (tok_next_unfinished t Hin Hu) as H.
  unfold next in *. destruct (tok_next t) as [t' more]. cbn [fst snd] in *.
  rewrite H.
  - destruct more; reflexivity.
  - intros ->. cbn [negb snd] in Hne. exact (Hne _ eq_refl).
Qed.

Lemma after_next_unfinished (n : nat) :
  forall t : tokenizer_t,
    in_bounds t -> accept_unfinished t = false ->
    (forall k tok, (k < n)%nat -> snd (next (after_next k t)) = Some tok ->
                   Tok.type tok <> TOK_ERROR) ->
    after_next n (unfinished t) = unfinished (after_next n t).
Proof.
  induction n as [|n IH]; intros t Hin Hu Hne; [reflexivity|].
  cbn [after_next].
  rewrite (next_unfinished t Hin Hu (fun tok => Hne O tok ltac:(lia))). cbn [fst].
  destruct (next_spec t Hin) as ((_ & Hu' & _) & Hin' & _).
  apply IH; [exact Hin'|congruence|].
  intros k tok Hk H. exact (Hne (S k) tok ltac:(lia) H).
Qed.

(** X22.  Strict mode and unfinished input.  As long as the calls of [next]
    on a strict tokenizer emit no Error token, a tokenizer of the same source
    and flags that accepts unfinished input emits the same tokens: accepting
    unfinished input changes nothing but what strict mode reports as an
    error. *)
Theorem unfinished_input_changes_errors_only :
  forall (src : wcstring) (flags : tok_flags_t) (n : nat),
    TOK_ACCEPT_UNFINISHED flags = false ->
    (forall k tok, (k <= n)%nat ->
       snd (next (after_next k (tokenizer src flags))) = Some tok ->
       Tok.type tok <> TOK_ERROR) ->
    snd (next (after_next n (tokenizer src (accepting_unfinished flags))))
    = snd (next (after_next n (tokenizer src flags))).
Proof.
  intros src flags n Hflag Hne.
  change (tokenizer src (accepting_unfinished flags))
    with (unfinished (tokenizer src flags)).
  destruct (after_next_spec src flags n) as ((_ & Hu & _) & Hin).
  simpl in Hu. rewrite Hflag in Hu.
  rewrite after_next_unfinished.
  - rewrite next_unfinished; [reflexivity|exact Hin|exact Hu|].
    intros tok H. exact (Hne n tok (Nat.le_refl n) H).
  - unfold in_bounds. simpl. lia.
  - exact Hflag.
  - intros k tok Hk H. exact (Hne k tok ltac:(lia) H).
Qed.

End Unfinished.

(** A witness: the two words of [a b]. *)
Lemma unfinished_input_changes_errors_only_witness :
  snd (next (after_next 1 (tokenizer (L "a b") (accepting_unfinished strict_flags))))
  = snd (next (after_next 1 (tokenizer (L "a b") strict_flags))).
Proof.
  apply (unfinished_input_changes_errors_only (L "a b") strict_flags 1).
  - reflexivity.
  - intros k tok Hk. destruct k as [|[|k]]; [| |lia];
      vm_compute; intros H; inversion H; discriminate.
Defined.

Section UnfinishedErrors.
Context {LC : wctype}.

(** On the terminating NUL a round of the scanner ends the loop where it
    is. *)
Lemma round_at_nul (buff_start : nat) (t : tokenizer_t) (v : rs_locals) :
  cur t = c_nul ->
  exists v', read_string_round buff_start t v = rs_break t v'.
Proof.
  intros Hc. unfold read_string_round, rs_switch, rs_round_end. rewrite Hc.
  cbn [myal Z.leb Z.compare andb orb negb Z.eqb tok_is_string_character].
  destruct (mode v); cbn [do_loop set_do_loop negb]; eexists; reflexivity.
Qed.

(** Where a round raises an error in strict mode, it ends the loop on the
    NUL, at once or in the next round, when unfinished input is accepted. *)
Lemma round_return_unfinished (buff_start : nat) (t : tokenizer_t) (v : rs_locals)
    (t1 : tokenizer_t) :
  accept_unfinished t = false ->
  read_string_round buff_start t v = rs_return t1 ->
  exists tu vu,
    cur tu = c_nul
    /\ (read_string_round buff_start (unfinished t) v = rs_break tu vu
        \/ read_string_round buff_start (unfinished t) v = rs_again tu vu).
Proof.
  intros Hu. unfold read_string_round.
  change (cur (unfinished t)) with (cur t).
  destruct (myal (cur t)); cbn [negb].
  { unfold rs_round_end. destruct (negb (do_loop v)); discriminate. }
  destruct (cur t =? 92).
  { cbv zeta.
    change (cur (set_buff (unfinished t) (S (buff (unfinished t)))))
      with (cur (set_buff t (S (buff t)))).
    destruct (Z.eqb_spec (cur (set_buff t (S (buff t)))) 0) as [E|E]; [|discriminate].
    intros _. cbn [accept_unfinished set_buff unfinished negb].
    eexists _, _. split; [|right; reflexivity].
    unfold cur in *. cbn [buff start set_buff unfinished] in *.
    replace (S (S (buff t) - 1)) with (S (buff t)) by lia. exact E. }
  unfold rs_switch. change (cur (unfinished t)) with (cur t).
  change (buff (unfinished t)) with (buff t).
  assert (Hq : forall t1, rs_quote t v = (t1, None) ->
            exists tu vu, cur tu = 0
              /\ rs_quote (unfinished t) v = (tu, Some vu) /\ do_loop vu = false).
  { intros t2. unfold rs_quote. change (rest (unfinished t)) with (rest t).
    destruct (quote_end (rest t)); [discriminate|]. intros _. cbv zeta.
    cbn [accept_unfinished set_buff unfinished negb].
    eexists _, _. split; [|split; reflexivity].
    unfold cur. cbn [buff start set_buff unfinished]. unfold rest.
    rewrite <- wat_skipn. apply wcslen_stop. }
  destruct (mode v);
    repeat match goal with
    | |- context [if ?b then _ else _] =>
        lazymatch b with
        | negb (do_loop _) => fail
        | _ => destruct b
        end
    end;
    try (unfold rs_round_end;
         match goal with
         | |- context [if negb ?d then _ else _] => destruct (negb d)
         end; discriminate);
    (destruct (rs_quote t v) as [t2 [v2|]] eqn:Eq;
     [unfold rs_round_end; destruct (negb (do_loop v2)); discriminate|];
     intros _; destruct (Hq t2 eq_refl) as (tu & vu & Hc & -> & Hd);
     exists tu, vu; split; [exact Hc|]; left;
     unfold rs_round_end; rewrite Hd; reflexivity).
Qed.

Lemma loop_error_unfinished (buff_start : nat) :
  forall (fuel : nat) (t : tokenizer_t) (v : rs_locals) (t1 : tokenizer_t),
    accept_unfinished t = false ->
    read_string_loop fuel buff_start t v = Some (t1, None) ->
    forall (fuel' : nat) (tu : tokenizer_t) (vu : rs_locals),
      read_string_loop fuel' buff_start (unfinished t) v = Some (tu, Some vu) ->
      cur tu = c_nul.
Proof.
  induction fuel as [|fuel IH]; intros t v t1 Hu H fuel' tu vu Hrun; [discriminate|].
  destruct fuel' as [|fuel']; [discriminate|].
  cbn [read_string_loop] in *.
  pose proof (round_unfinished buff_start t v Hu) as Hr.
  pose proof (read_string_round_spec buff_start t v) as Hspec.
  destruct (read_string_round buff_start t v) as [t2|t2 v2|t2 v2] eqn:Eround.
  - destruct (round_return_unfinished _ _ _ _ Hu Eround) as (t3 & v3 & Hc & [E|E]);
      rewrite E in Hrun.
    + inversion Hrun; subst. exact Hc.
    + destruct fuel' as [|fuel']; [discriminate|]. cbn [read_string_loop] in Hrun.
      destruct (round_at_nul buff_start t3 v3 Hc) as (v4 & E4). rewrite E4 in Hrun.
      inversion Hrun; subst. exact Hc.
  - discriminate.
  - rewrite Hr in Hrun. destruct Hspec as (b' & -> & _).
    exact (IH (set_buff t b') v2 t1 Hu H _ _ _ Hrun).
Qed.

(** The loop is left on the NUL, or in regular text. *)
Lemma rs_switch_exit (buff_start : nat) (t : tokenizer_t) (v : rs_locals)
    (t1 : tokenizer_t) (v1 : rs_locals) :
  stopped_ok t v ->
  rs_switch buff_start t v = (t1, Some v1) -> do_loop v1 = false ->
  cur t1 = c_nul \/ mode v1 = mode_regular_text.
Proof.
  intros Hstop.
  assert (Hquote : (cur t =? 39) || (cur t =? 34) = true ->
                   rs_quote t v = (t1, Some v1) -> do_loop v1 = false ->
                   cur t1 = c_nul \/ mode v1 = mode_regular_text).
  { intros Hq. unfold rs_quote. destruct (quote_end (rest t)) as [e|].
    - intros H Hd. inversion H; subst. rewrite (Hstop Hd) in Hq. discriminate.
    - cbv zeta. fields. destruct (accept_unfinished t); cbn [negb]; [|discriminate].
      intros H _. inversion H; subst. left. unfold cur. fields.
      unfold rest. rewrite <- wat_skipn. apply wcslen_stop. }
  unfold rs_switch.
  destruct (mode v) eqn:Em;
    repeat match goal with
    | |- context [if ?b then _ else _] => destruct b eqn:?
    end;
    try (apply Hquote; first [reflexivity | assumption]);
    intros H Hd; inversion H; subst;
    cbn [do_loop mode set_mode set_parans set_offset_of_bracket set_do_loop] in *;
    first [right; reflexivity
          |right; assumption
          |left; exact (Hstop Hd)
          |left; match goal with
                 | E : (cur t1 =? 0) = true |- _ => apply Z.eqb_eq in E; exact E
                 end].
Qed.

Lemma round_exit (buff_start : nat) (t : tokenizer_t) (v : rs_locals)
    (t1 : tokenizer_t) (v1 : rs_locals) :
  stopped_ok t v ->
  read_string_round buff_start t v = rs_break t1 v1 ->
  cur t1 = c_nul \/ mode v1 = mode_regular_text.
Proof.
  intros Hstop. unfold read_string_round.
  destruct (myal (cur t)) eqn:Ea; cbn [negb].
  { unfold rs_round_end. destruct (do_loop v) eqn:Ed; cbn [negb]; [discriminate|].
    intros H. inversion H; subst. left. exact (Hstop Ed). }
  destruct (cur t =? 92).
  { cbv zeta. destruct (cur (set_buff t (S (buff t))) =? 0); [|discriminate].
    destruct (negb (accept_unfinished _)); discriminate. }
  destruct (rs_switch buff_start t v) as [t2 [v2|]] eqn:Esw; [|discriminate].
  unfold rs_round_end. destruct (do_loop v2) eqn:Ed; cbn [negb]; [discriminate|].
  intros H. inversion H; subst. exact (rs_switch_exit _ _ _ _ _ Hstop Esw Ed).
Qed.

Lemma loop_exit (buff_start : nat) :
  forall (fuel : nat) (t : tokenizer_t) (v : rs_locals) (t' : tokenizer_t)
         (v' : rs_locals),
    locals_ok buff_start t v -> stopped_ok t v ->
    read_string_loop fuel buff_start t v = Some (t', Some v') ->
    cur t' = c_nul \/ mode v' = mode_regular_text.
Proof.
  induction fuel as [|fuel IH]; intros t v t' v' Hok Hstop H; [discriminate|].
  cbn [read_string_loop] in H.
  pose proof (round_locals buff_start t v Hok Hstop) as Hr.
  destruct (read_string_round buff_start t v) as [t1|t1 v1|t1 v1] eqn:Er.
  - discriminate.
  - inversion H; subst. exact (round_exit _ _ _ _ _ Hstop Er).
  - destruct Hr as (Hok1 & Hstop1). exact (IH _ _ _ _ Hok1 Hstop1 H).
Qed.

(** Where [read_string] raises an error in strict mode, it makes a String
    token that ends on the terminating NUL when unfinished input is
    accepted. *)
Lemma read_string_unfinished_error (t : tokenizer_t) :
  in_bounds t -> accept_unfinished t = false ->
  last_type (read_string t) = TOK_ERROR ->
  last_type (read_string (unfinished t)) = TOK_STRING
  /\ cur (read_string (unfinished t)) = c_nul.
Proof.
  intros Hin Hu. unfold read_string, read_string_fuel.
  change (start (unfinished t)) with (start t).
  change (buff (unfinished t)) with (buff t).
  destruct (read_string_loop_total (buff t) (S (List.length (start t) - buff t)) t
              rs_initial ltac:(lia)) as (t' & r & Hrun & Hr).
  destruct (read_string_loop_total (buff t) (S (List.length (start t) - buff t))
              (unfinished t) rs_initial ltac:(cbn [start buff unfinished]; lia))
    as (tu & ru & Hrunu & Hru).
  rewrite Hrun, Hrunu.
  assert (forall vu, last_type (read_string_finish (buff t) tu vu) = TOK_STRING
                     /\ cur (read_string_finish (buff t) tu vu) = cur tu) as Hfin.
  { intros vu. unfold read_string_finish.
    assert (accept_unfinished tu = true) as ->.
    { destruct ru as [v0|].
      - destruct Hru as (b' & -> & _). reflexivity.
      - destruct Hru as (Hbad & _). discriminate. }
    cbn [negb]. split; reflexivity. }
  destruct ru as [vu|].
  2:{ destruct Hru as (Hbad & _). discriminate. }
  destruct r as [v'|].
  - destruct (loop_unfinished _ _ _ _ _ _ Hu Hrun) as (Hrun' & Hu').
    rewrite Hrun' in Hrunu. inversion Hrunu; subst. clear Hrunu.
    pose proof (loop_exit (buff t) _ t rs_initial t' vu (locals_ok_initial t)
                  ltac:(intros H; discriminate) Hrun) as Hexit.
    unfold read_string_finish at 1. rewrite Hu'. cbn [negb].
    intros Hty. destruct (Hfin vu) as (H1 & H2). split; [exact H1|].
    rewrite H2. change (cur (unfinished t')) with (cur t').
    destruct Hexit as [Hc|Hm]; [exact Hc|]. rewrite Hm in Hty. discriminate.
  - intros _. destruct (Hfin vu) as (H1 & H2). split; [exact H1|]. rewrite H2.
    exact (loop_error_unfinished _ _ _ _ _ Hu Hrun _ _ _ Hrunu).
Qed.

Lemma tok_next_dispatch_unfinished_error (t t' : tokenizer_t) :
  in_bounds t -> tok_next_dispatch t = (t', true) ->
  last_type t' = TOK_ERROR ->
  error t' <> TOK_INVALID_PIPE -> error t' <> TOK_INVALID_REDIRECT ->
  t' = read_string t
  /\ tok_next_dispatch (unfinished t) = (read_string (unfinished t), true).
Proof.
  intros Hin. unfold tok_next_dispatch.
  change (cur (unfinished t)) with (cur t).
  change (rest (unfinished t)) with (rest t).
  assert (Hmode : forall consumed mode_ fd,
            read_redirection_or_fd_pipe (rest t) = (consumed, mode_, fd) ->
            consumed <> O -> mode_ <> TOK_ERROR).
  { intros consumed mode_ fd Hr Hc.
    pose proof (read_redirection_or_fd_pipe_bounds (rest t)) as Hb. rewrite Hr in Hb.
    destruct Hb as (_ & Hb). destruct (Nat.eqb_spec consumed 0); [contradiction|].
    intros ->. discriminate. }
  destruct (cur t =? 0); [discriminate|].
  destruct ((cur t =? 13) || (cur t =? 10) || (cur t =? 59)).
  { intros H. inversion H; subst.
    destruct (negb (show_blank_lines _)); fields; discriminate. }
  destruct (cur t =? 38).
  { intros H. inversion H; subst. fields. discriminate. }
  destruct (cur t =? 124).
  { intros H. inversion H; subst. fields. discriminate. }
  destruct ((cur t =? 62) || (cur t =? 60) || (cur t =? 94)).
  { destruct (read_redirection_or_fd_pipe (rest t)) as [[consumed mode_] fd] eqn:Er.
    destruct (Nat.eqb_spec consumed 0) as [|Hc]; cbn [orb].
    - intros H _ _ He. inversion H; subst. exfalso. apply He. reflexivity.
    - destruct (fd <? 0); intros H; inversion H; subst; fields.
      + intros _ _ He. exfalso. apply He. reflexivity.
      + intros E. exfalso. exact (Hmode _ _ _ eq_refl Hc E). }
  destruct (iswdigit (cur t)).
  2:{ intros H _ _ _. inversion H; subst. split; reflexivity. }
  destruct (read_redirection_or_fd_pipe (rest t)) as [[consumed mode_] fd] eqn:Er.
  destruct (Nat.ltb_spec 0 consumed) as [Hc|Hc].
  2:{ intros H _ _ _. inversion H; subst. split; reflexivity. }
  destruct (token_type_eqb mode_ TOK_PIPE && (fd =? 0));
    intros H; inversion H; subst; fields.
  - intros _ He. exfalso. apply He. reflexivity.
  - intros E. exfalso. exact (Hmode _ _ _ eq_refl ltac:(lia) E).
Qed.

Lemma tok_next_unfinished_error (t t' : tokenizer_t) :
  in_bounds t -> accept_unfinished t = false ->
  tok_next t = (t', true) -> last_type t' = TOK_ERROR ->
  error t' <> TOK_INVALID_PIPE ->
  exists tu,
    tok_next (unfinished t) = (tu, true)
    /\ last_type tu = TOK_STRING /\ last_pos tu = last_pos t'
    /\ (last_pos tu <= buff tu)%nat /\ start tu = start t /\ cur tu = c_nul.
Proof.
  intros Hin Hu. unfold in_bounds in Hin. unfold tok_next.
  change (has_next (unfinished t)) with (has_next t).
  change (rest (unfinished t)) with (rest t).
  destruct (has_next t); cbn [negb]; [|discriminate].
  pose proof (skip_blanks_le _ (rest t) (Nat.le_refl _)) as Hle.
  rewrite length_rest in Hle.
  destruct (skip_blanks (rest t)) as [m escaped_nl]. cbn [fst] in Hle.
  set (t1 := set_buff t (buff t + m)).
  set (t2 := if escaped_nl then set_continue_line_after_comment t1 true else t1).
  assert (buff t2 = (buff t + m)%nat /\ start t2 = start t
          /\ accept_unfinished t2 = false) as (Hb2 & Hst2 & Hu2).
  { unfold t2, t1. destruct escaped_nl; fields; auto. }
  assert ((if escaped_nl
           then set_continue_line_after_comment
                  (set_buff (unfinished t) (buff (unfinished t) + m)) true
           else set_buff (unfinished t) (buff (unfinished t) + m))
          = unfinished t2) as ->.
  { unfold t2, t1. destruct escaped_nl; reflexivity. }
  change (skip_comments_fuel (unfinished t2)) with (skip_comments_fuel t2).
  rewrite skip_comments_unfinished.
  destruct (skip_comments_total (skip_comments_fuel t2) t2)
    as (t3 & r & Hrun & Hs3 & Hb3 & Hr).
  { unfold in_bounds. rewrite Hb2, Hst2. lia. }
  { unfold skip_comments_fuel. lia. }
  rewrite Hrun. destruct r.
  { intros H Hty. inversion H; subst. destruct Hr as (_ & Hc). congruence. }
  destruct Hs3 as (Hst3 & Hu3 & _).
  set (t4 := set_last_pos (set_continue_line_after_comment t3 false)
               (buff (set_continue_line_after_comment t3 false))).
  change (set_last_pos (set_continue_line_after_comment (unfinished t3) false)
            (buff (set_continue_line_after_comment (unfinished t3) false)))
    with (unfinished t4).
  assert (in_bounds t4) as Hin4.
  { unfold in_bounds, t4. fields. rewrite Hst3. lia. }
  assert (accept_unfinished t4 = false) as Hu4 by (unfold t4; fields; congruence).
  assert (start t4 = start t) as Hst4 by (unfold t4; fields; congruence).
  intros Hd Hty He.
  pose proof (tok_next_dispatch_error t4 t' Hin4 Hd Hty) as [(-> & _)|Hrs].
  { exfalso. apply He. reflexivity. }
  pose proof (read_string_error_position t4 Hin4) as Hpos.
  rewrite <- Hrs in Hpos. destruct (Hpos Hty) as (_ & w & _ & Hkind).
  destruct (tok_next_dispatch_unfinished_error t4 t' Hin4 Hd Hty He) as (_ & ->).
  { intros E. rewrite E in Hkind. exact Hkind. }
  destruct (read_string_unfinished_error t4 Hin4 Hu4) as (Hty' & Hcur).
  { rewrite <- Hrs. exact Hty. }
  assert (in_bounds (unfinished t4)) as Hin4' by exact Hin4.
  exists (read_string (unfinished t4)). split; [reflexivity|].
  split; [exact Hty'|].
  pose proof (read_string_last_pos (unfinished t4) Hin4') as Hlp.
  pose proof (read_string_last_pos t4 Hin4) as Hlp'.
  destruct (read_string_spec (unfinished t4) Hin4')
    as (b' & Hb' & [Heq | (Hbad & _)]); [|discriminate].
  split; [rewrite Hlp, Hrs, Hlp'; reflexivity|].
  assert (last_pos t4 = buff t4) as Hp4 by reflexivity.
  split.
  { rewrite Hlp, Heq. change (last_pos t4 <= b')%nat.
    change (buff t4 <= b' <= List.length (start t4))%nat in Hb'. lia. }
  split; [rewrite Heq; cbn [start set_last set_buff unfinished]; exact Hst4|].
  exact Hcur.
Qed.

Lemma after_next_add (a b : nat) :
  forall t : tokenizer_t, after_next (a + b) t = after_next b (after_next a t).
Proof.
  induction a as [|a IH]; intros t; [reflexivity|].
  cbn [Nat.add after_next]. apply IH.
Qed.

(** The tokens before a token are no Error tokens. *)
Lemma no_error_before_a_token (t t' : tokenizer_t) (tok : tok_t) (n : nat) :
  in_bounds t ->
  next (after_next n t) = (t', Some tok) ->
  forall k tok_k, (k < n)%nat ->
    snd (next (after_next k t)) = Some tok_k -> Tok.type tok_k <> TOK_ERROR.
Proof.
  intros Hin Hnext k tok_k Hk Hsome Hty.
  assert (in_bounds (after_next k t)) as Hink.
  { clear -Hin. revert t Hin. induction k as [|k IH]; intros t Hin; [exact Hin|].
    cbn [after_next]. apply IH. destruct (next_spec t Hin) as (_ & H & _). exact H. }
  destruct (next (after_next k t)) as [tk o] eqn:Ek. cbn [snd] in Hsome. subst o.
  pose proof (error_token_clears_has_next _ _ _ Hink Ek Hty) as Hh.
  replace n with (k + 1 + (n - k - 1))%nat in Hnext by lia.
  rewrite !after_next_add in Hnext. cbn [after_next] in Hnext.
  rewrite Ek in Hnext. cbn [fst] in Hnext.
  rewrite (after_next_without_has_next _ _ Hh) in Hnext.
  rewrite (next_without_has_next _ Hh) in Hnext. discriminate.
Qed.

(** X23.  What strict mode reports as unterminated.  Where a strict
    tokenizer emits an Error token other than the invalid pipe (an
    unterminated quote, escape, subshell or slice), a tokenizer of the same
    source and flags that accepts unfinished input emits, at the same call, a
    String token that starts at the same offset and runs to the terminating
    NUL of the source. *)
Theorem unfinished_input_makes_a_string_of_the_rest :
  forall (src : wcstring) (flags : tok_flags_t) (n : nat)
         (t' : tokenizer_t) (tok : tok_t),
    TOK_ACCEPT_UNFINISHED flags = false ->
    next (after_next n (tokenizer src flags)) = (t', Some tok) ->
    Tok.type tok = TOK_ERROR ->
    Tok.error tok <> TOK_INVALID_PIPE ->
    exists tok',
      snd (next (after_next n (tokenizer src (accepting_unfinished flags)))) = Some tok'
      /\ Tok.type tok' = TOK_STRING
      /\ Tok.offset tok' = Tok.offset tok
      /\ wat src (Tok.offset tok' + Tok.length tok') = c_nul.
Proof.
  intros src flags n t' tok Hflag Hnext Hty Herr.
  change (tokenizer src (accepting_unfinished flags))
    with (unfinished (tokenizer src flags)).
  assert (in_bounds (tokenizer src flags)) as Hin0 by (unfold in_bounds; simpl; lia).
  destruct (after_next_spec src flags n) as ((Hst & Hu & _) & Hin).
  simpl in Hst, Hu. rewrite Hflag in Hu.
  rewrite after_next_unfinished;
    [|exact Hin0|exact Hflag
     |exact (no_error_before_a_token _ _ _ _ Hin0 Hnext)].
  destruct (next_emits _ _ _ Hnext) as (Etn & -> & _).
  cbn [token_of Tok.type Tok.error Tok.offset] in *.
  rewrite Hty in Herr. cbn [token_type_eqb] in Herr.
  destruct (tok_next_unfinished_error _ _ Hin Hu Etn Hty Herr)
    as (tu & Etu & Htyu & Hpos & Hle & Hstu & Hcur).
  exists (token_of tu). unfold next. rewrite Etu. cbn [negb snd].
  split; [reflexivity|]. cbn [token_of Tok.type Tok.offset Tok.length].
  split; [exact Htyu|]. split; [exact Hpos|].
  destruct (Nat.leb_spec (last_pos tu) (buff tu)) as [_|Hbad]; [|lia].
  replace (last_pos tu + (buff tu - last_pos tu))%nat with (buff tu) by lia.
  unfold cur in Hcur. rewrite Hstu, Hst in Hcur. exact Hcur.
Qed.

End UnfinishedErrors.

(** A witness: the open quote in [a 'b]. *)
Lemma unfinished_input_makes_a_string_of_the_rest_witness :
  exists tok',
    snd (next (after_next 1 (tokenizer (L "a 'b") (accepting_unfinished strict_flags))))
    = Some tok'
    /\ Tok.type tok' = TOK_STRING
    /\ Tok.offset tok' = 2%nat
    /\ wat (L "a 'b") (Tok.offset tok' + Tok.length tok') = c_nul.
Proof.
  refine (unfinished_input_makes_a_string_of_the_rest (L "a 'b") strict_flags 1
            (fst (next (after_next 1 (tokenizer (L "a 'b") strict_flags))))
            {| Tok.text := QUOTE_ERROR; Tok.type := TOK_ERROR;
               Tok.error := TOK_UNTERMINATED_QUOTE; Tok.error_offset := 0;
               Tok.offset := 2; Tok.length := 2 |} eq_refl _ eq_refl _).
  - vm_compute. reflexivity.
  - discriminate.
Defined.

(** * A command substitution is one token *)

Section Subshell.
Context {LC : wctype}.

Lemma scans_to_in_bounds (buff_start : nat) (t : tokenizer_t) (v : rs_locals)
    (t1 : tokenizer_t) (v1 : rs_locals) :
  scans_to buff_start t v t1 v1 -> in_bounds t -> in_bounds t1.
Proof.
  intros H. induction H as [t v|t v ta va tb vb Hr _ IH]; intros Hin; [exact Hin|].
  apply IH. pose proof (read_string_round_spec buff_start t v) as Hs.
  rewrite Hr in Hs. destruct Hs as (b' & -> & Hb). unfold in_bounds. fields. lia.
Qed.

(** When rounds of the scanner lead, in regular text, to a character that is
    no string character, [read_string] makes a String token of what they
    passed. *)
Lemma read_string_scanned (t t1 : tokenizer_t) (v1 : rs_locals) :
  in_bounds t ->
  scans_to (buff t) t rs_initial t1 v1 ->
  mode v1 = mode_regular_text ->
  tok_is_string_character (cur t1) false = false ->
  read_string t = set_last t1 TOK_STRING (firstn (buff t1 - buff t) (rest t)).
Proof.
  intros Hin Hscan Hm Hend.
  pose proof (scans_to_in_bounds _ _ _ _ _ Hscan Hin) as Hin1.
  destruct (scans_to_loop _ _ _ _ _ Hscan) as (Ht1 & k & Hk & Hloop).
  assert (start t1 = start t) as Hst by (rewrite Ht1; reflexivity).
  unfold in_bounds in *. rewrite Hst in Hin1.
  unfold read_string, read_string_fuel.
  replace (S (List.length (start t) - buff t))
    with (k + S (List.length (start t) - buff t - k))%nat by lia.
  rewrite Hloop. cbn [read_string_loop].
  rewrite (round_on_terminator _ _ _ Hm Hend).
  unfold read_string_finish. cbn [mode set_do_loop]. rewrite Hm, Hst.
  destruct (negb (accept_unfinished t1)); reflexivity.
Qed.

Lemma scans_here_eq (buff_start : nat) (t t' : tokenizer_t) (v : rs_locals) :
  t = t' -> scans_to buff_start t v t' v.
Proof. intros ->. apply scans_here. Qed.

Lemma round_on_open_paren (buff_start : nat) (t : tokenizer_t) (v : rs_locals) :
  mode v = mode_regular_text -> do_loop v = true -> cur t = c_lparen ->
  read_string_round buff_start t v
  = rs_again (set_buff t (S (buff t)))
      (set_is_first
         (set_mode (set_parans v 1 (array_set (paran_offsets v) 0 (buff t)))
            mode_subshell) false).
Proof.
  intros Hm Hd Hc. unfold read_string_round, rs_switch, rs_round_end.
  rewrite Hc, Hm. cbn. rewrite Hd. reflexivity.
Qed.

Lemma round_in_subshell (buff_start : nat) (t : tokenizer_t) (v : rs_locals) :
  mode v = mode_subshell -> do_loop v = true ->
  plain_in_subshell (cur t) = true ->
  read_string_round buff_start t v
  = rs_again (set_buff t (S (buff t))) (set_is_first v false).
Proof.
  intros Hm Hd Hp. unfold read_string_round, rs_switch, rs_round_end.
  destruct (myal (cur t)); cbn [negb]; [rewrite Hd; reflexivity|].
  unfold plain_in_subshell in Hp. apply negb_true_iff in Hp.
  repeat (apply orb_false_iff in Hp; destruct Hp as [Hp ?]).
  rewrite Hm.
  repeat match goal with
  | H : (cur t =? _) = false |- _ => rewrite H; clear H
  end.
  cbn [orb]. rewrite Hd. reflexivity.
Qed.

Lemma round_on_close_paren (buff_start : nat) (t : tokenizer_t) (v : rs_locals) :
  mode v = mode_subshell -> do_loop v = true -> paran_count v = 1%nat ->
  cur t = c_rparen ->
  read_string_round buff_start t v
  = rs_again (set_buff t (S (buff t)))
      (set_is_first (set_mode (set_parans v 0 (paran_offsets v)) mode_regular_text)
         false).
Proof.
  intros Hm Hd Hn Hc. unfold read_string_round, rs_switch, rs_round_end.
  rewrite Hc, Hm, Hn. cbn. rewrite Hd, Hm. reflexivity.
Qed.

Lemma scans_subshell (buff_start : nat) (body r : wcstring) :
  forall (t : tokenizer_t) (v : rs_locals),
    rest t = body ++ r -> forallb plain_in_subshell body = true ->
    mode v = mode_subshell -> do_loop v = true -> is_first v = false ->
    scans_to buff_start t v (set_buff t (buff t + List.length body)) v.
Proof.
  induction body as [|c body IH]; intros t v Hrest Hp Hm Hd Hf.
  - simpl. rewrite Nat.add_0_r, set_buff_same. apply scans_here.
  - simpl in Hp. apply andb_true_iff in Hp. destruct Hp as [Hc Hp].
    simpl in Hrest. pose proof (rest_cur t c _ Hrest) as Hcur.
    eapply scans_round.
    + apply round_in_subshell; try assumption. rewrite Hcur. exact Hc.
    + rewrite (set_is_first_same v Hf).
      specialize (IH (set_buff t (S (buff t))) v (rest_step t c _ Hrest) Hp Hm Hd Hf).
      fields. simpl List.length.
      replace (buff t + S (List.length body))%nat
        with (S (buff t) + List.length body)%nat by lia.
      exact IH.
Qed.

(** X24.  A command substitution is one token.  With the cursor on an
    opening parenthesis, characters that are no backslash, parenthesis, quote
    or NUL (blanks, newlines, semicolons, pipes and the like among them), a
    closing parenthesis, and then a character that is no string character (or
    the end of the input), [next] emits one String token that covers it all,
    parentheses included: inside a subshell separators do not end the
    token. *)
Theorem command_substitution_is_one_token :
  forall (t : tokenizer_t) (body r : wcstring),
    has_next t = true ->
    rest t = (c_lparen :: body ++ [c_rparen]) ++ r ->
    forallb plain_in_subshell body = true ->
    tok_is_string_character (wat r 0) false = false ->
    snd (next t) =
    Some {| Tok.text := c_lparen :: body ++ [c_rparen];
            Tok.type := TOK_STRING;
            Tok.error := TOK_ERROR_NONE;
            Tok.error_offset := 0;
            Tok.offset := buff t;
            Tok.length := S (S (List.length body)) |}.
Proof.
  intros t body r Hn Hrest Hp Hend.
  assert (rest t = 40 :: body ++ 41 :: r) as Hrest'.
  { rewrite Hrest. simpl. rewrite <- app_assoc. reflexivity. }
  assert (in_bounds t) as Hin.
  { unfold in_bounds. pose proof (length_rest t) as Hl. rewrite Hrest' in Hl.
    simpl in Hl. lia. }
  pose proof (rest_cur t _ _ Hrest') as Hcur.
  assert (tok_next t = tok_next_dispatch (at_token t)) as Hstart.
  { apply (tok_next_at_token t 40 _ Hn Hrest');
      [discriminate|apply iswspace_not_nl_ascii_graph; lia|discriminate]. }
  assert (tok_next_dispatch (at_token t) = (read_string (at_token t), true)) as Hd.
  { unfold tok_next_dispatch. change (cur (at_token t)) with (cur t).
    rewrite Hcur. reflexivity. }
  set (v1 := set_is_first
               (set_mode (set_parans rs_initial 1
                            (array_set (paran_offsets rs_initial) 0 (buff t)))
                  mode_subshell) false).
  set (v2 := set_is_first
               (set_mode (set_parans v1 0 (paran_offsets v1)) mode_regular_text)
               false).
  set (t0 := at_token t).
  assert (rest t0 = 40 :: body ++ 41 :: r) as Hrest0 by exact Hrest'.
  assert (scans_to (buff t0) t0 rs_initial
            (set_buff t0 (S (S (buff t0 + List.length body)))) v2) as Hscan.
  { eapply scans_round.
    { apply round_on_open_paren; [reflexivity|reflexivity|exact Hcur]. }
    fold v1.
    pose proof (scans_subshell (buff t0) body (41 :: r) (set_buff t0 (S (buff t0))) v1
                  (rest_step t0 _ _ Hrest0) Hp eq_refl eq_refl eq_refl) as Hbody.
    eapply scans_to_trans; [exact Hbody|].
    assert (cur (set_buff (set_buff t0 (S (buff t0)))
                   (S (buff t0) + List.length body)) = 41) as H41.
    { unfold cur. fields.
      assert (wat (rest t0) (S (List.length body)) = 41) as H.
      { rewrite Hrest0. change (40 :: body ++ 41 :: r) with ((40 :: body) ++ 41 :: r).
        change (S (List.length body)) with (List.length (40 :: body)).
        rewrite wat_app_0. reflexivity. }
      unfold rest in H. rewrite wat_skipn in H.
      replace (buff t0 + S (List.length body))%nat
        with (S (buff t0) + List.length body)%nat in H by lia.
      exact H. }
    eapply scans_round.
    { apply round_on_close_paren; [reflexivity|reflexivity|reflexivity|exact H41]. }
    apply scans_here_eq. unfold set_buff. cbn [buff start last_token last_type
      last_pos has_next accept_unfinished show_comments show_blank_lines error
      global_error_offset squash_errors continue_line_after_comment].
    f_equal. }
  assert (read_string t0
          = set_last (set_buff t0 (S (S (buff t0 + List.length body)))) TOK_STRING
              (40 :: body ++ [41])) as Hrs.
  { rewrite (read_string_scanned t0 _ v2 Hin Hscan eq_refl).
    - f_equal. fields.
      replace (S (S (buff t0 + List.length body)) - buff t0)%nat
        with (List.length (40 :: body ++ [41]))
        by (cbn [List.length]; rewrite length_app; cbn [List.length]; lia).
      rewrite Hrest0.
      change (40 :: body ++ 41 :: r) with ((40 :: body) ++ [41] ++ r).
      rewrite app_assoc. change ((40 :: body) ++ [41]) with (40 :: body ++ [41]).
      rewrite firstn_app, Nat.sub_diag, firstn_all.
      change (firstn 0 r) with (@nil wchar). apply app_nil_r.
    - unfold cur. fields.
      assert (wat (rest t0) (S (S (List.length body))) = wat r 0) as Hr0.
      { rewrite Hrest0.
        change (40 :: body ++ 41 :: r) with ((40 :: body) ++ 41 :: r).
        change (S (S (List.length body))) with (S (List.length (40 :: body))).
        rewrite wat_app_1. reflexivity. }
      unfold rest in Hr0. rewrite wat_skipn in Hr0.
      replace (buff t0 + S (S (List.length body)))%nat
        with (S (S (buff t0 + List.length body))) in Hr0 by lia.
      rewrite Hr0. exact Hend. }
  unfold next. rewrite Hstart, Hd. fold t0. rewrite Hrs. cbn [negb snd].
  unfold t0, at_token. fields. cbn [token_type_eqb andb].
  replace (buff t <=? S (S (buff t + List.length body)))%nat with true
    by (symmetry; apply Nat.leb_le; lia).
  f_equal. f_equal. lia.
Qed.

End Subshell.

(** A witness: [(a; b)] before a blank. *)
Lemma command_substitution_is_one_token_witness :
  snd (next (tokenizer (L "(a; b) c") strict_flags))
  = Some {| Tok.text := L "(a; b)"; Tok.type := TOK_STRING;
            Tok.error := TOK_ERROR_NONE; Tok.error_offset := 0;
            Tok.offset := 0; Tok.length := 6 |}.
Proof.
  exact (command_substitution_is_one_token (tokenizer (L "(a; b) c") strict_flags)
           (L "a; b") (L " c") eq_refl eq_refl eq_refl eq_refl).
Defined.

Section StreamStaysEnded.
Context {LC : wctype}.

(** X25.  An ended stream stays ended.  Once a call of [next], on a
    tokenizer reached from a new one by calls of [next], has emitted no
    token, no later call emits one, and the tokenizer is not changed any
    more. *)
Theorem ended_stream_stays_ended :
  forall (src : wcstring) (flags : tok_flags_t) (n m : nat),
    snd (next (after_next n (tokenizer src flags))) = None ->
    (n <= m)%nat ->
    snd (next (after_next m (tokenizer src flags))) = None
    /\ fst (next (after_next m (tokenizer src flags)))
       = fst (next (after_next n (tokenizer src flags))).
Proof.
  intros src flags n m Hnone Hle.
  destruct (after_next_spec src flags n) as (_ & Hin).
  destruct (next_spec _ Hin) as (_ & _ & Hend). rewrite Hnone in Hend.
  destruct (Nat.eq_dec m n) as [-> | Hne]; [split; [exact Hnone|reflexivity]|].
  replace m with (n + 1 + (m - n - 1))%nat by lia.
  rewrite !after_next_add. cbn [after_next].
  rewrite (after_next_without_has_next _ _ Hend).
  rewrite (next_without_has_next _ Hend). split; reflexivity.
Qed.

End StreamStaysEnded.

(** A witness: the calls after the end of [a]. *)
Lemma ended_stream_stays_ended_witness :
  snd (next (after_next 3 (tokenizer (L "a") strict_flags))) = None
  /\ fst (next (after_next 3 (tokenizer (L "a") strict_flags)))
     = fst (next (after_next 1 (tokenizer (L "a") strict_flags))).
Proof.
  apply (ended_stream_stays_ended (L "a") strict_flags 1 3).
  - vm_compute. reflexivity.
  - lia.
Defined.

(** * A backslash at the end of the input: the token *)

Section TrailingBackslashToken.
Context {LC : wctype}.








End TrailingBackslashToken.


